(** * better-ccflare: the Claude log ingestion engine

    A shallow embedding of [packages/claude-logs] (paths, parser, scanner,
    service) and of the persistence and billing-block code of
    [packages/database/src/repositories/claude-logs.repository.ts],
    followed by the properties of the system design that the code keeps
    and the ones it does not.

    Conventions.
    - A TypeScript [string] is a [string] of bytes (UTF-8), so
      [String.length] is the size of a file holding it.
    - A [number] read from a log record is an exact rational; the
      embedding keeps the order of every addition of the source, and no
      theorem below uses a law of arithmetic on record numbers that IEEE
      doubles lack.  Times in milliseconds and file sizes are integers.
    - [undefined] and [null] are [None].
    - What the JavaScript platform supplies ([JSON.parse], [Date],
      [path.join]) is the [Platform] interface; every theorem holds for
      every platform, and [Reference.platform] is an executable instance
      used in the examples. *)

From Stdlib Require Import ZArith QArith Ascii String List Sorted Lia.
From stdpp Require Import base option list gmap strings.

Set Default Proof Using "Type".
Local Open Scope Z_scope.

(** ** JavaScript strings *)

Module Js.

(** The white space that [String.prototype.trim] strips, in UTF-8.
    One byte: tab, line feed, vertical tab, form feed, carriage return,
    space. *)
Definition is_white_space (c : ascii) : bool :=
  let n := nat_of_ascii c in
  ((9 <=? n)%nat && (n <=? 13)%nat) || (n =? 32)%nat.

(** Two bytes: U+00A0. *)
Definition is_white_space2 (c1 c2 : ascii) : bool :=
  (nat_of_ascii c1 =? 194)%nat && (nat_of_ascii c2 =? 160)%nat.

(** Three bytes: U+1680, U+2000 to U+200A, U+2028, U+2029, U+202F, U+205F,
    U+3000, U+FEFF. *)
Definition is_white_space3 (c1 c2 c3 : ascii) : bool :=
  let '(n1, n2, n3) := (nat_of_ascii c1, nat_of_ascii c2, nat_of_ascii c3) in
  ((n1 =? 225) && (n2 =? 154) && (n3 =? 128))%nat
  || ((n1 =? 226) && (n2 =? 128)
      && (((128 <=? n3) && (n3 <=? 138)) || (n3 =? 168) || (n3 =? 169) || (n3 =? 175)))%nat
  || ((n1 =? 226) && (n2 =? 129) && (n3 =? 159))%nat
  || ((n1 =? 227) && (n2 =? 128) && (n3 =? 128))%nat
  || ((n1 =? 239) && (n2 =? 187) && (n3 =? 191))%nat.

(** The string without the white space at its head; with [backwards], the
    bytes of each character are met last byte first. *)
Fixpoint strip (backwards : bool) (s : string) : string :=
  match s with
  | String c1 s1 =>
      if is_white_space c1 then strip backwards s1
      else
        match s1 with
        | String c2 s2 =>
            if (if backwards then is_white_space2 c2 c1 else is_white_space2 c1 c2)
            then strip backwards s2
            else
              match s2 with
              | String c3 s3 =>
                  if (if backwards then is_white_space3 c3 c2 c1
                      else is_white_space3 c1 c2 c3)
                  then strip backwards s3
                  else s
              | EmptyString => s
              end
        | EmptyString => s
        end
  | EmptyString => EmptyString
  end.

Definition trimStart (s : string) : string := strip false s.

Definition trimEnd (s : string) : string :=
  String.rev (strip true (String.rev s)).

Definition trim (s : string) : string := trimEnd (trimStart s).

Definition newline : ascii := ascii_of_nat 10.

(** [s.split(sep)] for a one-character separator. *)
Fixpoint split_on (sep : ascii) (s : string) : list string :=
  match s with
  | EmptyString => [EmptyString]
  | String c s' =>
      if Ascii.eqb c sep then EmptyString :: split_on sep s'
      else match split_on sep s' with
           | [] => [String c EmptyString]
           | l :: ls => String c l :: ls
           end
  end.

(** [s.split("\n")]: the pieces between line feeds; never empty, and one
    piece more than there are line feeds. *)
Definition split_lines (s : string) : list string := split_on newline s.

(** How many times [c] occurs in [s], and whether it does. *)
Fixpoint count_char (c : ascii) (s : string) : nat :=
  match s with
  | EmptyString => 0
  | String c' s' => (if Ascii.eqb c' c then 1 else 0) + count_char c s'
  end.

Definition includes_char (s : string) (c : ascii) : bool :=
  negb (count_char c s =? 0)%nat.

(** The text of a file of records: each line followed by a line feed. *)
Fixpoint records_text (lines : list string) : string :=
  match lines with
  | [] => EmptyString
  | l :: rest => l +:+ String newline (records_text rest)
  end.

(** [parts.join(sep)]. *)
Fixpoint join_with (sep : string) (parts : list string) : string :=
  match parts with
  | [] => EmptyString
  | [p] => p
  | p :: ps => p +:+ sep +:+ join_with sep ps
  end.

(** [!s] for a possibly missing string: missing and empty are falsy. *)
Definition falsy_string (o : option string) : bool :=
  match o with
  | None => true
  | Some s => String.eqb s EmptyString
  end.

(** [s.startsWith(p)] and [s.endsWith(p)]. *)
Definition startsWith (s p : string) : bool := String.prefix p s.

Definition endsWith (s p : string) : bool :=
  String.prefix (String.rev p) (String.rev s).

(** [s.substring(n)] for [n] within the string or at its end. *)
Fixpoint substring_from (n : nat) (s : string) : string :=
  match n, s with
  | O, _ => s
  | S n', String _ s' => substring_from n' s'
  | S _, EmptyString => EmptyString
  end.

(** [o || d] on strings. *)
Definition or_string (o : option string) (d : string) : string :=
  match o with
  | None => d
  | Some s => if String.eqb s EmptyString then d else s
  end.

(** [o || null] on strings. *)
Definition or_null (o : option string) : option string :=
  match o with
  | None => None
  | Some s => if String.eqb s EmptyString then None else Some s
  end.

(** [o || 0] on numbers: a missing field and the number zero are falsy. *)
Definition or_zero (o : option Q) : Q :=
  match o with
  | None => 0%Q
  | Some n => if Qeq_bool n 0%Q then 0%Q else n
  end.

End Js.

(** ** Data model ([types.ts]) *)

Definition number := Q.

(** [RawLogEntry]: one record of a log file, as the cast
    [JSON.parse(trimmed) as RawLogEntry] types it.  Every field can be
    missing. *)
Module Raw.
Record Usage := mkUsage {
  input_tokens : option number;
  output_tokens : option number;
  cache_creation_input_tokens : option number;
  cache_read_input_tokens : option number }.
Record Message := mkMessage {
  role : option string;
  model : option string;
  usage : option Usage }.
Record LogEntry := mkLogEntry {
  uuid : option string;
  sessionId : option string;
  timestamp : option string;
  message : option Message;
  costUSD : option number;
  gitBranch : option string;
  cwd : option string }.
(** The object literal [{}] of [raw.message?.usage || {}]. *)
Definition empty_usage : Usage := mkUsage None None None None.
End Raw.

(** [ParsedLogEntry]. *)
Module Entry.
Record t := mk {
  uuid : string;
  sessionId : string;
  projectPath : string;
  timestamp : Z;
  role : string;
  model : option string;
  inputTokens : number;
  outputTokens : number;
  cacheCreationInputTokens : number;
  cacheReadInputTokens : number;
  totalTokens : number;
  costUsd : number;
  gitBranch : option string;
  cwd : option string;
  filePath : string;
  fileModifiedAt : Z }.
End Entry.
Abbreviation ParsedLogEntry := Entry.t.

(** [ScanError]; [line] is optional. *)
Module ScanError.
Record t := mk {
  filePath : string;
  line : option nat;
  error : string }.
End ScanError.
Abbreviation ScanError := ScanError.t.

(** [ProcessedFile], the watermark of one file. *)
Module ProcessedFile.
Record t := mk {
  filePath : string;
  lastModifiedAt : Z;
  lastSize : Z;
  lastLineCount : nat;
  processedAt : Z }.
End ProcessedFile.
Abbreviation ProcessedFile := ProcessedFile.t.

(** [ScanResult]. *)
Module ScanResult.
Record t := mk {
  entries : list ParsedLogEntry;
  filesProcessed : nat;
  filesSkipped : nat;
  entriesFound : nat;
  errors : list ScanError;
  configDirsUsed : list string }.
End ScanResult.
Abbreviation ScanResult := ScanResult.t.

(** ** The platform *)

(** What [JSON.parse(text) as RawLogEntry] can do: throw a [SyntaxError],
    yield [null] (on which the first property access throws a
    [TypeError]), or yield a value read at the record type. *)
Inductive JSON_result :=
| JSON_throws (message : string)
| JSON_null
| JSON_value (raw : Raw.LogEntry).

Class Platform := {
  (** [JSON.parse] *)
  JSON_parse : string -> JSON_result;
  (** the message of the [TypeError] of a property access on [null] *)
  null_access_message : string;
  (** [new Date(text).getTime()]; [None] is [NaN] *)
  Date_getTime : string -> option Z;
  (** [new Date(ms).toISOString()] *)
  Date_toISOString : Z -> string;
  (** [path.join] of two segments *)
  path_join : string -> string -> string }.

(** ** The parser ([parser.ts]) *)

Module ParseOutcome.
(** The result of [parseLine]: [{ entry, error }]. *)
Record t := mk {
  entry : option ParsedLogEntry;
  error : option ScanError }.
End ParseOutcome.

Module Parsed.
(** The result of [parseJSONLContent]: [{ entries, errors }]. *)
Record t := mk {
  entries : list ParsedLogEntry;
  errors : list ScanError }.
End Parsed.

Module ParsedFrom.
(** The result of [parseJSONLContentFromLine]:
    [{ entries, errors, lineCount }]. *)
Record t := mk {
  entries : list ParsedLogEntry;
  errors : list ScanError;
  lineCount : nat }.
End ParsedFrom.

Section Parser.
Context `{Platform}.

Definition missing_fields_message : string :=
  "Missing required fields (uuid, sessionId, or timestamp)".

(** The body of the [try] block once [JSON.parse] has returned a value. *)
Definition parseRaw (raw : Raw.LogEntry) (filePath projectPath : string)
    (fileModifiedAt : Z) (lineNumber : option nat) : ParseOutcome.t :=
  if Js.falsy_string (Raw.uuid raw) || Js.falsy_string (Raw.sessionId raw)
     || Js.falsy_string (Raw.timestamp raw)
  then ParseOutcome.mk None
         (Some (ScanError.mk filePath lineNumber missing_fields_message))
  else
    (* the three required fields are non-empty strings from here on *)
    let raw_timestamp := default EmptyString (Raw.timestamp raw) in
    match Date_getTime raw_timestamp with
    | None =>
        ParseOutcome.mk None
          (Some (ScanError.mk filePath lineNumber
                   ("Invalid timestamp: " +:+ raw_timestamp)))
    | Some timestamp =>
        let usage :=
          match Raw.message raw ≫= Raw.usage with
          | Some u => u
          | None => Raw.empty_usage
          end in
        let inputTokens := Js.or_zero (Raw.input_tokens usage) in
        let outputTokens := Js.or_zero (Raw.output_tokens usage) in
        let cacheCreationInputTokens :=
          Js.or_zero (Raw.cache_creation_input_tokens usage) in
        let cacheReadInputTokens :=
          Js.or_zero (Raw.cache_read_input_tokens usage) in
        let totalTokens :=
          (inputTokens + outputTokens + cacheCreationInputTokens
           + cacheReadInputTokens)%Q in
        ParseOutcome.mk
          (Some {|
             Entry.uuid := default EmptyString (Raw.uuid raw);
             Entry.sessionId := default EmptyString (Raw.sessionId raw);
             Entry.projectPath := projectPath;
             Entry.timestamp := timestamp;
             Entry.role := Js.or_string (Raw.message raw ≫= Raw.role) "unknown";
             Entry.model := Js.or_null (Raw.message raw ≫= Raw.model);
             Entry.inputTokens := inputTokens;
             Entry.outputTokens := outputTokens;
             Entry.cacheCreationInputTokens := cacheCreationInputTokens;
             Entry.cacheReadInputTokens := cacheReadInputTokens;
             Entry.totalTokens := totalTokens;
             Entry.costUsd := Js.or_zero (Raw.costUSD raw);
             Entry.gitBranch := Js.or_null (Raw.gitBranch raw);
             Entry.cwd := Js.or_null (Raw.cwd raw);
             Entry.filePath := filePath;
             Entry.fileModifiedAt := fileModifiedAt |})
          None
    end.

(** The [catch] clause: both error classes carry a [message]. *)
Definition parse_error (filePath : string) (lineNumber : option nat)
    (message : string) : ParseOutcome.t :=
  ParseOutcome.mk None
    (Some (ScanError.mk filePath lineNumber ("JSON parse error: " +:+ message))).

Definition parseLine (line filePath projectPath : string)
    (fileModifiedAt : Z) (lineNumber : option nat) : ParseOutcome.t :=
  let trimmed := Js.trim line in
  if String.eqb trimmed EmptyString then ParseOutcome.mk None None
  else
    match JSON_parse trimmed with
    | JSON_throws message => parse_error filePath lineNumber message
    | JSON_null => parse_error filePath lineNumber null_access_message
    | JSON_value raw =>
        parseRaw raw filePath projectPath fileModifiedAt lineNumber
    end.

(** The loop body shared by the two batch functions, run on the lines
    [lines[i]], [lines[i+1]], ... where [i] is the index of the head of
    [lines] in the file. *)
Fixpoint parse_loop (lines : list string) (i : nat)
    (filePath projectPath : string) (fileModifiedAt : Z)
    (entries : list ParsedLogEntry) (errors : list ScanError)
    : list ParsedLogEntry * list ScanError :=
  match lines with
  | [] => (entries, errors)
  | l :: rest =>
      let r := parseLine l filePath projectPath fileModifiedAt (Some (i + 1)%nat) in
      let entries :=
        match ParseOutcome.entry r with
        | Some e => entries ++ [e]
        | None => entries
        end in
      let errors :=
        match ParseOutcome.error r with
        | Some e => errors ++ [e]
        | None => errors
        end in
      parse_loop rest (S i) filePath projectPath fileModifiedAt entries errors
  end.

Definition parseJSONLContent (content filePath projectPath : string)
    (fileModifiedAt : Z) : Parsed.t :=
  let lines := Js.split_lines content in
  let '(entries, errors) :=
    parse_loop lines 0 filePath projectPath fileModifiedAt [] [] in
  Parsed.mk entries errors.

Definition parseJSONLContentFromLine (content filePath projectPath : string)
    (fileModifiedAt : Z) (startLine : nat) : ParsedFrom.t :=
  let lines := Js.split_lines content in
  let lineCount := length lines in
  let '(entries, errors) :=
    parse_loop (drop startLine lines) startLine filePath projectPath
      fileModifiedAt [] [] in
  ParsedFrom.mk entries errors lineCount.

End Parser.

(** ** The outside world *)

(** The outcome of a file system call that can throw. *)
Inductive Io (A : Type) :=
| IoOk (a : A)
| IoError (message : string).
Arguments IoOk {A} a.
Arguments IoError {A} message.

(** A directory entry as [readdir(dir, { withFileTypes: true })] gives it,
    together with what [readdir] gives for a subdirectory ([None] when
    that call throws), so that the walk of [findJSONLFiles] is structural. *)
#[warnings="-register-all"]
Inductive Dirent :=
| DirentFile (name : string)
| DirentDirectory (name : string) (listing : option (list Dirent))
| DirentOther (name : string).

Module Stats.
Record t := mk { mtimeMs : Z; size : Z }.
End Stats.

(** The state of the machine at one moment: environment, disk, clock. *)
Module Outside.
Record t := mk {
  CLAUDE_CONFIG_DIR : option string;
  homedir : string;
  existsSync : string -> bool;
  readdir : string -> option (list Dirent);
  stat : string -> Io Stats.t;
  readFile : string -> Io string;
  Date_now : Z }.
End Outside.

(** ** Paths ([paths.ts]) *)

Section Paths.
Context `{Platform}.

(** The loop over the override paths: [if (p && existsSync(p)) dirs.push(p)]. *)
Fixpoint push_existing (exists_ : string -> bool) (paths dirs : list string)
    : list string :=
  match paths with
  | [] => dirs
  | p :: rest =>
      push_existing exists_ rest
        (if negb (String.eqb p EmptyString) && exists_ p then dirs ++ [p] else dirs)
  end.

(** [if (existsSync(p) && !dirs.includes(p)) dirs.push(p)]. *)
Definition push_fallback (exists_ : string -> bool) (p : string)
    (dirs : list string) : list string :=
  if exists_ p && negb (bool_decide (p ∈ dirs)) then dirs ++ [p] else dirs.

Definition getClaudeConfigDirs (o : Outside.t) : list string :=
  let dirs := [] in
  let dirs :=
    match Js.or_null (Outside.CLAUDE_CONFIG_DIR o) with
    | Some envDirs =>
        let paths := map Js.trim (Js.split_on "," envDirs) in
        push_existing (Outside.existsSync o) paths dirs
    | None => dirs
    end in
  let legacyPath := path_join (Outside.homedir o) ".claude" in
  let dirs := push_fallback (Outside.existsSync o) legacyPath dirs in
  let xdgPath := path_join (path_join (Outside.homedir o) ".config") "claude" in
  let dirs := push_fallback (Outside.existsSync o) xdgPath dirs in
  dirs.

Definition getProjectsDir (configDir : string) : string :=
  path_join configDir "projects".

(** [parts.slice(0, -1)]. *)
Definition drop_last (parts : list string) : list string :=
  take (length parts - 1) parts.

(** Lengths are counted in bytes, which is the count of the source for a
    path of ASCII characters. *)
Fixpoint extractProjectPath (filePath : string) (configDirs : list string)
    : string :=
  match configDirs with
  | [] => "unknown"
  | configDir :: rest =>
      let projectsDir := getProjectsDir configDir in
      let next := extractProjectPath filePath rest in
      if Js.startsWith filePath projectsDir then
        let relativePath :=
          Js.substring_from (String.length projectsDir + 1) filePath in
        let parts := Js.split_on "/" relativePath in
        if (1 <? length parts)%nat
        then Js.join_with "/" (drop_last parts)
        else next
      else next
  end.

End Paths.

(** ** The scanner ([scanner.ts]) *)

(** The four accumulators of a scan. *)
Module Acc.
Record t := mk {
  entries : list ParsedLogEntry;
  errors : list ScanError;
  filesProcessed : nat;
  filesSkipped : nat }.
Definition empty : t := mk [] [] 0%nat 0%nat.
End Acc.

Section Scanner.
Context `{Platform}.

(** [findJSONLFiles(dir)] once [readdir(dir)] has returned [entries]. *)
Fixpoint find_in_entry (dir : string) (entry : Dirent) : list string :=
  match entry with
  | DirentDirectory name listing =>
      let fullPath := path_join dir name in
      match listing with
      | Some entries =>
          (fix walk (entries : list Dirent) : list string :=
             match entries with
             | [] => []
             | e :: rest => find_in_entry fullPath e ++ walk rest
             end) entries
      | None => []
      end
  | DirentFile name =>
      if Js.endsWith name ".jsonl" then [path_join dir name] else []
  | DirentOther _ => []
  end.

Definition find_in_entries (dir : string) (entries : list Dirent) : list string :=
  flat_map (find_in_entry dir) entries.

Definition findJSONLFiles (o : Outside.t) (dir : string) : list string :=
  match Outside.readdir o dir with
  | Some entries => find_in_entries dir entries
  | None => []
  end.

(** The [catch] clause around one file. *)
Definition failed_to_read (filePath message : string) (a : Acc.t) : Acc.t :=
  Acc.mk (Acc.entries a)
    (Acc.errors a ++ [ScanError.mk filePath None ("Failed to read file: " +:+ message)])
    (Acc.filesProcessed a) (S (Acc.filesSkipped a)).

Definition processed (entries : list ParsedLogEntry) (errors : list ScanError)
    (a : Acc.t) : Acc.t :=
  Acc.mk (Acc.entries a ++ entries) (Acc.errors a ++ errors)
    (S (Acc.filesProcessed a)) (Acc.filesSkipped a).

Definition skipped (a : Acc.t) : Acc.t :=
  Acc.mk (Acc.entries a) (Acc.errors a) (Acc.filesProcessed a)
    (S (Acc.filesSkipped a)).

(** One file of the full scan. *)
Definition scan_file (o : Outside.t) (configDirs : list string)
    (filePath : string) (a : Acc.t) : Acc.t :=
  match Outside.stat o filePath with
  | IoError message => failed_to_read filePath message a
  | IoOk fileStat =>
      match Outside.readFile o filePath with
      | IoError message => failed_to_read filePath message a
      | IoOk content =>
          let projectPath := extractProjectPath filePath configDirs in
          let result :=
            parseJSONLContent content filePath projectPath
              (Stats.mtimeMs fileStat) in
          processed (Parsed.entries result) (Parsed.errors result) a
      end
  end.

(** One file of the incremental scan. *)
Definition scan_modified_file (o : Outside.t) (configDirs : list string)
    (processedFiles : gmap string ProcessedFile) (filePath : string)
    (a : Acc.t) : Acc.t :=
  match Outside.stat o filePath with
  | IoError message => failed_to_read filePath message a
  | IoOk fileStat =>
      let processed_ := processedFiles !! filePath in
      let unchanged :=
        match processed_ with
        | Some pf =>
            (Stats.mtimeMs fileStat <=? ProcessedFile.lastModifiedAt pf)
            && (ProcessedFile.lastSize pf =? Stats.size fileStat)
        | None => false
        end in
      if unchanged then skipped a
      else
        match Outside.readFile o filePath with
        | IoError message => failed_to_read filePath message a
        | IoOk content =>
            let projectPath := extractProjectPath filePath configDirs in
            let from_line :=
              match processed_ with
              | Some pf =>
                  if (0 <? ProcessedFile.lastLineCount pf)%nat
                  then Some (ProcessedFile.lastLineCount pf)
                  else None
              | None => None
              end in
            match from_line with
            | Some lastLineCount =>
                let result :=
                  parseJSONLContentFromLine content filePath projectPath
                    (Stats.mtimeMs fileStat) lastLineCount in
                processed (ParsedFrom.entries result) (ParsedFrom.errors result) a
            | None =>
                let result :=
                  parseJSONLContent content filePath projectPath
                    (Stats.mtimeMs fileStat) in
                processed (Parsed.entries result) (Parsed.errors result) a
            end
        end
  end.

(** The two nested loops, over the config directories and over the files
    found below the [projects] directory of each. *)
Definition scan_dirs (o : Outside.t) (configDirs : list string)
    (per_file : string -> Acc.t -> Acc.t) : Acc.t :=
  foldl (fun a configDir =>
           foldl (fun a filePath => per_file filePath a) a
             (findJSONLFiles o (getProjectsDir configDir)))
    Acc.empty configDirs.

Definition scan_result (configDirs : list string) (a : Acc.t) : ScanResult :=
  match configDirs with
  | [] => ScanResult.mk [] 0%nat 0%nat 0%nat [] []
  | _ =>
      ScanResult.mk (Acc.entries a) (Acc.filesProcessed a) (Acc.filesSkipped a)
        (length (Acc.entries a)) (Acc.errors a) configDirs
  end.

Definition scanAllJSONLFiles (o : Outside.t) : ScanResult :=
  let configDirs := getClaudeConfigDirs o in
  scan_result configDirs (scan_dirs o configDirs (scan_file o configDirs)).

Definition scanModifiedFiles (o : Outside.t)
    (processedFiles : gmap string ProcessedFile) : ScanResult :=
  let configDirs := getClaudeConfigDirs o in
  scan_result configDirs
    (scan_dirs o configDirs (scan_modified_file o configDirs processedFiles)).

Definition getFileMetadata (o : Outside.t) (filePath : string)
    : option (Z * Z) :=
  match Outside.stat o filePath with
  | IoOk fileStat => Some (Stats.mtimeMs fileStat, Stats.size fileStat)
  | IoError _ => None
  end.

End Scanner.

(** ** The repository ([claude-logs.repository.ts]) *)

(** The data-changing statements the repository runs. *)
Inductive Statement :=
| InsertEntry (entry : ParsedLogEntry)
| InsertProcessedFile (file : ProcessedFile)
| DeleteEntriesOfFile (filePath : string)
| DeleteProcessedFile (filePath : string).

(** The repository calls of the service, for the record of what was
    persisted in which order. *)
Inductive Call :=
| SaveEntries (entries : list ParsedLogEntry)
| MarkFileProcessed (file : ProcessedFile)
| DeleteEntriesFromFile (filePath : string).

(** Modelled from the spec: the schema of the two tables is not in the
    repository files at hand.  [claude_log_entries] is keyed by [uuid] and
    [claude_processed_files] by [file_path] (the spec's "upsert keyed by
    uuid" and "upsert by filePath"), which is what gives the
    [INSERT OR REPLACE] statements their meaning, and the [timestamp]
    column holds integers (epoch milliseconds).  The rows of
    [claude_log_entries] are kept in insertion order.  [journal] records
    the calls that completed; the program does not read it. *)
Module Repository.
Record t := mk {
  claude_log_entries : list ParsedLogEntry;
  claude_processed_files : gmap string ProcessedFile;
  journal : list Call }.
Definition empty : t := mk [] ∅ [].
End Repository.

(** Whether SQLite refuses a statement (a constraint of the schema, a full
    disk, a locked file), and with which message. *)
Class Storage := {
  statement_error : Statement -> Repository.t -> option string }.

Section RepositoryOps.
Context `{Storage}.

(** [INSERT OR REPLACE INTO claude_log_entries]: a row with the same key
    is removed, the new row is added. *)
Definition insert_or_replace (entry : ParsedLogEntry)
    (rows : list ParsedLogEntry) : list ParsedLogEntry :=
  filter (fun row => Entry.uuid row ≠ Entry.uuid entry) rows ++ [entry].

Definition with_entries (rows : list ParsedLogEntry) (db : Repository.t)
    : Repository.t :=
  Repository.mk rows (Repository.claude_processed_files db)
    (Repository.journal db).

Definition with_processed_files (files : gmap string ProcessedFile)
    (db : Repository.t) : Repository.t :=
  Repository.mk (Repository.claude_log_entries db) files
    (Repository.journal db).

Definition journalled (c : Call) (db : Repository.t) : Repository.t :=
  Repository.mk (Repository.claude_log_entries db)
    (Repository.claude_processed_files db) (Repository.journal db ++ [c]).

(** [insertStmt.run(...)] on one row. *)
Definition run_insert (entry : ParsedLogEntry) (db : Repository.t)
    : Io Repository.t :=
  match statement_error (InsertEntry entry) db with
  | Some message => IoError message
  | None =>
      IoOk (with_entries
              (insert_or_replace entry (Repository.claude_log_entries db)) db)
  end.

(** The body of the transaction: the loop over the batch. *)
Fixpoint run_inserts (entries : list ParsedLogEntry) (db : Repository.t)
    : Io Repository.t :=
  match entries with
  | [] => IoOk db
  | entry :: rest =>
      match run_insert entry db with
      | IoOk db' => run_inserts rest db'
      | IoError message => IoError message
      end
  end.

(** [saveEntries]: [db.transaction] commits when its body returns and
    rolls back when it throws, so an error leaves the caller with the
    repository it had. *)
Definition saveEntries (entries : list ParsedLogEntry) (db : Repository.t)
    : Io Repository.t :=
  match entries with
  | [] => IoOk db
  | _ =>
      match run_inserts entries db with
      | IoOk db' => IoOk (journalled (SaveEntries entries) db')
      | IoError message => IoError message
      end
  end.

(** [saveEntry]: the same statement on one row, outside a transaction. *)
Definition saveEntry (entry : ParsedLogEntry) (db : Repository.t)
    : Io Repository.t :=
  run_insert entry db.

Definition getProcessedFiles (db : Repository.t) : gmap string ProcessedFile :=
  Repository.claude_processed_files db.

Definition markFileProcessed (file : ProcessedFile) (db : Repository.t)
    : Io Repository.t :=
  match statement_error (InsertProcessedFile file) db with
  | Some message => IoError message
  | None =>
      IoOk (journalled (MarkFileProcessed file)
              (with_processed_files
                 (<[ProcessedFile.filePath file := file]>
                    (Repository.claude_processed_files db)) db))
  end.

(** [deleteEntriesFromFile]: two statements, not in a transaction; the
    second component is the repository the caller is left with. *)
Definition deleteEntriesFromFile (filePath : string) (db : Repository.t)
    : option string * Repository.t :=
  match statement_error (DeleteEntriesOfFile filePath) db with
  | Some message => (Some message, db)
  | None =>
      let db1 :=
        with_entries
          (filter (fun row => Entry.filePath row ≠ filePath)
             (Repository.claude_log_entries db)) db in
      match statement_error (DeleteProcessedFile filePath) db1 with
      | Some message => (Some message, db1)
      | None =>
          (None,
           journalled (DeleteEntriesFromFile filePath)
             (with_processed_files
                (delete filePath (Repository.claude_processed_files db1)) db1))
      end
  end.

Definition getTotalEntryCount (db : Repository.t) : nat :=
  length (Repository.claude_log_entries db).

End RepositoryOps.

(** ** The service ([service.ts]): one scan, run to its end *)

(** The in-memory watermark map of the service and the repository it
    writes to. *)
Module World.
Record t := mk {
  processedFiles : gmap string ProcessedFile;
  repository : Repository.t }.
End World.

(** How an [async] method ends, and the state it leaves. *)
Inductive Outcome (A : Type) :=
| Returned (a : A) (w : World.t)
| Thrown (message : string) (w : World.t).
Arguments Returned {A} a w.
Arguments Thrown {A} message w.

Definition final_world {A} (r : Outcome A) : World.t :=
  match r with
  | Returned _ w => w
  | Thrown _ w => w
  end.

(** A [Map<string, number>], in insertion order. *)
Fixpoint map_get (key : string) (m : list (string * nat)) : option nat :=
  match m with
  | [] => None
  | (k, v) :: rest => if String.eqb k key then Some v else map_get key rest
  end.

Fixpoint map_set (key : string) (value : nat) (m : list (string * nat))
    : list (string * nat) :=
  match m with
  | [] => [(key, value)]
  | (k, v) :: rest =>
      if String.eqb k key then (k, value) :: rest
      else (k, v) :: map_set key value rest
  end.

Section Service.
Context `{Platform} `{Storage}.

(** "Group entries by file to get line counts". *)
Definition group_by_file (entries : list ParsedLogEntry) : list (string * nat) :=
  foldl (fun fileEntries entry =>
           let count := default 0%nat (map_get (Entry.filePath entry) fileEntries) in
           map_set (Entry.filePath entry) (count + 1)%nat fileEntries)
    [] entries.

(** The second loop of [updateProcessedFilesFromScan]; [o] is the outside
    world when the loop runs, after the scan and the batch write. *)
Fixpoint update_tracking (o : Outside.t) (fileEntries : list (string * nat))
    (w : World.t) : Outcome unit :=
  match fileEntries with
  | [] => Returned () w
  | (filePath, entryCount) :: rest =>
      match getFileMetadata o filePath with
      | None => update_tracking o rest w
      | Some (modifiedAt, size) =>
          let existing := World.processedFiles w !! filePath in
          let processedFile :=
            ProcessedFile.mk filePath modifiedAt size
              (from_option ProcessedFile.lastLineCount 0%nat existing + entryCount)%nat
              (Outside.Date_now o) in
          let w1 :=
            World.mk (<[filePath := processedFile]> (World.processedFiles w))
              (World.repository w) in
          match markFileProcessed processedFile (World.repository w1) with
          | IoError message => Thrown message w1
          | IoOk db => update_tracking o rest (World.mk (World.processedFiles w1) db)
          end
      end
  end.

Definition updateProcessedFilesFromScan (o : Outside.t) (result : ScanResult)
    (w : World.t) : Outcome unit :=
  update_tracking o (group_by_file (ScanResult.entries result)) w.

(** [if (result.entries.length > 0) await this.repository.saveEntries(...)]. *)
Definition save_if_any (result : ScanResult) (w : World.t) : Outcome unit :=
  if (0 <? length (ScanResult.entries result))%nat then
    match saveEntries (ScanResult.entries result) (World.repository w) with
    | IoError message => Thrown message w
    | IoOk db => Returned () (World.mk (World.processedFiles w) db)
    end
  else Returned () w.

(** [scanAndImport]: [o] is the outside world during the scan, [o'] the
    one after the batch write, when the watermarks are written. *)
Definition scanAndImport (o o' : Outside.t) (w : World.t) : Outcome ScanResult :=
  let result := scanAllJSONLFiles o in
  match save_if_any result w with
  | Thrown message w1 => Thrown message w1
  | Returned _ w1 =>
      match updateProcessedFilesFromScan o' result w1 with
      | Thrown message w2 => Thrown message w2
      | Returned _ w2 => Returned result w2
      end
  end.

Definition incrementalScan (o o' : Outside.t) (w : World.t) : Outcome ScanResult :=
  let result := scanModifiedFiles o (World.processedFiles w) in
  match save_if_any result w with
  | Thrown message w1 => Thrown message w1
  | Returned _ w1 =>
      match updateProcessedFilesFromScan o' result w1 with
      | Thrown message w2 => Thrown message w2
      | Returned _ w2 => Returned result w2
      end
  end.

(** [processModifiedFile], the reaction to a debounced watch event. *)
Definition processModifiedFile (o o' : Outside.t) (filePath : string)
    (w : World.t) : Outcome unit :=
  match getFileMetadata o filePath with
  | None =>
      match deleteEntriesFromFile filePath (World.repository w) with
      | (Some message, db) => Thrown message (World.mk (World.processedFiles w) db)
      | (None, db) =>
          Returned () (World.mk (delete filePath (World.processedFiles w)) db)
      end
  | Some _ =>
      let tempProcessed := delete filePath (World.processedFiles w) in
      let result := scanModifiedFiles o tempProcessed in
      match save_if_any result w with
      | Thrown message w1 => Thrown message w1
      | Returned _ w1 => updateProcessedFilesFromScan o' result w1
      end
  end.

End Service.

(** ** Billing blocks ([getBillingBlockUsage]) *)

(** A row of the billing query, with its two bounds still in milliseconds. *)
Module BlockRow.
Record t := mk {
  blockStart : Z;
  blockEnd : Z;
  inputTokens : number;
  outputTokens : number;
  cacheCreationInputTokens : number;
  cacheReadInputTokens : number;
  totalTokens : number;
  costUsd : number;
  requestCount : nat }.
End BlockRow.

(** [BillingBlockUsage]: the same row with ISO-8601 bounds. *)
Module BillingBlockUsage.
Record t := mk {
  blockStart : string;
  blockEnd : string;
  inputTokens : number;
  outputTokens : number;
  cacheCreationInputTokens : number;
  cacheReadInputTokens : number;
  totalTokens : number;
  costUsd : number;
  requestCount : nat }.
End BillingBlockUsage.

(** [5 * 60 * 60 * 1000]. *)
Definition blockSize : Z := 5 * 60 * 60 * 1000.

(** [/] of SQLite on two integers: the quotient rounded towards zero. *)
Definition sql_div (a b : Z) : Z := Z.quot a b.

(** [(timestamp / blockSize) * blockSize]. *)
Definition blockStart_of (timestamp : Z) : Z :=
  sql_div timestamp blockSize * blockSize.

(** [((timestamp / blockSize) + 1) * blockSize]. *)
Definition blockEnd_of (timestamp : Z) : Z :=
  (sql_div timestamp blockSize + 1) * blockSize.

(** [SUM(column)]. *)
Definition sql_sum (column : ParsedLogEntry -> number)
    (rows : list ParsedLogEntry) : number :=
  foldl (fun total row => (total + column row)%Q) 0%Q rows.

(** [WHERE 1=1 AND timestamp >= ? AND timestamp <= ?], each bound applied
    when the argument is given and is not zero. *)
Definition in_range (startTime endTime : option Z) (row : ParsedLogEntry) : bool :=
  match startTime with
  | Some t => if t =? 0 then true else t <=? Entry.timestamp row
  | None => true
  end
  &&
  match endTime with
  | Some t => if t =? 0 then true else Entry.timestamp row <=? t
  | None => true
  end.

(** The keys of [GROUP BY blockStart ORDER BY blockStart DESC]: each value
    once, the greatest first. *)
Fixpoint insert_desc (key : Z) (keys : list Z) : list Z :=
  match keys with
  | [] => [key]
  | k :: rest =>
      if k <? key then key :: keys
      else if k =? key then keys
      else k :: insert_desc key rest
  end.

Definition group_keys (rows : list ParsedLogEntry) : list Z :=
  foldr (fun row keys => insert_desc (blockStart_of (Entry.timestamp row)) keys)
    [] rows.

(** The rows of one group. *)
Definition group_of (key : Z) (rows : list ParsedLogEntry) : list ParsedLogEntry :=
  filter (fun row => blockStart_of (Entry.timestamp row) = key) rows.

(** The select list on one group.  [blockEnd] is not an aggregate: SQLite
    takes it from a row of the group, and all rows of a group agree on it. *)
Definition aggregate (key : Z) (group : list ParsedLogEntry) : BlockRow.t :=
  BlockRow.mk key
    (from_option (fun row => blockEnd_of (Entry.timestamp row))
       (key + blockSize) (head group))
    (sql_sum Entry.inputTokens group)
    (sql_sum Entry.outputTokens group)
    (sql_sum Entry.cacheCreationInputTokens group)
    (sql_sum Entry.cacheReadInputTokens group)
    (sql_sum Entry.totalTokens group)
    (sql_sum Entry.costUsd group)
    (length group).

(** The query of [getBillingBlockUsage]. *)
Definition billing_query (db : Repository.t) (startTime endTime : option Z)
    : list BlockRow.t :=
  let selected :=
    filter (fun row => in_range startTime endTime row = true)
      (Repository.claude_log_entries db) in
  map (fun key => aggregate key (group_of key selected)) (group_keys selected).

Section Billing.
Context `{Platform}.

Definition getBillingBlockUsage (db : Repository.t) (startTime endTime : option Z)
    : list BillingBlockUsage.t :=
  map (fun b =>
         BillingBlockUsage.mk
           (Date_toISOString (BlockRow.blockStart b))
           (Date_toISOString (BlockRow.blockEnd b))
           (BlockRow.inputTokens b) (BlockRow.outputTokens b)
           (BlockRow.cacheCreationInputTokens b)
           (BlockRow.cacheReadInputTokens b)
           (BlockRow.totalTokens b) (BlockRow.costUsd b)
           (BlockRow.requestCount b))
    (billing_query db startTime endTime).

End Billing.

(** ** A reference platform

    An executable instance of [Platform] for the examples: a reader for
    JSON texts (without unicode escapes), the ISO-8601 UTC date format
    that [toISOString] writes, and [path.join] on paths that need no
    normalisation.  A text outside of these subsets counts as a syntax
    error, or as an invalid date. *)

Module Reference.

#[warnings="-register-all"]
Inductive Json :=
| JNull
| JBool (b : bool)
| JNumber (q : Q)
| JString (s : string)
| JArray (items : list Json)
| JObject (members : list (string * Json)).

Definition quote : ascii := ascii_of_nat 34.
Definition backslash : ascii := ascii_of_nat 92.

Definition is_json_space (c : ascii) : bool :=
  let n := nat_of_ascii c in
  (n =? 32)%nat || (n =? 9)%nat || (n =? 10)%nat || (n =? 13)%nat.

Fixpoint skip_space (s : string) : string :=
  match s with
  | String c s' => if is_json_space c then skip_space s' else s
  | EmptyString => s
  end.

Definition digit_of (c : ascii) : option Z :=
  let n := nat_of_ascii c in
  if (48 <=? n)%nat && (n <=? 57)%nat then Some (Z.of_nat n - 48) else None.

(** The digits at the head of [s]: their value after [acc], how many there
    are, and the rest. *)
Fixpoint read_digits (s : string) (acc : Z) (count : nat) : Z * nat * string :=
  match s with
  | String c s' =>
      match digit_of c with
      | Some d => read_digits s' (acc * 10 + d) (S count)
      | None => (acc, count, s)
      end
  | EmptyString => (acc, count, s)
  end.

Definition expect (word s : string) : option string :=
  if String.prefix word s then Some (Js.substring_from (String.length word) s)
  else None.

Definition pow10 (n : Z) : Q :=
  if 0 <=? n then inject_Z (10 ^ n) else (1 / inject_Z (10 ^ (- n)))%Q.

(** The sign and digits of an exponent, after its letter. *)
Definition read_exponent (s : string) : option (Z * string) :=
  let '(sign, s1) :=
    match s with
    | String "-" t => (-1, t)
    | String "+" t => (1, t)
    | _ => (1, s)
    end in
  let '(e, n_exp, s2) := read_digits s1 0 0 in
  if (n_exp =? 0)%nat then None else Some (sign * e, s2).

(** [-? digits (. digits)? ((e|E) (+|-)? digits)?], without a leading zero
    before another digit. *)
Definition read_number (s : string) : option (Q * string) :=
  let '(negative, s1) :=
    match s with
    | String "-" t => (true, t)
    | _ => (false, s)
    end in
  let '(int, n_int, s2) := read_digits s1 0 0 in
  let leading_zero :=
    match s1 with
    | String "0" _ => (1 <? n_int)%nat
    | _ => false
    end in
  if (n_int =? 0)%nat || leading_zero then None
  else
    let fraction :=
      match s2 with
      | String "." t =>
          let '(m, n_frac, s3) := read_digits t int 0 in
          if (n_frac =? 0)%nat then None else Some (m, Z.of_nat n_frac, s3)
      | _ => Some (int, 0, s2)
      end in
    match fraction with
    | None => None
    | Some (mantissa, scale, s3) =>
        let exponent :=
          match s3 with
          | String c t =>
              if Ascii.eqb c "e" || Ascii.eqb c "E" then read_exponent t
              else Some (0, s3)
          | EmptyString => Some (0, s3)
          end in
        match exponent with
        | None => None
        | Some (exponent, s4) =>
            let magnitude := (inject_Z mantissa * pow10 (exponent - scale))%Q in
            Some (Qred (if negative then - magnitude else magnitude)%Q, s4)
        end
    end.

Definition unescape (e : ascii) : option ascii :=
  if Ascii.eqb e quote then Some quote
  else if Ascii.eqb e backslash then Some backslash
  else if Ascii.eqb e "/" then Some "/"%char
  else if Ascii.eqb e "b" then Some (ascii_of_nat 8)
  else if Ascii.eqb e "f" then Some (ascii_of_nat 12)
  else if Ascii.eqb e "n" then Some (ascii_of_nat 10)
  else if Ascii.eqb e "r" then Some (ascii_of_nat 13)
  else if Ascii.eqb e "t" then Some (ascii_of_nat 9)
  else None.

(** The characters of a string literal after its opening quote. *)
Fixpoint read_string (s : string) : option (string * string) :=
  match s with
  | EmptyString => None
  | String c s' =>
      if Ascii.eqb c quote then Some (EmptyString, s')
      else if Ascii.eqb c backslash then
        match s' with
        | String e s'' =>
            match unescape e, read_string s'' with
            | Some u, Some (body, rest) => Some (String u body, rest)
            | _, _ => None
            end
        | EmptyString => None
        end
      else if (nat_of_ascii c <? 32)%nat then None
      else
        match read_string s' with
        | Some (body, rest) => Some (String c body, rest)
        | None => None
        end
  end.

(** One JSON value at the head of [s] (after white space), and the rest.
    Every nested value costs one unit of [fuel]; a text of [n] characters
    needs less than [n + 1]. *)
Fixpoint read_value (fuel : nat) (s : string) : option (Json * string) :=
  match fuel with
  | O => None
  | S fuel' =>
      let read_items :=
        fix read_items (count : nat) (s : string) : option (list Json * string) :=
          match count with
          | O => None
          | S count' =>
              match read_value fuel' s with
              | None => None
              | Some (item, rest) =>
                  match skip_space rest with
                  | String "," rest' =>
                      match read_items count' rest' with
                      | Some (items, rest'') => Some (item :: items, rest'')
                      | None => None
                      end
                  | String "]" rest' => Some ([item], rest')
                  | _ => None
                  end
              end
          end in
      let read_members :=
        fix read_members (count : nat) (s : string)
            : option (list (string * Json) * string) :=
          match count with
          | O => None
          | S count' =>
              match skip_space s with
              | String c s1 =>
                  if Ascii.eqb c quote then
                    match read_string s1 with
                    | None => None
                    | Some (key, s2) =>
                        match skip_space s2 with
                        | String ":" s3 =>
                            match read_value fuel' s3 with
                            | None => None
                            | Some (value, s4) =>
                                match skip_space s4 with
                                | String "," s5 =>
                                    match read_members count' s5 with
                                    | Some (members, s6) =>
                                        Some ((key, value) :: members, s6)
                                    | None => None
                                    end
                                | String "}" s5 => Some ([(key, value)], s5)
                                | _ => None
                                end
                            end
                        | _ => None
                        end
                    end
                  else None
              | EmptyString => None
              end
          end in
      match skip_space s with
      | EmptyString => None
      | String c s' =>
          if Ascii.eqb c quote then
            match read_string s' with
            | Some (body, rest) => Some (JString body, rest)
            | None => None
            end
          else if Ascii.eqb c "[" then
            match skip_space s' with
            | String "]" rest => Some (JArray [], rest)
            | _ =>
                match read_items (String.length s') s' with
                | Some (items, rest) => Some (JArray items, rest)
                | None => None
                end
            end
          else if Ascii.eqb c "{" then
            match skip_space s' with
            | String "}" rest => Some (JObject [], rest)
            | _ =>
                match read_members (String.length s') s' with
                | Some (members, rest) => Some (JObject members, rest)
                | None => None
                end
            end
          else if Ascii.eqb c "n" then
            option_map (fun rest => (JNull, rest)) (expect "null" (String c s'))
          else if Ascii.eqb c "t" then
            option_map (fun rest => (JBool true, rest)) (expect "true" (String c s'))
          else if Ascii.eqb c "f" then
            option_map (fun rest => (JBool false, rest)) (expect "false" (String c s'))
          else
            match read_number (String c s') with
            | Some (q, rest) => Some (JNumber q, rest)
            | None => None
            end
      end
  end.

(** A whole text: one value and nothing but white space after it. *)
Definition read_json (text : string) : option Json :=
  match read_value (S (String.length text)) text with
  | Some (value, rest) =>
      match skip_space rest with
      | EmptyString => Some value
      | _ => None
      end
  | None => None
  end.

(** [object.key]: the last member of that name. *)
Fixpoint member (key : string) (members : list (string * Json)) : option Json :=
  match members with
  | [] => None
  | (k, v) :: rest =>
      match member key rest with
      | Some later => Some later
      | None => if String.eqb k key then Some v else None
      end
  end.

Definition property (key : string) (value : Json) : option Json :=
  match value with
  | JObject members => member key members
  | _ => None
  end.

(** Reading a property at the type [RawLogEntry] declares for it; [null]
    and a value of another type are read as missing. *)
Definition string_property (key : string) (value : Json) : option string :=
  match property key value with
  | Some (JString s) => Some s
  | _ => None
  end.

Definition number_property (key : string) (value : Json) : option number :=
  match property key value with
  | Some (JNumber q) => Some q
  | _ => None
  end.

Definition as_usage (value : Json) : Raw.Usage :=
  Raw.mkUsage
    (number_property "input_tokens" value)
    (number_property "output_tokens" value)
    (number_property "cache_creation_input_tokens" value)
    (number_property "cache_read_input_tokens" value).

Definition as_message (value : Json) : Raw.Message :=
  Raw.mkMessage
    (string_property "role" value)
    (string_property "model" value)
    (match property "usage" value with
     | Some (JObject members) => Some (as_usage (JObject members))
     | _ => None
     end).

Definition as_RawLogEntry (value : Json) : Raw.LogEntry :=
  Raw.mkLogEntry
    (string_property "uuid" value)
    (string_property "sessionId" value)
    (string_property "timestamp" value)
    (match property "message" value with
     | Some (JObject members) => Some (as_message (JObject members))
     | _ => None
     end)
    (number_property "costUSD" value)
    (string_property "gitBranch" value)
    (string_property "cwd" value).

Definition json_parse (text : string) : JSON_result :=
  match read_json text with
  | None => JSON_throws "Unexpected token in JSON"
  | Some JNull => JSON_null
  | Some value => JSON_value (as_RawLogEntry value)
  end.

(** Days from 1970-01-01 to a date of the proleptic Gregorian calendar. *)
Definition days_from_civil (y m d : Z) : Z :=
  let y' := if m <=? 2 then y - 1 else y in
  let era := y' / 400 in
  let yoe := y' - era * 400 in
  let mp := if 2 <? m then m - 3 else m + 9 in
  let doy := (153 * mp + 2) / 5 + d - 1 in
  let doe := yoe * 365 + yoe / 4 - yoe / 100 + doy in
  era * 146097 + doe - 719468.

(** The date of a day number: year, month, day. *)
Definition civil_from_days (days : Z) : Z * Z * Z :=
  let z := days + 719468 in
  let era := z / 146097 in
  let doe := z - era * 146097 in
  let yoe := (doe - doe / 1460 + doe / 36524 - doe / 146096) / 365 in
  let doy := doe - (365 * yoe + yoe / 4 - yoe / 100) in
  let mp := (5 * doy + 2) / 153 in
  let d := doy - (153 * mp + 2) / 5 + 1 in
  let m := if mp <? 10 then mp + 3 else mp - 9 in
  let y := yoe + era * 400 in
  (if m <=? 2 then y + 1 else y, m, d).

Definition is_leap (y : Z) : bool :=
  ((y mod 4 =? 0) && negb (y mod 100 =? 0)) || (y mod 400 =? 0).

Definition days_in_month (y m : Z) : Z :=
  if m =? 2 then (if is_leap y then 29 else 28)
  else if (m =? 4) || (m =? 6) || (m =? 9) || (m =? 11) then 30
  else 31.

(** Exactly [count] digits at the head of [s]. *)
Definition read_fixed (count : nat) (s : string) : option (Z * string) :=
  let '(value, n, rest) := read_digits s 0 0 in
  if (n =? count)%nat then Some (value, rest) else None.

(** [YYYY-MM-DD] or [YYYY-MM-DDTHH:mm:ss(.sss)Z]. *)
Definition date_getTime (text : string) : option Z :=
  y ← read_fixed 4 text;
  s1 ← expect "-" y.2;
  m ← read_fixed 2 s1;
  s2 ← expect "-" m.2;
  d ← read_fixed 2 s2;
  let '(y, m, d, s3) := (y.1, m.1, d.1, d.2) in
  if negb ((1 <=? m) && (m <=? 12) && (1 <=? d) && (d <=? days_in_month y m))
  then None
  else
    let day_ms := days_from_civil y m d * 86400000 in
    match s3 with
    | EmptyString => Some day_ms
    | _ =>
        s4 ← expect "T" s3;
        hh ← read_fixed 2 s4;
        s5 ← expect ":" hh.2;
        mm ← read_fixed 2 s5;
        s6 ← expect ":" mm.2;
        ss ← read_fixed 2 s6;
        ms ← match ss.2 with
             | String "." t => read_fixed 3 t
             | t => Some (0, t)
             end;
        if (hh.1 <=? 23) && (mm.1 <=? 59) && (ss.1 <=? 59)
           && String.eqb ms.2 "Z"
        then Some (day_ms + hh.1 * 3600000 + mm.1 * 60000 + ss.1 * 1000 + ms.1)
        else None
    end.

Definition digit_char (d : Z) : ascii := ascii_of_nat (48 + Z.to_nat d).

(** [n] written with [width] digits, zero-padded. *)
Fixpoint pad_digits (width : nat) (n : Z) (suffix : string) : string :=
  match width with
  | O => suffix
  | S width' => pad_digits width' (n / 10) (String (digit_char (n mod 10)) suffix)
  end.

(** [toISOString], for the years 0 to 9999. *)
Definition date_toISOString (ms : Z) : string :=
  let days := ms / 86400000 in
  let rest := ms mod 86400000 in
  let '(y, m, d) := civil_from_days days in
  pad_digits 4 y
    ("-" +:+ pad_digits 2 m
       ("-" +:+ pad_digits 2 d
          ("T" +:+ pad_digits 2 (rest / 3600000)
             (":" +:+ pad_digits 2 (rest / 60000 mod 60)
                (":" +:+ pad_digits 2 (rest / 1000 mod 60)
                   ("." +:+ pad_digits 3 (rest mod 1000) "Z")))))).

(** [path.join(a, b)] when neither part needs normalising. *)
Definition join (a b : string) : string :=
  if Js.endsWith a "/" then a +:+ b else a +:+ "/" +:+ b.

Definition platform : Platform := {|
  JSON_parse := json_parse;
  null_access_message := "null is not an object (evaluating 'raw.uuid')";
  Date_getTime := date_getTime;
  Date_toISOString := date_toISOString;
  path_join := join |}.

(** [s] between quotes. *)
Definition quoted (s : string) : string :=
  String quote (s +:+ String quote EmptyString).

(** A record as the logging tool writes it, with two of the token
    counters and the cost, given as numerals. *)
Definition record_line (uuid sessionId timestamp input output cost : string)
    : string :=
  "{" +:+ quoted "uuid" +:+ ":" +:+ quoted uuid
  +:+ "," +:+ quoted "sessionId" +:+ ":" +:+ quoted sessionId
  +:+ "," +:+ quoted "timestamp" +:+ ":" +:+ quoted timestamp
  +:+ "," +:+ quoted "message" +:+ ":{" +:+ quoted "role" +:+ ":" +:+ quoted "assistant"
  +:+ "," +:+ quoted "usage" +:+ ":{" +:+ quoted "input_tokens" +:+ ":" +:+ input
  +:+ "," +:+ quoted "output_tokens" +:+ ":" +:+ output +:+ "}}"
  +:+ "," +:+ quoted "costUSD" +:+ ":" +:+ cost +:+ "}".

(** A disk with one config directory, the legacy one, and one log file
    in it, next to a file that is not a log. *)
Definition log_path : string := "/home/u/.claude/projects/app/s.jsonl".

Definition no_such_file {A} : Io A := IoError "ENOENT: no such file or directory".

Definition disk (mtimeMs : Z) (content : string) (now : Z) : Outside.t :=
  Outside.mk None "/home/u"
    (fun p => String.eqb p "/home/u/.claude")
    (fun dir =>
       if String.eqb dir "/home/u/.claude/projects"
       then Some [DirentDirectory "app"
                    (Some [DirentFile "s.jsonl"; DirentFile "notes.txt"])]
       else None)
    (fun p =>
       if String.eqb p log_path
       then IoOk (Stats.mk mtimeMs (Z.of_nat (String.length content)))
       else no_such_file)
    (fun p => if String.eqb p log_path then IoOk content else no_such_file)
    now.

(** A storage that refuses every insertion of a log entry. *)
Definition full_disk : Storage := {|
  statement_error := fun statement _ =>
    match statement with
    | InsertEntry _ => Some "database or disk is full"
    | _ => None
    end |}.

(** A storage that accepts every statement. *)
Definition storage : Storage := {| statement_error := fun _ _ => None |}.

End Reference.

(** ** The service under its triggers

    An [async] method runs from one [await] to the next without
    interruption, and any other call may run in between.  A call in flight
    is a [Task]: the method and the [await] it is suspended at.  The
    scanner, the batch write and the watermark loop are each taken as one
    uninterrupted stretch. *)

(** [ClaudeLogsServiceOptions]: every option can be left out. *)
Module OptionsArg.
Record t := mk {
  watchEnabled : option bool;
  scanOnStartup : option bool;
  scanIntervalMs : option Z }.
Definition none : t := mk None None None.
End OptionsArg.

(** [Required<ClaudeLogsServiceOptions>]. *)
Module Options.
Record t := mk {
  watchEnabled : bool;
  scanOnStartup : bool;
  scanIntervalMs : Z }.
End Options.

Definition DEFAULT_SCAN_INTERVAL_MS : Z := 60000.

(** [{ ...this.options, ...options }]. *)
Definition merge_options (current : Options.t) (given : OptionsArg.t) : Options.t :=
  Options.mk
    (default (Options.watchEnabled current) (OptionsArg.watchEnabled given))
    (default (Options.scanOnStartup current) (OptionsArg.scanOnStartup given))
    (default (Options.scanIntervalMs current) (OptionsArg.scanIntervalMs given)).

Inductive Method :=
| M_initialize
| M_scanAndImport
| M_incrementalScan
| M_processModifiedFile (filePath : string).

(** The [await] a call is suspended at. *)
Inductive Point :=
| AtLoad                                   (* [getProcessedFiles()] *)
| AtMetadata                               (* [getFileMetadata(filePath)] *)
| AtScan                                   (* the scanner, on the live map *)
| AtScanWith (tempProcessed : gmap string ProcessedFile)
| AtSave (result : ScanResult)             (* [saveEntries], when there are entries *)
| AtUpdate (result : ScanResult).          (* [updateProcessedFilesFromScan] *)

Module Task.
Record t := mk { method : Method; point : Point }.
End Task.

Module Service.
Record t := mk {
  world : World.t;
  options : Options.t;
  initialized : bool;
  (** whether [scanIntervalTimer] is set *)
  scanIntervalTimer : bool;
  (** [watcher.watching] *)
  watching : bool;
  (** the calls in flight *)
  tasks : list Task.t }.

(** [new ClaudeLogsService(repository)]. *)
Definition create (db : Repository.t) : t :=
  mk (World.mk ∅ db) (Options.mk false true DEFAULT_SCAN_INTERVAL_MS)
    false false false [].
End Service.

(** What can happen to the service: a call of one of its public methods
    ([scanAndImport] is the manual scan of the HTTP API; [startWatching]
    reads the config directories of the outside world as it is then; the
    getter [isWatching] changes nothing and is left out), the interval
    timer firing, the watcher emitting a debounced event, and a suspended
    call going on, with the outside world as it is then. *)
Inductive Event :=
| Call_initialize (options : OptionsArg.t)
| Call_scanAndImport
| Call_incrementalScan
| Call_startWatching (o : Outside.t)
| Call_stopWatching
| Call_dispose
| Timer_fires
| File_changed (filePath : string)
| Resume (index : nat) (o : Outside.t).

(** A scan has started and has not ended. *)
Definition is_scanning (task : Task.t) : bool :=
  match Task.point task with
  | AtLoad | AtMetadata => false
  | AtScan | AtScanWith _ | AtSave _ | AtUpdate _ => true
  end.

Definition scans_in_flight (s : Service.t) : nat :=
  length (filter (fun task => is_scanning task = true) (Service.tasks s)).

Definition with_world (w : World.t) (s : Service.t) : Service.t :=
  Service.mk w (Service.options s) (Service.initialized s)
    (Service.scanIntervalTimer s) (Service.watching s) (Service.tasks s).

Definition with_tasks (tasks : list Task.t) (s : Service.t) : Service.t :=
  Service.mk (Service.world s) (Service.options s) (Service.initialized s)
    (Service.scanIntervalTimer s) (Service.watching s) tasks.

Definition spawn (method : Method) (point : Point) (s : Service.t) : Service.t :=
  with_tasks (Service.tasks s ++ [Task.mk method point]) s.

Section Triggers.
Context `{Platform} `{Storage}.

(** The end of [initialize], after the startup scan: [startWatching] (the
    watcher stays idle when there is no config directory),
    [startPeriodicScan], [initialized = true]. *)
Definition finish_initialize (o : Outside.t) (s : Service.t) : Service.t :=
  let opts := Service.options s in
  Service.mk (Service.world s) opts true
    (Service.scanIntervalTimer s || (0 <? Options.scanIntervalMs opts))
    (Service.watching s
     || (Options.watchEnabled opts
         && negb (bool_decide (getClaudeConfigDirs o = []))))
    (Service.tasks s).

(** What the end of a call does besides leaving the list of tasks. *)
Definition on_return (method : Method) (o : Outside.t) (s : Service.t) : Service.t :=
  match method with
  | M_initialize => finish_initialize o s
  | _ => s
  end.

(** The task at [index] runs to its next [await], or to its end. *)
Definition resume (index : nat) (o : Outside.t) (s : Service.t) : Service.t :=
  match Service.tasks s !! index with
  | None => s
  | Some task =>
      let method := Task.method task in
      let w := Service.world s in
      let suspend point s := with_tasks (<[index := Task.mk method point]> (Service.tasks s)) s in
      let leave s := with_tasks (delete index (Service.tasks s)) s in
      match Task.point task with
      | AtLoad =>
          let w' := World.mk (getProcessedFiles (World.repository w)) (World.repository w) in
          if Options.scanOnStartup (Service.options s)
          then suspend AtScan (with_world w' s)
          else on_return method o (leave (with_world w' s))
      | AtMetadata =>
          match method with
          | M_processModifiedFile filePath =>
              match getFileMetadata o filePath with
              | None =>
                  match deleteEntriesFromFile filePath (World.repository w) with
                  | (Some _, db) => leave (with_world (World.mk (World.processedFiles w) db) s)
                  | (None, db) =>
                      leave (with_world (World.mk (delete filePath (World.processedFiles w)) db) s)
                  end
              | Some _ => suspend (AtScanWith (delete filePath (World.processedFiles w))) s
              end
          | _ => leave s
          end
      | AtScan =>
          match method with
          | M_incrementalScan =>
              suspend (AtSave (scanModifiedFiles o (World.processedFiles w))) s
          | _ => suspend (AtSave (scanAllJSONLFiles o)) s
          end
      | AtScanWith tempProcessed =>
          suspend (AtSave (scanModifiedFiles o tempProcessed)) s
      | AtSave result =>
          match save_if_any result w with
          | Thrown _ w' => leave (with_world w' s)
          | Returned _ w' => suspend (AtUpdate result) (with_world w' s)
          end
      | AtUpdate result =>
          match updateProcessedFilesFromScan o result w with
          | Thrown _ w' => leave (with_world w' s)
          | Returned _ w' => on_return method o (leave (with_world w' s))
          end
      end
  end.

Definition step (s : Service.t) (e : Event) : Service.t :=
  match e with
  | Call_initialize given =>
      if Service.initialized s then s
      else
        spawn M_initialize AtLoad
          (Service.mk (Service.world s) (merge_options (Service.options s) given)
             (Service.initialized s) (Service.scanIntervalTimer s)
             (Service.watching s) (Service.tasks s))
  | Call_scanAndImport => spawn M_scanAndImport AtScan s
  | Call_incrementalScan => spawn M_incrementalScan AtScan s
  | Call_startWatching o =>
      (* [if (this.watcher.watching) return; this.watcher.start()]: the
         watcher stays idle when there is no config directory *)
      Service.mk (Service.world s) (Service.options s) (Service.initialized s)
        (Service.scanIntervalTimer s)
        (Service.watching s || negb (bool_decide (getClaudeConfigDirs o = [])))
        (Service.tasks s)
  | Call_stopWatching =>
      Service.mk (Service.world s) (Service.options s) (Service.initialized s)
        (Service.scanIntervalTimer s) false (Service.tasks s)
  | Call_dispose =>
      Service.mk (Service.world s) (Service.options s) false false false
        (Service.tasks s)
  | Timer_fires =>
      if Service.scanIntervalTimer s then spawn M_incrementalScan AtScan s else s
  | File_changed filePath =>
      if Service.watching s then spawn (M_processModifiedFile filePath) AtMetadata s
      else s
  | Resume index o => resume index o s
  end.

Definition run (events : list Event) (s : Service.t) : Service.t :=
  foldl step s events.

End Triggers.

(** ** Vocabulary of the properties *)

(** The entries of a scan that come from one file, and the watermark the
    service writes for a file with [count] new entries, given what [stat]
    says after the scan. *)
Definition entries_of_file (filePath : string) (entries : list ParsedLogEntry)
    : list ParsedLogEntry :=
  filter (fun e => Entry.filePath e = filePath) entries.

Definition advanced (o : Outside.t) (before : gmap string ProcessedFile)
    (filePath : string) (count : nat) : option ProcessedFile :=
  match getFileMetadata o filePath with
  | Some (modifiedAt, size) =>
      Some (ProcessedFile.mk filePath modifiedAt size
              (from_option ProcessedFile.lastLineCount 0%nat (before !! filePath) + count)%nat
              (Outside.Date_now o))
  | None => None
  end.

(** What a table of watermarks holds for a file after the loop over a
    grouping: the new watermark if one is written, else what it held. *)
Definition after_update (o : Outside.t) (before : gmap string ProcessedFile)
    (fileEntries : list (string * nat)) (table : gmap string ProcessedFile)
    (filePath : string) : option ProcessedFile :=
  match map_get filePath fileEntries ≫= advanced o before filePath with
  | Some file => Some file
  | None => table !! filePath
  end.

(** The files of a grouping whose watermark is written, in order. *)
Definition advanced_files (o : Outside.t) (before : gmap string ProcessedFile)
    (fileEntries : list (string * nat)) : list ProcessedFile :=
  omap (fun '(filePath, count) => advanced o before filePath count) fileEntries.

Section Vocabulary.
Context `{Platform}.

(** The outcomes of the lines, each parsed on its own with its 1-based
    number. *)
Definition line_outcomes (first : nat) (lines : list string)
    (filePath projectPath : string) (fileModifiedAt : Z) : list ParseOutcome.t :=
  imap (fun k l => parseLine l filePath projectPath fileModifiedAt
                     (Some (first + k + 1)%nat)) lines.

(** A line that is not blank and is not a record: its text is not JSON,
    it is the JSON [null], or a required field is missing, empty or, for
    the timestamp, not a date. *)
Definition malformed (line : string) : Prop :=
  Js.trim line ≠ EmptyString ∧
  match JSON_parse (Js.trim line) with
  | JSON_throws _ => True
  | JSON_null => True
  | JSON_value raw =>
      Js.falsy_string (Raw.uuid raw) = true
      ∨ Js.falsy_string (Raw.sessionId raw) = true
      ∨ Js.falsy_string (Raw.timestamp raw) = true
      ∨ ∃ text, Raw.timestamp raw = Some text ∧ Date_getTime text = None
  end.

(** The watermarks after a scan that found [found], as the service keeps
    them: a file with new entries whose metadata can still be read has its
    watermark at that metadata and at its earlier count plus the number of
    new entries, in memory and in the table, by a [markFileProcessed] of
    the journal; a file without new entry has the watermark it had. *)
Definition watermarks_follow (o' : Outside.t) (w : World.t)
    (found : list ParsedLogEntry) (w' : World.t) : Prop :=
  ∀ filePath : string,
    (entries_of_file filePath found ≠ [] →
     ∀ modifiedAt size, getFileMetadata o' filePath = Some (modifiedAt, size) →
       let file :=
         ProcessedFile.mk filePath modifiedAt size
           (from_option ProcessedFile.lastLineCount 0%nat
              (World.processedFiles w !! filePath)
            + length (entries_of_file filePath found))%nat
           (Outside.Date_now o') in
       World.processedFiles w' !! filePath = Some file
       ∧ Repository.claude_processed_files (World.repository w') !! filePath = Some file
       ∧ MarkFileProcessed file ∈ Repository.journal (World.repository w'))
    ∧ (entries_of_file filePath found = [] →
       World.processedFiles w' !! filePath = World.processedFiles w !! filePath
       ∧ Repository.claude_processed_files (World.repository w') !! filePath
         = Repository.claude_processed_files (World.repository w) !! filePath).

(** What a scan that found [found] may add to the journal: the batch
    write of what it found, then watermarks of files that have entries in
    that batch, and no watermark without the batch write before it. *)
Definition entries_before_watermarks (before after : list Call)
    (found : list ParsedLogEntry) : Prop :=
  ∃ saved marks,
    after = before ++ saved ++ map MarkFileProcessed marks
    ∧ (saved = [] ∨ saved = [SaveEntries found])
    ∧ (saved = [] → marks = [])
    ∧ Forall (fun file => entries_of_file (ProcessedFile.filePath file) found ≠ [])
        marks.



(** The files a scan visits, in order: those found below the [projects]
    directory of each config directory. *)
Definition discovered (o : Outside.t) : list string :=
  flat_map (fun configDir => findJSONLFiles o (getProjectsDir configDir))
    (getClaudeConfigDirs o).

(** The rows of a table, or the entries of a batch, with a given [uuid],
    and the last one of them. *)
Definition rows_with_uuid (uuid : string) (rows : list ParsedLogEntry)
    : list ParsedLogEntry :=
  filter (fun row => Entry.uuid row = uuid) rows.

Definition last_with_uuid (uuid : string) (batch : list ParsedLogEntry)
    : option ParsedLogEntry :=
  last (rows_with_uuid uuid batch).

(** The override paths of the environment: the pieces of
    [CLAUDE_CONFIG_DIR] between commas, trimmed, the empty ones left out. *)
Definition override_paths (o : Outside.t) : list string :=
  match Js.or_null (Outside.CLAUDE_CONFIG_DIR o) with
  | Some envDirs =>
      filter (fun p => p ≠ EmptyString) (map Js.trim (Js.split_on "," envDirs))
  | None => []
  end.

(** The two conventional locations, [~/.claude] and [~/.config/claude]. *)
Definition fallback_paths (o : Outside.t) : list string :=
  [path_join (Outside.homedir o) ".claude";
   path_join (path_join (Outside.homedir o) ".config") "claude"].

(** The events of a start-up: one call of [initialize] at most, and no
    call of [scanAndImport], [incrementalScan], [startWatching] or
    [dispose]. *)
Definition is_Call_initialize (e : Event) : bool :=
  match e with
  | Call_initialize _ => true
  | _ => false
  end.

Definition startup_event (e : Event) : bool :=
  match e with
  | Call_scanAndImport | Call_incrementalScan | Call_startWatching _
  | Call_dispose => false
  | _ => true
  end.

Definition startup_events (events : list Event) : Prop :=
  Forall (fun e => startup_event e = true) events
  ∧ (length (filter (fun e => is_Call_initialize e = true) events) ≤ 1)%nat.

(** The state of a service that is starting: not initialized, timer and
    watcher idle, and nothing in flight but its call of [initialize]. *)
Definition starting (called : bool) (s : Service.t) : Prop :=
  Service.initialized s = false
  ∧ Service.scanIntervalTimer s = false
  ∧ Service.watching s = false
  ∧ (Service.tasks s = []
     ∨ (called = true ∧ ∃ point, Service.tasks s = [Task.mk M_initialize point])).

(** The token total of an entry is the sum of its four counters, added in
    the order of the source. *)
Definition total_is_sum (e : ParsedLogEntry) : Prop :=
  Entry.totalTokens e =
    (Entry.inputTokens e + Entry.outputTokens e
     + Entry.cacheCreationInputTokens e + Entry.cacheReadInputTokens e)%Q.

End Vocabulary.

(** ** The watcher ([watcher.ts]) *)

Definition DEBOUNCE_MS : Z := 500.

(** The event types of [fs.watch]. *)
Inductive RawEventType :=
| Rename
| Change.

(** [FileWatchEvent]. *)
Inductive FileWatchEvent :=
| Created
| Modified
| Deleted.

(** [FileWatchEventData]. *)
Module FileWatchEventData.
Record t := mk {
  type : FileWatchEvent;
  filePath : string;
  timestamp : Z }.
End FileWatchEventData.

(** [ClaudeLogWatcher].  An [FSWatcher] is known by the directory it
    watches; a callback by its position in [callbacks], of which the
    number is kept; a pending debounce timer by the time it is due at and
    the event type its closure holds.  [delivered] records the calls of
    the callbacks, in order; the program does not read it. *)
Module Watcher.
Record t := mk {
  watchers : list string;
  callbacks : nat;
  debounceTimers : gmap string (Z * RawEventType);
  isWatching : bool;
  delivered : list (nat * FileWatchEventData.t) }.

(** [new ClaudeLogWatcher()]. *)
Definition create : t := mk [] 0 ∅ false [].

Definition onFileChange (w : t) : t :=
  mk (watchers w) (S (callbacks w)) (debounceTimers w) (isWatching w) (delivered w).

Definition stop (w : t) : t :=
  mk [] (callbacks w) ∅ false (delivered w).

(** [emitEvent] at the time [now]: both event types become ["modified"],
    and every callback is called with the event. *)
Definition emitEvent (eventType : RawEventType) (filePath : string) (now : Z)
    (w : t) : t :=
  let type :=
    match eventType with
    | Rename => Modified
    | Change => Modified
    end in
  let eventData := FileWatchEventData.mk type filePath now in
  mk (watchers w) (callbacks w) (debounceTimers w) (isWatching w)
    (delivered w ++ map (fun i => (i, eventData)) (seq 0 (callbacks w))).

(** [handleFileEvent] at the time [now]: the timer of the file, if there
    is one, is cleared, and a new one is set. *)
Definition handleFileEvent (eventType : RawEventType) (filePath : string)
    (now : Z) (w : t) : t :=
  mk (watchers w) (callbacks w)
    (<[filePath := (now + DEBOUNCE_MS, eventType)]> (debounceTimers w))
    (isWatching w) (delivered w).

(** The listener given to [watch(projectsDir, ...)], called at the time
    [now]; a watcher that is closed calls it no more. *)
Definition on_raw_event (projectsDir : string) (eventType : RawEventType)
    (filename : option string) (now : Z) (w : t) : t :=
  if bool_decide (projectsDir ∈ watchers w) then
    match filename with
    | Some name =>
        if negb (String.eqb name EmptyString) && Js.endsWith name ".jsonl"
        then handleFileEvent eventType (projectsDir +:+ "/" +:+ name) now w
        else w
    | None => w
    end
  else w.

(** The timer of a file runs at the time [now], which is not before it is
    due: the timer leaves the map and the event is emitted. *)
Definition on_timer (filePath : string) (now : Z) (w : t) : t :=
  match debounceTimers w !! filePath with
  | Some (due, eventType) =>
      if due <=? now then
        emitEvent eventType filePath now
          (mk (watchers w) (callbacks w) (delete filePath (debounceTimers w))
             (isWatching w) (delivered w))
      else w
  | None => w
  end.
End Watcher.

Section WatcherStart.
Context `{Platform}.

(** [start]: [can_watch] tells for which directories [watch] does not
    throw. *)
Definition Watcher_start (o : Outside.t) (can_watch : string -> bool)
    (w : Watcher.t) : Watcher.t :=
  if Watcher.isWatching w then w
  else
    let configDirs := getClaudeConfigDirs o in
    match configDirs with
    | [] => w
    | _ =>
        Watcher.mk
          (Watcher.watchers w
           ++ filter (fun dir => can_watch dir = true) (map getProjectsDir configDirs))
          (Watcher.callbacks w) (Watcher.debounceTimers w) true
          (Watcher.delivered w)
    end.

End WatcherStart.

(** What happens to a watcher between [start] and [stop]: a notification
    of the file system, or a debounce timer running. *)
Inductive Notification :=
| Raw_event (projectsDir : string) (eventType : RawEventType)
    (filename : option string) (now : Z)
| Timer_runs (filePath : string) (now : Z).

Definition notify (w : Watcher.t) (n : Notification) : Watcher.t :=
  match n with
  | Raw_event projectsDir eventType filename now =>
      Watcher.on_raw_event projectsDir eventType filename now w
  | Timer_runs filePath now => Watcher.on_timer filePath now w
  end.

Definition notify_all (ns : list Notification) (w : Watcher.t) : Watcher.t :=
  foldl notify w ns.

(** ** Vocabulary of the further properties *)

(** A line that is not blank. *)
Definition non_blank (line : string) : bool :=
  negb (String.eqb (Js.trim line) EmptyString).

(** The errors of a scan that name one file. *)
Definition errors_of_file (filePath : string) (errors : list ScanError)
    : list ScanError :=
  filter (fun e => ScanError.filePath e = filePath) errors.

(** [stat] and [readFile] both succeed on the file. *)
Definition readable (o : Outside.t) (filePath : string) : bool :=
  match Outside.stat o filePath, Outside.readFile o filePath with
  | IoOk _, IoOk _ => true
  | _, _ => false
  end.

(** The file has a watermark that [stat] still matches. *)
Definition unchanged (o : Outside.t) (processedFiles : gmap string ProcessedFile)
    (filePath : string) : bool :=
  match Outside.stat o filePath, processedFiles !! filePath with
  | IoOk fileStat, Some file =>
      (Stats.mtimeMs fileStat <=? ProcessedFile.lastModifiedAt file)
      && (ProcessedFile.lastSize file =? Stats.size fileStat)
  | _, _ => false
  end.

(** The in-memory map holds what the table holds, each watermark under
    the path it names. *)
Definition mirrored (w : World.t) : Prop :=
  World.processedFiles w = Repository.claude_processed_files (World.repository w)
  ∧ ∀ filePath file,
      World.processedFiles w !! filePath = Some file →
      ProcessedFile.filePath file = filePath.

(** No call of [initialize] is in flight. *)
Definition no_initialize_in_flight (s : Service.t) : Prop :=
  Forall (fun task => Task.method task ≠ M_initialize) (Service.tasks s).

(** The triggers and continuations that need no call from outside. *)
Definition spontaneous (e : Event) : bool :=
  match e with
  | Timer_fires | File_changed _ | Resume _ _ => true
  | _ => false
  end.

(** Every watermark of [w] is still there in [w'], at a count that is not
    lower. *)
Definition watermarks_kept (w w' : World.t) : Prop :=
  ∀ filePath file,
    World.processedFiles w !! filePath = Some file →
    ∃ file',
      World.processedFiles w' !! filePath = Some file'
      ∧ (ProcessedFile.lastLineCount file ≤ ProcessedFile.lastLineCount file')%nat.

(** Every [uuid] stored in [w] is still stored in [w']. *)
Definition uuids_kept (w w' : World.t) : Prop :=
  ∀ e,
    e ∈ Repository.claude_log_entries (World.repository w) →
    ∃ e',
      e' ∈ Repository.claude_log_entries (World.repository w')
      ∧ Entry.uuid e' = Entry.uuid e.

(** No two rows of the table have the same [uuid]. *)
Definition unique_uuids (rows : list ParsedLogEntry) : Prop :=
  NoDup (map Entry.uuid rows).

Section WalkVocabulary.
Context `{Platform}.

(** A log file below a directory with the listing [entries]: the join of
    the directory and the name of a regular file of the listing that ends
    in [.jsonl], or a log file below a directory of the listing that can
    be read, under the join of the two names.  Nothing else is one: not
    a directory, whatever its name, not what lies below a directory that
    cannot be read, not an entry that is neither a file nor a
    directory. *)
Inductive log_file_below : string → list Dirent → string → Prop :=
| log_file_here (dir : string) (entries : list Dirent) (name : string) :
    DirentFile name ∈ entries →
    Js.endsWith name ".jsonl" = true →
    log_file_below dir entries (path_join dir name)
| log_file_deeper (dir : string) (entries : list Dirent) (name : string)
    (listing : list Dirent) (filePath : string) :
    DirentDirectory name (Some listing) ∈ entries →
    log_file_below (path_join dir name) listing filePath →
    log_file_below dir entries filePath.

End WalkVocabulary.

(** * Properties *)

(** ** Strings *)

Lemma append_nil (b : string) : EmptyString +:+ b = b.
Proof. reflexivity. Qed.

Lemma append_cons c (a b : string) : String c a +:+ b = String c (a +:+ b).
Proof. reflexivity. Qed.



Lemma split_on_not_nil sep s : Js.split_on sep s ≠ [].
Proof.
  destruct s as [|c s]; simpl; [done|].
  destruct (Ascii.eqb c sep); [done|].
  by destruct (Js.split_on sep s).
Qed.

(** [split] gives one piece more than there are separators. *)
Lemma split_on_length sep s :
  length (Js.split_on sep s) = S (Js.count_char sep s).
Proof.
  induction s as [|c s IH]; simpl; [reflexivity|].
  destruct (Ascii.eqb c sep); simpl; [by rewrite IH|].
  destruct (Js.split_on sep s) eqn:E; simpl in *; [discriminate | exact IH].
Qed.

(** A piece without separator, then a separator: the piece is the first
    element. *)
Lemma split_on_piece sep l rest :
  Js.includes_char l sep = false →
  Js.split_on sep (l +:+ String sep rest) = l :: Js.split_on sep rest.
Proof.
  unfold Js.includes_char.
  induction l as [|c l IH]; intros Hl.
  - rewrite append_nil. simpl. by rewrite Ascii.eqb_refl.
  - rewrite append_cons. simpl in *.
    destruct (Ascii.eqb c sep) eqn:E; simpl in Hl; [discriminate|].
    by rewrite IH.
Qed.



(** ** The parser *)

Section ParserFacts.
Context `{Platform}.

(** The loop collects the entries and the errors of the lines, a line at
    a time: no line changes what another one yields. *)
Lemma parse_loop_outcomes lines i f p m entries errors :
  parse_loop lines i f p m entries errors =
    (entries ++ omap ParseOutcome.entry (line_outcomes i lines f p m),
     errors ++ omap ParseOutcome.error (line_outcomes i lines f p m)).
Proof.
  unfold line_outcomes.
  revert i entries errors.
  induction lines as [|l lines IH]; intros i entries errors; simpl.
  - by rewrite !app_nil_r.
  - rewrite IH. rewrite Nat.add_0_r.
    assert (Hext : imap (fun k l0 => parseLine l0 f p m (Some (S i + k + 1)%nat)) lines
                 = imap ((fun k l0 => parseLine l0 f p m (Some (i + k + 1)%nat)) ∘ S) lines).
    { apply imap_ext. intros k x _. simpl. do 2 f_equal. lia. }
    rewrite Hext.
    destruct (ParseOutcome.entry (parseLine l f p m (Some (i + 1)%nat)));
      destruct (ParseOutcome.error (parseLine l f p m (Some (i + 1)%nat)));
      simpl; by rewrite <- ?app_assoc.
Qed.

Lemma parseJSONLContent_outcomes content f p m :
  parseJSONLContent content f p m =
    Parsed.mk
      (omap ParseOutcome.entry (line_outcomes 0 (Js.split_lines content) f p m))
      (omap ParseOutcome.error (line_outcomes 0 (Js.split_lines content) f p m)).
Proof. unfold parseJSONLContent. by rewrite parse_loop_outcomes. Qed.

Lemma parseJSONLContentFromLine_outcomes content f p m startLine :
  parseJSONLContentFromLine content f p m startLine =
    ParsedFrom.mk
      (omap ParseOutcome.entry
         (line_outcomes startLine (drop startLine (Js.split_lines content)) f p m))
      (omap ParseOutcome.error
         (line_outcomes startLine (drop startLine (Js.split_lines content)) f p m))
      (length (Js.split_lines content)).
Proof. unfold parseJSONLContentFromLine. by rewrite parse_loop_outcomes. Qed.


End ParserFacts.

(** ** The line count of a batch (C6) *)

(** C6, as stated, fails for the full-blob variant: the result of
    [parseJSONLContent] is the pair of the entries and the errors, and the
    line count cannot be read off it.  The empty text (one line) and the
    text of a single line feed (two lines) give the same result. *)
Lemma parseJSONLContent_loses_line_count :
  ¬ ∃ lineCountOf : Parsed.t → nat,
      ∀ content : string,
        lineCountOf (@parseJSONLContent Reference.platform content "/f.jsonl" "p" 0)
        = length (Js.split_lines content).
Proof.
  intros [lineCountOf Hcount].
  pose proof (Hcount EmptyString) as H1.
  pose proof (Hcount (String Js.newline EmptyString)) as H2.
  vm_compute in H1, H2. congruence.
Qed.

(** C6, amended: the from-line-offset variant returns, with the entries
    and the errors of the lines from the offset on, the number of lines of
    the whole text (one more than its line feeds), whatever the offset and
    whether or not a line yields an entry; the full-blob variant returns
    the entries and the errors only. *)
Theorem parseJSONLContentFromLine_lineCount `{Platform}
    (content f p : string) (m : Z) (startLine : nat) :
  let result := parseJSONLContentFromLine content f p m startLine in
  ParsedFrom.lineCount result = length (Js.split_lines content)
  ∧ ParsedFrom.lineCount result = S (Js.count_char Js.newline content)
  ∧ ParsedFrom.entries result =
      omap ParseOutcome.entry
        (line_outcomes startLine (drop startLine (Js.split_lines content)) f p m)
  ∧ ParsedFrom.errors result =
      omap ParseOutcome.error
        (line_outcomes startLine (drop startLine (Js.split_lines content)) f p m).
Proof.
  intros result. subst result.
  rewrite parseJSONLContentFromLine_outcomes. simpl.
  repeat split. apply split_on_length.
Qed.

(** ** Malformed lines (C5) *)

(** The outcome at hand is an error with a cause that is not empty. *)
Ltac error_with_cause :=
  eexists; split; [| reflexivity]; discriminate.

Section MalformedLines.
Context `{Platform}.

Lemma parseRaw_missing raw f p m ln :
  Js.falsy_string (Raw.uuid raw) = true
  ∨ Js.falsy_string (Raw.sessionId raw) = true
  ∨ Js.falsy_string (Raw.timestamp raw) = true →
  parseRaw raw f p m ln =
    ParseOutcome.mk None (Some (ScanError.mk f ln missing_fields_message)).
Proof.
  intros Hm. unfold parseRaw.
  destruct Hm as [-> | [-> | ->]]; by rewrite ?orb_true_r.
Qed.

Lemma parseRaw_invalid_timestamp raw f p m ln text :
  Raw.timestamp raw = Some text → Date_getTime text = None →
  ∃ cause, cause ≠ EmptyString ∧
    parseRaw raw f p m ln = ParseOutcome.mk None (Some (ScanError.mk f ln cause)).
Proof.
  intros Hts Hdate. unfold parseRaw.
  destruct (_ || _ || _); [error_with_cause|].
  rewrite Hts. simpl. rewrite Hdate. error_with_cause.
Qed.

Lemma parseLine_malformed line f p m ln :
  malformed line →
  ∃ cause, cause ≠ EmptyString ∧
    parseLine line f p m ln = ParseOutcome.mk None (Some (ScanError.mk f ln cause)).
Proof.
  intros [Hblank Hbad]. unfold parseLine.
  destruct (String.eqb_spec (Js.trim line) EmptyString) as [E|_]; [done|].
  destruct (JSON_parse (Js.trim line)) as [message| |raw].
  - error_with_cause.
  - error_with_cause.
  - destruct Hbad as [Hu | [Hs | [Ht | (text & Hts & Hdate)]]].
    + rewrite parseRaw_missing by auto. error_with_cause.
    + rewrite parseRaw_missing by auto. error_with_cause.
    + rewrite parseRaw_missing by auto. error_with_cause.
    + by apply (parseRaw_invalid_timestamp raw f p m ln text).
Qed.

End MalformedLines.

Lemma split_on_whole sep l :
  Js.includes_char l sep = false → Js.split_on sep l = [l].
Proof.
  unfold Js.includes_char.
  induction l as [|c l IH]; simpl; intros Hl; [reflexivity|].
  destruct (Ascii.eqb c sep) eqn:E; simpl in Hl; [discriminate|].
  by rewrite IH.
Qed.

(** C5: [parseLine] is a total function that turns every malformed line
    into [(null, ScanError)] with the file path, the line number it was
    given and a cause that is not empty; and in a text of three lines, a
    record, a malformed line and a record, [parseJSONLContent] yields the
    two entries and exactly one error, which names line 2. *)
Theorem malformed_line_reported_and_isolated `{Platform} :
  (∀ line f p m ln,
     malformed line →
     ∃ cause, cause ≠ EmptyString ∧
       parseLine line f p m ln =
         ParseOutcome.mk None (Some (ScanError.mk f ln cause)))
  ∧
  (∀ valid1 bad valid2 f p m e1 e2,
     Js.includes_char valid1 Js.newline = false →
     Js.includes_char bad Js.newline = false →
     Js.includes_char valid2 Js.newline = false →
     parseLine valid1 f p m (Some 1%nat) = ParseOutcome.mk (Some e1) None →
     malformed bad →
     parseLine valid2 f p m (Some 3%nat) = ParseOutcome.mk (Some e2) None →
     ∃ cause, cause ≠ EmptyString ∧
       parseJSONLContent
         (valid1 +:+ String Js.newline (bad +:+ String Js.newline valid2)) f p m
       = Parsed.mk [e1; e2] [ScanError.mk f (Some 2%nat) cause]).
Proof.
  split.
  - intros line f p m ln. apply parseLine_malformed.
  - intros valid1 bad valid2 f p m e1 e2 N1 Nb N2 H1 Hbad H2.
    destruct (parseLine_malformed bad f p m (Some 2%nat) Hbad) as (cause & Hc & Hb).
    exists cause. split; [exact Hc|].
    rewrite parseJSONLContent_outcomes. unfold Js.split_lines.
    rewrite (split_on_piece _ valid1) by exact N1.
    rewrite (split_on_piece _ bad) by exact Nb.
    rewrite (split_on_whole _ valid2) by exact N2.
    unfold line_outcomes. cbn [imap compose Nat.add].
    by rewrite H1, Hb, H2.
Qed.

Lemma malformed_line_reported_and_isolated_witness :
  let valid1 := Reference.record_line "a" "s1" "2024-01-01T00:00:00.000Z" "10" "5" "0.01" in
  let valid2 := Reference.record_line "b" "s1" "2024-01-01T05:00:00.000Z" "7" "0" "0.02" in
  @malformed Reference.platform "not json"
  ∧ ∃ e1 e2 cause, cause ≠ EmptyString ∧
      @parseJSONLContent Reference.platform
        (valid1 +:+ String Js.newline ("not json" +:+ String Js.newline valid2))
        "/f.jsonl" "p" 0
      = Parsed.mk [e1; e2] [ScanError.mk "/f.jsonl" (Some 2%nat) cause].
Proof.
  intros valid1 valid2.
  assert (Hbad : @malformed Reference.platform "not json").
  { split; [discriminate | vm_compute; exact I]. }
  split; [exact Hbad|].
  eexists _, _.
  refine (proj2 (@malformed_line_reported_and_isolated Reference.platform)
            valid1 "not json" valid2 "/f.jsonl" "p" 0 _ _ _ _ _ _ Hbad _);
    vm_compute; reflexivity.
Defined.

(** ** The token total (C4) *)

Section TokenTotal.
Context `{Platform}.

(** What [parseRaw] puts into the token fields of an entry. *)
Lemma parseRaw_tokens raw f p m ln e :
  ParseOutcome.entry (parseRaw raw f p m ln) = Some e →
  let usage := default Raw.empty_usage (Raw.message raw ≫= Raw.usage) in
  Entry.inputTokens e = Js.or_zero (Raw.input_tokens usage)
  ∧ Entry.outputTokens e = Js.or_zero (Raw.output_tokens usage)
  ∧ Entry.cacheCreationInputTokens e =
      Js.or_zero (Raw.cache_creation_input_tokens usage)
  ∧ Entry.cacheReadInputTokens e = Js.or_zero (Raw.cache_read_input_tokens usage)
  ∧ total_is_sum e.
Proof.
  unfold parseRaw, total_is_sum.
  destruct (_ || _ || _); [discriminate|].
  destruct (Date_getTime _); [|discriminate].
  simpl. intros [= <-]. simpl.
  destruct (Raw.message raw ≫= Raw.usage); simpl; repeat split.
Qed.

Lemma parseLine_entry_inv line f p m ln e :
  ParseOutcome.entry (parseLine line f p m ln) = Some e →
  ∃ raw, JSON_parse (Js.trim line) = JSON_value raw
         ∧ ParseOutcome.entry (parseRaw raw f p m ln) = Some e.
Proof.
  unfold parseLine.
  destruct (String.eqb _ _); [discriminate|].
  destruct (JSON_parse (Js.trim line)) as [message| |raw]; try discriminate.
  intros He. by exists raw.
Qed.

Lemma parseLine_total_is_sum line f p m ln e :
  ParseOutcome.entry (parseLine line f p m ln) = Some e → total_is_sum e.
Proof.
  intros He. apply parseLine_entry_inv in He as (raw & _ & He).
  apply parseRaw_tokens in He. cbv zeta in He. apply He.
Qed.

Lemma line_outcomes_total_is_sum first lines f p m :
  Forall total_is_sum (omap ParseOutcome.entry (line_outcomes first lines f p m)).
Proof.
  apply Forall_forall. intros e He.
  apply list_elem_of_omap in He as (r & Hr & He).
  apply elem_of_lookup_imap in Hr as (k & l & -> & _).
  by apply parseLine_total_is_sum in He.
Qed.

Lemma parseJSONLContent_total_is_sum content f p m :
  Forall total_is_sum (Parsed.entries (parseJSONLContent content f p m)).
Proof.
  rewrite parseJSONLContent_outcomes. apply line_outcomes_total_is_sum.
Qed.

Lemma parseJSONLContentFromLine_total_is_sum content f p m startLine :
  Forall total_is_sum
    (ParsedFrom.entries (parseJSONLContentFromLine content f p m startLine)).
Proof.
  rewrite parseJSONLContentFromLine_outcomes. apply line_outcomes_total_is_sum.
Qed.

(** A property of the entries that every step of a scan keeps holds of
    the entries of its result. *)
Lemma scan_dirs_entries (P : ParsedLogEntry → Prop) o configDirs per_file :
  (∀ filePath a, Forall P (Acc.entries a) → Forall P (Acc.entries (per_file filePath a))) →
  Forall P (Acc.entries (scan_dirs o configDirs per_file)).
Proof.
  intros Hstep. unfold scan_dirs.
  assert (Hfiles : ∀ files a, Forall P (Acc.entries a) →
            Forall P (Acc.entries (foldl (fun a filePath => per_file filePath a) a files))).
  { induction files as [|x files IH]; intros a Ha; simpl; [exact Ha|].
    apply IH, Hstep, Ha. }
  assert (Hdirs : ∀ dirs a, Forall P (Acc.entries a) →
            Forall P (Acc.entries
              (foldl (fun a configDir =>
                        foldl (fun a filePath => per_file filePath a) a
                          (findJSONLFiles o (getProjectsDir configDir))) a dirs))).
  { induction dirs as [|d dirs IH]; intros a Ha; simpl; [exact Ha|].
    apply IH, Hfiles, Ha. }
  apply Hdirs. constructor.
Qed.

Lemma scan_result_entries (P : ParsedLogEntry → Prop) configDirs a :
  Forall P (Acc.entries a) → Forall P (ScanResult.entries (scan_result configDirs a)).
Proof. destruct configDirs; simpl; [constructor | done]. Qed.

Lemma scan_file_total_is_sum o configDirs filePath a :
  Forall total_is_sum (Acc.entries a) →
  Forall total_is_sum (Acc.entries (scan_file o configDirs filePath a)).
Proof.
  intros Ha. unfold scan_file.
  destruct (Outside.stat o filePath); [|exact Ha].
  destruct (Outside.readFile o filePath); [|exact Ha].
  simpl. apply Forall_app. split; [exact Ha|].
  apply parseJSONLContent_total_is_sum.
Qed.

Lemma scan_modified_file_total_is_sum o configDirs processedFiles filePath a :
  Forall total_is_sum (Acc.entries a) →
  Forall total_is_sum
    (Acc.entries (scan_modified_file o configDirs processedFiles filePath a)).
Proof.
  intros Ha. unfold scan_modified_file.
  destruct (Outside.stat o filePath); [|exact Ha].
  destruct (match processedFiles !! filePath with Some _ => _ | None => false end);
    [exact Ha|].
  destruct (Outside.readFile o filePath); [|exact Ha].
  destruct (match processedFiles !! filePath with Some _ => _ | None => None end);
    simpl; apply Forall_app; (split; [exact Ha|]).
  - apply parseJSONLContentFromLine_total_is_sum.
  - apply parseJSONLContent_total_is_sum.
Qed.

Lemma scanAllJSONLFiles_total_is_sum o :
  Forall total_is_sum (ScanResult.entries (scanAllJSONLFiles o)).
Proof.
  apply scan_result_entries, scan_dirs_entries.
  intros. by apply scan_file_total_is_sum.
Qed.

Lemma scanModifiedFiles_total_is_sum o processedFiles :
  Forall total_is_sum (ScanResult.entries (scanModifiedFiles o processedFiles)).
Proof.
  apply scan_result_entries, scan_dirs_entries.
  intros. by apply scan_modified_file_total_is_sum.
Qed.

End TokenTotal.

(** ** The grouping of the entries by file *)

Lemma map_get_set_eq key value m : map_get key (map_set key value m) = Some value.
Proof.
  induction m as [|[k v] m IH]; simpl.
  - by rewrite String.eqb_refl.
  - destruct (String.eqb k key) eqn:E; simpl; rewrite E; [reflexivity | exact IH].
Qed.

Lemma map_get_set_ne key key' value m :
  key ≠ key' → map_get key' (map_set key value m) = map_get key' m.
Proof.
  intros Hne. induction m as [|[k v] m IH]; simpl.
  - destruct (String.eqb_spec key key'); [done | reflexivity].
  - destruct (String.eqb_spec k key) as [->|Hk]; simpl.
    + destruct (String.eqb_spec key key'); [done | reflexivity].
    + destruct (String.eqb k key'); [reflexivity | exact IH].
Qed.

Lemma map_get_None key m : map_get key m = None ↔ key ∉ m.*1.
Proof.
  induction m as [|[k v] m IH]; simpl.
  - split; [intros _; apply not_elem_of_nil | done].
  - destruct (String.eqb_spec k key) as [->|Hk].
    + split; [done | intros Hn; exfalso; apply Hn; left].
    + rewrite IH, not_elem_of_cons.
      split; [intros Hn; split; [congruence | exact Hn] | intros [_ Hn]; exact Hn].
Qed.

Lemma map_set_keys key value m :
  (map_set key value m).*1 = if decide (key ∈ m.*1) then m.*1 else m.*1 ++ [key].
Proof.
  induction m as [|[k v] m IH].
  - rewrite decide_False; [reflexivity | apply not_elem_of_nil].
  - cbn [map_set]. destruct (String.eqb_spec k key) as [->|Hk].
    + rewrite !fmap_cons. cbn [fst].
      rewrite decide_True; [reflexivity | left].
    + rewrite !fmap_cons, IH. cbn [fst].
      destruct (decide (key ∈ m.*1)) as [Hin|Hin].
      * rewrite decide_True; [reflexivity | by right].
      * rewrite decide_False; [reflexivity|].
        rewrite elem_of_cons. intros [->|Hin']; [by apply Hk | by apply Hin].
Qed.

Lemma map_set_NoDup key value m : NoDup m.*1 → NoDup (map_set key value m).*1.
Proof.
  intros Hm. rewrite map_set_keys. case_decide; [exact Hm|].
  apply NoDup_app. split_and!; [exact Hm | | apply NoDup_singleton].
  intros x Hx Hx'. apply list_elem_of_singleton in Hx'. by subst.
Qed.

Section Grouping.
Context `{Platform} `{Storage}.

Lemma group_by_file_snoc entries e :
  group_by_file (entries ++ [e]) =
    map_set (Entry.filePath e)
      (default 0%nat (map_get (Entry.filePath e) (group_by_file entries)) + 1)%nat
      (group_by_file entries).
Proof. unfold group_by_file. by rewrite foldl_app. Qed.

Lemma group_by_file_NoDup entries : NoDup (group_by_file entries).*1.
Proof.
  induction entries as [|e entries IH] using rev_ind.
  - constructor.
  - rewrite group_by_file_snoc. by apply map_set_NoDup.
Qed.

(** The grouping holds a file when the scan found an entry of it, with
    the number of these entries. *)
Lemma group_by_file_get entries filePath :
  map_get filePath (group_by_file entries) =
    match length (entries_of_file filePath entries) with
    | O => None
    | S n => Some (S n)
    end.
Proof.
  unfold entries_of_file.
  induction entries as [|e entries IH] using rev_ind; [reflexivity|].
  rewrite group_by_file_snoc, filter_app, length_app.
  destruct (decide (Entry.filePath e = filePath)) as [<-|Hne].
  - rewrite map_get_set_eq, IH.
    rewrite filter_cons_True by done. simpl.
    destruct (length (filter _ entries)); simpl; f_equal; lia.
  - rewrite map_get_set_ne by done. rewrite IH.
    rewrite filter_cons_False by done. simpl. by rewrite Nat.add_0_r.
Qed.

Lemma group_by_file_keys entries filePath :
  filePath ∈ (group_by_file entries).*1 ↔ entries_of_file filePath entries ≠ [].
Proof.
  destruct (decide (filePath ∈ (group_by_file entries).*1)) as [Hin|Hin].
  - split; [|done]. intros _ Hnil.
    apply map_get_None in Hin; [done|].
    rewrite group_by_file_get, Hnil. reflexivity.
  - split; [done|]. intros Hne. exfalso.
    apply map_get_None in Hin. rewrite group_by_file_get in Hin.
    destruct (entries_of_file filePath entries); [done | discriminate].
Qed.

End Grouping.

(** ** What the repository calls change *)

Section RepositoryFacts.
Context `{Storage}.

Lemma markFileProcessed_ok file db db' :
  markFileProcessed file db = IoOk db' →
  Repository.claude_log_entries db' = Repository.claude_log_entries db
  ∧ Repository.claude_processed_files db' =
      <[ProcessedFile.filePath file := file]> (Repository.claude_processed_files db)
  ∧ Repository.journal db' = Repository.journal db ++ [MarkFileProcessed file].
Proof.
  unfold markFileProcessed.
  destruct (statement_error _ _); [discriminate|].
  by intros [= <-].
Qed.

Lemma run_insert_ok entry db db' :
  run_insert entry db = IoOk db' →
  Repository.claude_log_entries db' =
    insert_or_replace entry (Repository.claude_log_entries db)
  ∧ Repository.claude_processed_files db' = Repository.claude_processed_files db
  ∧ Repository.journal db' = Repository.journal db.
Proof.
  unfold run_insert.
  destruct (statement_error _ _); [discriminate|].
  by intros [= <-].
Qed.

(** A batch that goes through is the batch applied row by row. *)
Lemma run_inserts_ok entries db db' :
  run_inserts entries db = IoOk db' →
  Repository.claude_log_entries db' =
    foldl (fun rows e => insert_or_replace e rows)
      (Repository.claude_log_entries db) entries
  ∧ Repository.claude_processed_files db' = Repository.claude_processed_files db
  ∧ Repository.journal db' = Repository.journal db.
Proof.
  revert db. induction entries as [|e entries IH]; intros db; simpl.
  - by intros [= <-].
  - destruct (run_insert e db) as [db1|] eqn:E; [|discriminate].
    intros Hrest. apply IH in Hrest as (Hrows & Hfiles & Hjournal).
    apply run_insert_ok in E as (Hrows1 & Hfiles1 & Hjournal1).
    rewrite Hrows, Hfiles, Hjournal. by rewrite Hrows1, Hfiles1, Hjournal1.
Qed.

Lemma saveEntries_ok entries db db' :
  entries ≠ [] →
  saveEntries entries db = IoOk db' →
  Repository.claude_log_entries db' =
    foldl (fun rows e => insert_or_replace e rows)
      (Repository.claude_log_entries db) entries
  ∧ Repository.claude_processed_files db' = Repository.claude_processed_files db
  ∧ Repository.journal db' = Repository.journal db ++ [SaveEntries entries].
Proof.
  intros Hne. unfold saveEntries.
  destruct entries as [|e entries]; [done|].
  destruct (run_inserts (e :: entries) db) as [db1|] eqn:E; [|discriminate].
  intros [= <-]. apply run_inserts_ok in E as (Hrows & Hfiles & Hjournal).
  simpl in *. by rewrite Hrows, Hfiles, Hjournal.
Qed.

End RepositoryFacts.

(** ** The watermark loop *)

Section Tracking.
Context `{Platform} `{Storage}.

Lemma advanced_same_before o before before' filePath count :
  before !! filePath = before' !! filePath →
  advanced o before filePath count = advanced o before' filePath count.
Proof. unfold advanced. by intros ->. Qed.

Lemma advanced_filePath o before filePath count file :
  advanced o before filePath count = Some file →
  ProcessedFile.filePath file = filePath.
Proof.
  unfold advanced. destruct (getFileMetadata o filePath) as [[? ?]|]; [|discriminate].
  by intros [= <-].
Qed.

Lemma advanced_files_same_before o before before' fileEntries :
  (∀ filePath, filePath ∈ fileEntries.*1 → before !! filePath = before' !! filePath) →
  advanced_files o before fileEntries = advanced_files o before' fileEntries.
Proof.
  unfold advanced_files. intros Hsame.
  induction fileEntries as [|[f n] rest IH]; [reflexivity|].
  cbn [omap list_omap].
  rewrite (advanced_same_before o before before' f n) by (apply Hsame; left).
  rewrite IH; [reflexivity|]. intros g Hg. apply Hsame. by right.
Qed.

(** Whatever its outcome, the loop leaves the log entries alone and adds
    to the journal nothing but watermarks of files of the grouping. *)
Lemma update_tracking_journal o fileEntries w :
  let w' := final_world (update_tracking o fileEntries w) in
  Repository.claude_log_entries (World.repository w') =
    Repository.claude_log_entries (World.repository w)
  ∧ ∃ marks,
      Repository.journal (World.repository w') =
        Repository.journal (World.repository w) ++ map MarkFileProcessed marks
      ∧ Forall (fun file => ProcessedFile.filePath file ∈ fileEntries.*1) marks.
Proof.
  revert w. induction fileEntries as [|[f n] rest IH]; intros w; cbn [update_tracking].
  - split; [reflexivity|]. exists []. split; [by rewrite app_nil_r | constructor].
  - destruct (getFileMetadata o f) as [[modifiedAt size]|].
    + cbn [World.repository World.processedFiles].
      match goal with |- context [markFileProcessed ?pf _] => set (file := pf) end.
      destruct (markFileProcessed _ _) as [db|message] eqn:E.
      * apply markFileProcessed_ok in E as (Hrows & _ & Hjournal).
        destruct (IH (World.mk (<[f:=file]> (World.processedFiles w)) db))
          as (Hrows' & marks & Hmarks & Hin).
        cbn [World.repository] in *.
        split; [by rewrite Hrows', Hrows|].
        exists (file :: marks). split.
        -- rewrite Hmarks, Hjournal. cbn [map]. by rewrite <- app_assoc.
        -- constructor; [left|].
           eapply Forall_impl; [exact Hin|]. intros x Hx. by right.
      * cbn [final_world World.repository].
        split; [reflexivity|]. exists []. split; [by rewrite app_nil_r | constructor].
    + destruct (IH w) as (Hrows' & marks & Hmarks & Hin).
      split; [exact Hrows'|]. exists marks. split; [exact Hmarks|].
      eapply Forall_impl; [exact Hin|]. intros x Hx. by right.
Qed.

(** When the loop returns, every file of the grouping that [stat] still
    finds has its new watermark in memory and in the table, computed from
    the count it had in memory before the loop; nothing else changes. *)
Lemma update_tracking_returned o fileEntries w w' :
  NoDup fileEntries.*1 →
  update_tracking o fileEntries w = Returned () w' →
  (∀ f, World.processedFiles w' !! f =
        after_update o (World.processedFiles w) fileEntries (World.processedFiles w) f)
  ∧ (∀ f, Repository.claude_processed_files (World.repository w') !! f =
          after_update o (World.processedFiles w) fileEntries
            (Repository.claude_processed_files (World.repository w)) f)
  ∧ Repository.journal (World.repository w') =
      Repository.journal (World.repository w)
      ++ map MarkFileProcessed (advanced_files o (World.processedFiles w) fileEntries).
Proof.
  unfold after_update.
  revert w. induction fileEntries as [|[f0 n0] rest IH]; intros w Hnodup Hrun.
  - cbn in Hrun. injection Hrun as <-.
    split_and!; [done | done | by rewrite app_nil_r].
  - rewrite fmap_cons in Hnodup. apply NoDup_cons in Hnodup as [Hfresh Hnodup].
    cbn [fst] in Hfresh.
    assert (Hget0 : map_get f0 rest = None) by by apply map_get_None.
    cbn [update_tracking] in Hrun.
    unfold advanced_files. cbn [omap list_omap map_get].
    fold (advanced_files o (World.processedFiles w) rest).
    unfold advanced at 3.
    destruct (getFileMetadata o f0) as [[modifiedAt size]|] eqn:Hmeta.
    + cbn [World.repository World.processedFiles] in Hrun.
      match type of Hrun with context [markFileProcessed ?pf _] => set (file := pf) in * end.
      destruct (markFileProcessed file (World.repository w)) as [db|message] eqn:E;
        [|discriminate].
      apply markFileProcessed_ok in E as (_ & Hfiles & Hjournal).
      specialize (IH _ Hnodup Hrun) as (Hmem & Htable & Hmarks).
      cbn [World.repository World.processedFiles] in *.
      assert (Hothers : ∀ g, g ∈ rest.*1 →
                <[f0:=file]> (World.processedFiles w) !! g = World.processedFiles w !! g).
      { intros g Hg. apply lookup_insert_ne. intros <-. by apply Hfresh. }
      split_and!.
      * intros f. rewrite Hmem.
        destruct (String.eqb_spec f0 f) as [<-|Hne].
        -- rewrite Hget0. cbn. unfold advanced. rewrite Hmeta.
           by rewrite lookup_insert_eq.
        -- destruct (map_get f rest) as [n|] eqn:Hget; cbn.
           ++ assert (Hin : f ∈ rest.*1).
              { destruct (decide (f ∈ rest.*1)) as [|Hn]; [done|].
                apply map_get_None in Hn. congruence. }
              rewrite (advanced_same_before o _ (World.processedFiles w) f n)
                by by apply Hothers.
              destruct (advanced o (World.processedFiles w) f n); [done|].
              by apply lookup_insert_ne.
           ++ by apply lookup_insert_ne.
      * intros f. rewrite Htable, Hfiles.
        destruct (String.eqb_spec f0 f) as [<-|Hne].
        -- rewrite Hget0. cbn. unfold advanced. rewrite Hmeta.
           by rewrite lookup_insert_eq.
        -- destruct (map_get f rest) as [n|] eqn:Hget; cbn.
           ++ assert (Hin : f ∈ rest.*1).
              { destruct (decide (f ∈ rest.*1)) as [|Hn]; [done|].
                apply map_get_None in Hn. congruence. }
              rewrite (advanced_same_before o _ (World.processedFiles w) f n)
                by by apply Hothers.
              destruct (advanced o (World.processedFiles w) f n); [done|].
              by apply lookup_insert_ne.
           ++ by apply lookup_insert_ne.
      * rewrite Hmarks, Hjournal.
        rewrite (advanced_files_same_before o _ (World.processedFiles w) rest)
          by exact Hothers.
        cbn [map]. by rewrite <- app_assoc.
    + specialize (IH _ Hnodup Hrun) as (Hmem & Htable & Hmarks).
      split_and!; [| |exact Hmarks].
      * intros f. rewrite Hmem.
        destruct (String.eqb_spec f0 f) as [<-|Hne]; [|done].
        rewrite Hget0. cbn. unfold advanced. by rewrite Hmeta.
      * intros f. rewrite Htable.
        destruct (String.eqb_spec f0 f) as [<-|Hne]; [|done].
        rewrite Hget0. cbn. unfold advanced. by rewrite Hmeta.
Qed.

End Tracking.

(** ** The batch write and the watermarks after it *)

Section Persist.
Context `{Platform} `{Storage}.

Lemma save_if_any_thrown result w message w1 :
  save_if_any result w = Thrown message w1 →
  w1 = w ∧ saveEntries (ScanResult.entries result) (World.repository w) = IoError message.
Proof.
  unfold save_if_any. destruct (0 <? _)%nat; [|discriminate].
  destruct (saveEntries _ _); [discriminate|]. by intros [= <- <-].
Qed.

Lemma save_if_any_fails result w message :
  saveEntries (ScanResult.entries result) (World.repository w) = IoError message →
  save_if_any result w = Thrown message w.
Proof.
  unfold save_if_any. intros Hfail.
  destruct (ScanResult.entries result) as [|e es] eqn:E; [discriminate|].
  cbn [length Nat.ltb Nat.leb]. by rewrite Hfail.
Qed.

(** The batch write touches neither table of watermarks, and journals the
    one call it makes. *)
Lemma save_if_any_returned result w w1 :
  save_if_any result w = Returned () w1 →
  World.processedFiles w1 = World.processedFiles w
  ∧ Repository.claude_processed_files (World.repository w1)
    = Repository.claude_processed_files (World.repository w)
  ∧ Repository.journal (World.repository w1) =
      Repository.journal (World.repository w)
      ++ match ScanResult.entries result with
         | [] => []
         | entries => [SaveEntries entries]
         end.
Proof.
  unfold save_if_any.
  destruct (ScanResult.entries result) as [|e es] eqn:E; cbn [length Nat.ltb Nat.leb].
  - intros [= <-]. by rewrite app_nil_r.
  - destruct (saveEntries _ _) as [db|] eqn:Hsave; [|discriminate].
    intros [= <-]. apply saveEntries_ok in Hsave as (_ & Hfiles & Hjournal); [|done].
    done.
Qed.

Lemma after_update_found o before entries table filePath modifiedAt size :
  entries_of_file filePath entries ≠ [] →
  getFileMetadata o filePath = Some (modifiedAt, size) →
  after_update o before (group_by_file entries) table filePath =
    Some (ProcessedFile.mk filePath modifiedAt size
            (from_option ProcessedFile.lastLineCount 0%nat (before !! filePath)
             + length (entries_of_file filePath entries))%nat
            (Outside.Date_now o)).
Proof.
  intros Hfound Hmeta. unfold after_update.
  rewrite group_by_file_get.
  destruct (entries_of_file filePath entries) as [|e es]; [done|].
  cbn. unfold advanced. by rewrite Hmeta.
Qed.

Lemma after_update_not_found o before entries table filePath :
  entries_of_file filePath entries = [] →
  after_update o before (group_by_file entries) table filePath = table !! filePath.
Proof.
  intros Hnone. unfold after_update. by rewrite group_by_file_get, Hnone.
Qed.

Lemma advanced_files_elem o before entries filePath file :
  after_update o before (group_by_file entries) ∅ filePath = Some file →
  file ∈ advanced_files o before (group_by_file entries).
Proof.
  unfold after_update, advanced_files.
  generalize (group_by_file entries). intros m.
  induction m as [|[k n] m IH]; cbn [map_get omap list_omap].
  - cbn. by rewrite lookup_empty.
  - destruct (String.eqb_spec k filePath) as [->|Hne].
    + cbn. destruct (advanced o before filePath n) eqn:E.
      * intros [= <-]. left.
      * by rewrite lookup_empty.
    + intros Hget. apply IH in Hget.
      destruct (advanced o before k n); [by right | exact Hget].
Qed.

(** The batch write followed by the watermark loop, when both return. *)
Lemma persisted_watermarks o' result w w1 w2 :
  save_if_any result w = Returned () w1 →
  updateProcessedFilesFromScan o' result w1 = Returned () w2 →
  watermarks_follow o' w (ScanResult.entries result) w2.
Proof.
  intros Hsave Hupdate.
  apply save_if_any_returned in Hsave as (Hmem1 & Htable1 & Hjournal1).
  apply update_tracking_returned in Hupdate as (Hmem & Htable & Hmarks);
    [|apply group_by_file_NoDup].
  rewrite Hmem1 in Hmem, Htable, Hmarks. rewrite Htable1 in Htable.
  intros filePath. split.
  - intros Hfound modifiedAt size Hmeta. cbv zeta.
    rewrite Hmem, Htable.
    rewrite !(after_update_found o' _ _ _ filePath modifiedAt size) by done.
    split_and!; [done | done |].
    rewrite Hmarks. apply elem_of_app. right.
    apply list_elem_of_fmap. eexists. split; [reflexivity|].
    apply (advanced_files_elem o' _ _ filePath).
    by rewrite (after_update_found o' _ _ _ filePath modifiedAt size).
  - intros Hnone. rewrite Hmem, Htable.
    by rewrite !after_update_not_found.
Qed.

End Persist.

Section PersistOrder.
Context `{Platform} `{Storage}.

(** The batch write followed by the watermark loop, whatever their
    outcomes: the journal grows by the batch and then by watermarks. *)
Lemma persist_order o' result w (r1 : Outcome unit) :
  r1 = save_if_any result w →
  let w' :=
    match r1 with
    | Thrown _ w1 => w1
    | Returned _ w1 => final_world (updateProcessedFilesFromScan o' result w1)
    end in
  entries_before_watermarks (Repository.journal (World.repository w))
    (Repository.journal (World.repository w')) (ScanResult.entries result).
Proof.
  intros ->. destruct (save_if_any result w) as [[] w1|message w1] eqn:Hsave.
  - cbv zeta. apply save_if_any_returned in Hsave as (_ & _ & Hjournal).
    destruct (update_tracking_journal o' (group_by_file (ScanResult.entries result)) w1)
      as (_ & marks & Hmarks & Hin).
    unfold updateProcessedFilesFromScan.
    assert (Hfound : Forall (fun file =>
              entries_of_file (ProcessedFile.filePath file) (ScanResult.entries result) ≠ [])
              marks).
    { eapply Forall_impl; [exact Hin|]. intros file Hfile.
      by apply group_by_file_keys. }
    destruct (ScanResult.entries result) as [|e es] eqn:E.
    + exists [], marks. rewrite Hmarks, Hjournal.
      split_and!; [by rewrite app_nil_r | by left | | exact Hfound].
      intros _. destruct marks as [|file marks]; [reflexivity|].
      apply Forall_cons in Hfound as [Hfile _]. by destruct Hfile.
    + exists [SaveEntries (e :: es)], marks. rewrite Hmarks, Hjournal.
      split_and!; [by rewrite <- app_assoc | by right | done | exact Hfound].
  - apply save_if_any_thrown in Hsave as [-> _].
    exists [], []. split_and!; [by rewrite !app_nil_r | by left | done | constructor].
Qed.

End PersistOrder.

(** ** Watermarks after a scan (C1) *)

(** C1, as stated, fails for a file in which the scan finds no new entry.
    A log of one record was scanned and watermarked; a blank line is
    appended.  The incremental scan processes the file, finds no entry, and
    the watermark stays at the old modification time and size: nothing is
    written in memory, and [markFileProcessed] is not called. *)
Lemma file_without_new_entries_keeps_old_watermark :
  let line := Reference.record_line "a" "s1" "2024-01-01T00:00:00.000Z" "10" "5" "0.01" in
  let old := Js.records_text [line] in
  let stored :=
    ProcessedFile.mk Reference.log_path 1000 (Z.of_nat (String.length old)) 1 1500 in
  let o := Reference.disk 2000 (old +:+ String Js.newline EmptyString) 3000 in
  let w :=
    World.mk {[Reference.log_path := stored]}
      (Repository.mk [] {[Reference.log_path := stored]} []) in
  ∃ result w',
    @incrementalScan Reference.platform Reference.storage o o w = Returned result w'
    ∧ ScanResult.filesProcessed result = 1%nat
    ∧ ScanResult.entries result = []
    ∧ getFileMetadata o Reference.log_path
      = Some (2000, Z.of_nat (String.length old) + 1)
    ∧ World.processedFiles w' !! Reference.log_path = Some stored
    ∧ Repository.claude_processed_files (World.repository w') !! Reference.log_path
      = Some stored
    ∧ Repository.journal (World.repository w') = [].
Proof.
  cbv zeta. eexists _, _. split; [vm_compute; reflexivity|].
  vm_compute. repeat split.
Qed.

(** The watermarks after each of the three triggers, when it returns. *)
Lemma watermarks_after_scan_lemma `{Platform} `{Storage} (o o' : Outside.t) (w : World.t) :
  (∀ result w',
     scanAndImport o o' w = Returned result w' →
     watermarks_follow o' w (ScanResult.entries result) w')
  ∧ (∀ result w',
       incrementalScan o o' w = Returned result w' →
       watermarks_follow o' w (ScanResult.entries result) w')
  ∧ (∀ filePath w',
       getFileMetadata o filePath ≠ None →
       processModifiedFile o o' filePath w = Returned () w' →
       watermarks_follow o' w
         (ScanResult.entries
            (scanModifiedFiles o (delete filePath (World.processedFiles w)))) w').
Proof.
  split_and!.
  - intros result w'. unfold scanAndImport.
    destruct (save_if_any _ w) as [[] w1|] eqn:Hsave; [|discriminate].
    destruct (updateProcessedFilesFromScan _ _ w1) as [[] w2|] eqn:Hupdate; [|discriminate].
    intros [= <- <-]. by eapply persisted_watermarks.
  - intros result w'. unfold incrementalScan.
    destruct (save_if_any _ w) as [[] w1|] eqn:Hsave; [|discriminate].
    destruct (updateProcessedFilesFromScan _ _ w1) as [[] w2|] eqn:Hupdate; [|discriminate].
    intros [= <- <-]. by eapply persisted_watermarks.
  - intros filePath w' Hpresent. unfold processModifiedFile.
    destruct (getFileMetadata o filePath); [|done].
    destruct (save_if_any _ w) as [[] w1|] eqn:Hsave; [|discriminate].
    intros Hupdate. by eapply persisted_watermarks.
Qed.

(** C1, amended: after every scan that returns, of any trigger, every
    file in which the scan found at least one new entry, and whose
    metadata can be read after the scan, has its watermark at the
    post-scan modification time and size and at its earlier in-memory
    count plus the number of new entries, both in the in-memory map and,
    through [markFileProcessed], in the repository.  A file without new
    entry keeps the watermark it had. *)
Theorem watermarks_after_scan `{Platform} `{Storage} (o o' : Outside.t) (w : World.t) :
  (∀ result w',
     scanAndImport o o' w = Returned result w' →
     watermarks_follow o' w (ScanResult.entries result) w')
  ∧ (∀ result w',
       incrementalScan o o' w = Returned result w' →
       watermarks_follow o' w (ScanResult.entries result) w')
  ∧ (∀ filePath w',
       getFileMetadata o filePath ≠ None →
       processModifiedFile o o' filePath w = Returned () w' →
       watermarks_follow o' w
         (ScanResult.entries
            (scanModifiedFiles o (delete filePath (World.processedFiles w)))) w').
Proof. exact (watermarks_after_scan_lemma o o' w). Qed.

Lemma watermarks_after_scan_witness :
  let line1 := Reference.record_line "a" "s1" "2024-01-01T00:00:00.000Z" "10" "5" "0.01" in
  let line2 := Reference.record_line "b" "s1" "2024-01-01T05:00:00.000Z" "7" "0" "0.02" in
  let o := Reference.disk 1000 (Js.records_text [line1; line2]) 3000 in
  let w := World.mk ∅ Repository.empty in
  ∃ result w',
    @incrementalScan Reference.platform Reference.storage o o w = Returned result w'
    ∧ @watermarks_follow o w (ScanResult.entries result) w'.
Proof.
  intros line1 line2 o w.
  eexists _, _. split; [vm_compute; reflexivity|].
  refine (proj1 (proj2 (@watermarks_after_scan
                          Reference.platform Reference.storage o o w)) _ _ _).
  vm_compute. reflexivity.
Defined.

(** ** A failed batch write (C3) *)

(** C3: when the batch write of a scan fails, [scanAndImport] and
    [incrementalScan] throw and leave the in-memory map and the repository
    as they were, so that the same scan run again does the same; and
    whatever the outcome, a watermark is written only after the batch of
    the scan, which holds the entries of its file, has been saved. *)
Theorem failed_batch_advances_no_watermark `{Platform} `{Storage}
    (o o' : Outside.t) (w : World.t) :
  (∀ message,
     saveEntries (ScanResult.entries (scanAllJSONLFiles o)) (World.repository w)
       = IoError message →
     scanAndImport o o' w = Thrown message w)
  ∧ (∀ message,
       saveEntries (ScanResult.entries (scanModifiedFiles o (World.processedFiles w)))
         (World.repository w) = IoError message →
       incrementalScan o o' w = Thrown message w
       ∧ incrementalScan o o' (final_world (incrementalScan o o' w))
         = incrementalScan o o' w)
  ∧ entries_before_watermarks
      (Repository.journal (World.repository w))
      (Repository.journal (World.repository (final_world (scanAndImport o o' w))))
      (ScanResult.entries (scanAllJSONLFiles o))
  ∧ entries_before_watermarks
      (Repository.journal (World.repository w))
      (Repository.journal (World.repository (final_world (incrementalScan o o' w))))
      (ScanResult.entries (scanModifiedFiles o (World.processedFiles w))).
Proof.
  split_and!.
  - intros message Hfail. unfold scanAndImport.
    by rewrite (save_if_any_fails _ _ _ Hfail).
  - intros message Hfail.
    assert (Hthrown : incrementalScan o o' w = Thrown message w).
    { unfold incrementalScan. by rewrite (save_if_any_fails _ _ _ Hfail). }
    split; [exact Hthrown|]. by rewrite Hthrown.
  - pose proof (persist_order o' (scanAllJSONLFiles o) w _ eq_refl) as Horder.
    unfold scanAndImport. cbv zeta in Horder.
    destruct (save_if_any (scanAllJSONLFiles o) w) as [[] w1|message w1]; [|exact Horder].
    by destruct (updateProcessedFilesFromScan o' (scanAllJSONLFiles o) w1).
  - pose proof (persist_order o' (scanModifiedFiles o (World.processedFiles w)) w _ eq_refl)
      as Horder.
    unfold incrementalScan. cbv zeta in Horder.
    destruct (save_if_any _ w) as [[] w1|message w1]; [|exact Horder].
    by destruct (updateProcessedFilesFromScan o' _ w1).
Qed.

Lemma failed_batch_advances_no_watermark_witness :
  let line := Reference.record_line "a" "s1" "2024-01-01T00:00:00.000Z" "10" "5" "0.01" in
  let o := Reference.disk 1000 (Js.records_text [line]) 3000 in
  let w := World.mk ∅ Repository.empty in
  @saveEntries Reference.full_disk
    (ScanResult.entries (@scanModifiedFiles Reference.platform o (World.processedFiles w)))
    (World.repository w) = IoError "database or disk is full"
  ∧ @incrementalScan Reference.platform Reference.full_disk o o w
    = Thrown "database or disk is full" w.
Proof.
  intros line o w.
  assert (Hfail :
    @saveEntries Reference.full_disk
      (ScanResult.entries (@scanModifiedFiles Reference.platform o (World.processedFiles w)))
      (World.repository w) = IoError "database or disk is full")
    by (vm_compute; reflexivity).
  split; [exact Hfail|].
  exact (proj1 (proj1 (proj2 (@failed_batch_advances_no_watermark
                                 Reference.platform Reference.full_disk o o w))
                  _ Hfail)).
Defined.

(** ** The token total (C4), concluded *)

(** C4: an entry that [parseLine] yields has each token counter at the
    value of its field in the record, or at 0 when the field is missing (or
    is zero), and its [totalTokens] is the sum of the four counters; the
    record type has no total to read.  The entries of every scan result,
    which are the ones the service hands to [saveEntries], keep the sum. *)
Theorem totalTokens_is_the_sum `{Platform} :
  (∀ line f p m ln e,
     ParseOutcome.entry (parseLine line f p m ln) = Some e →
     ∃ raw,
       JSON_parse (Js.trim line) = JSON_value raw
       ∧ let usage := default Raw.empty_usage (Raw.message raw ≫= Raw.usage) in
         Entry.inputTokens e = Js.or_zero (Raw.input_tokens usage)
         ∧ Entry.outputTokens e = Js.or_zero (Raw.output_tokens usage)
         ∧ Entry.cacheCreationInputTokens e =
             Js.or_zero (Raw.cache_creation_input_tokens usage)
         ∧ Entry.cacheReadInputTokens e =
             Js.or_zero (Raw.cache_read_input_tokens usage)
         ∧ Entry.totalTokens e =
             (Entry.inputTokens e + Entry.outputTokens e
              + Entry.cacheCreationInputTokens e + Entry.cacheReadInputTokens e)%Q)
  ∧ Js.or_zero None = 0%Q
  ∧ (∀ o, Forall total_is_sum (ScanResult.entries (scanAllJSONLFiles o)))
  ∧ (∀ o processedFiles,
       Forall total_is_sum (ScanResult.entries (scanModifiedFiles o processedFiles))).
Proof.
  split_and!.
  - intros line f p m ln e He.
    apply parseLine_entry_inv in He as (raw & Hraw & He).
    exists raw. split; [exact Hraw|]. by apply parseRaw_tokens in He.
  - reflexivity.
  - apply scanAllJSONLFiles_total_is_sum.
  - apply scanModifiedFiles_total_is_sum.
Qed.

Lemma totalTokens_is_the_sum_witness :
  let line := Reference.record_line "a" "s1" "2024-01-01T00:00:00.000Z" "10" "5" "0.01" in
  ∃ e,
    ParseOutcome.entry (@parseLine Reference.platform line "/f.jsonl" "p" 0 (Some 1%nat))
      = Some e
    ∧ Entry.inputTokens e = 10%Q ∧ Entry.outputTokens e = 5%Q
    ∧ Entry.cacheCreationInputTokens e = 0%Q ∧ Entry.cacheReadInputTokens e = 0%Q
    ∧ Entry.totalTokens e = (10 + 5 + 0 + 0)%Q.
Proof.
  intros line. eexists. split; [vm_compute; reflexivity|].
  destruct (proj1 (@totalTokens_is_the_sum Reference.platform)
              line "/f.jsonl" "p" 0 (Some 1%nat) _ eq_refl)
    as (raw & Hraw & _ & _ & _ & _ & Htotal).
  repeat split; try reflexivity.
Defined.

(** ** The incremental scan (C2) *)

Section Incremental.
Context `{Platform}.


Lemma parseRaw_filePath raw f p m ln e :
  ParseOutcome.entry (parseRaw raw f p m ln) = Some e → Entry.filePath e = f.
Proof.
  unfold parseRaw.
  destruct (_ || _ || _); [discriminate|].
  destruct (Date_getTime _); [|discriminate].
  by intros [= <-].
Qed.

Lemma parseLine_filePath line f p m ln e :
  ParseOutcome.entry (parseLine line f p m ln) = Some e → Entry.filePath e = f.
Proof.
  intros He. apply parseLine_entry_inv in He as (raw & _ & He).
  by apply parseRaw_filePath in He.
Qed.

Lemma line_outcomes_filePath first lines f p m :
  Forall (fun e => Entry.filePath e = f)
    (omap ParseOutcome.entry (line_outcomes first lines f p m)).
Proof.
  apply Forall_forall. intros e He.
  apply list_elem_of_omap in He as (r & Hr & He).
  apply elem_of_lookup_imap in Hr as (k & l & -> & _).
  by apply parseLine_filePath in He.
Qed.

Lemma line_outcomes_app first a b f p m :
  line_outcomes first (a ++ b) f p m =
    line_outcomes first a f p m ++ line_outcomes (first + length a) b f p m.
Proof.
  unfold line_outcomes. rewrite imap_app. f_equal.
  apply imap_ext. intros k l _. do 2 f_equal. lia.
Qed.


Lemma entries_of_file_app f a b :
  entries_of_file f (a ++ b) = entries_of_file f a ++ entries_of_file f b.
Proof. apply filter_app. Qed.

Lemma entries_of_file_same f es :
  Forall (fun e => Entry.filePath e = f) es → entries_of_file f es = es.
Proof.
  unfold entries_of_file. induction 1 as [|e es He _ IH]; [reflexivity|].
  rewrite filter_cons_True by done. by rewrite IH.
Qed.

Lemma entries_of_file_other f g es :
  f ≠ g → Forall (fun e => Entry.filePath e = g) es → entries_of_file f es = [].
Proof.
  unfold entries_of_file. intros Hne. induction 1 as [|e es He _ IH]; [reflexivity|].
  rewrite filter_cons_False by congruence. exact IH.
Qed.

(** What one file adds to the entries of an incremental scan comes from
    that file. *)
Lemma scan_modified_file_adds o configDirs processedFiles g a :
  ∃ es,
    Acc.entries (scan_modified_file o configDirs processedFiles g a) = Acc.entries a ++ es
    ∧ Forall (fun e => Entry.filePath e = g) es.
Proof.
  unfold scan_modified_file.
  destruct (Outside.stat o g); [|exists []; by rewrite app_nil_r].
  destruct (match processedFiles !! g with Some _ => _ | None => false end);
    [exists []; by rewrite app_nil_r|].
  destruct (Outside.readFile o g); [|exists []; by rewrite app_nil_r].
  destruct (match processedFiles !! g with Some _ => _ | None => None end);
    eexists; (split; [reflexivity|]).
  - rewrite parseJSONLContentFromLine_outcomes. apply line_outcomes_filePath.
  - rewrite parseJSONLContent_outcomes. apply line_outcomes_filePath.
Qed.

Lemma scan_modified_other_files o configDirs processedFiles f files a :
  f ∉ files →
  entries_of_file f
    (Acc.entries
       (foldl (fun a g => scan_modified_file o configDirs processedFiles g a) a files))
  = entries_of_file f (Acc.entries a).
Proof.
  revert a. induction files as [|g files IH]; intros a Hf; [reflexivity|].
  apply not_elem_of_cons in Hf as [Hne Hf]. cbn [foldl]. rewrite IH by exact Hf.
  destruct (scan_modified_file_adds o configDirs processedFiles g a) as (es & -> & Hes).
  rewrite entries_of_file_app, (entries_of_file_other f g es) by done.
  by rewrite app_nil_r.
Qed.

Lemma scan_dirs_discovered o per_file :
  scan_dirs o (getClaudeConfigDirs o) per_file =
    foldl (fun a filePath => per_file filePath a) Acc.empty (discovered o).
Proof.
  unfold scan_dirs, discovered.
  generalize Acc.empty. induction (getClaudeConfigDirs o) as [|d dirs IH]; intros a.
  - reflexivity.
  - cbn [foldl flat_map]. rewrite foldl_app. apply IH.
Qed.







(** The entries of a file in the result of an incremental scan are those
    its step adds, when the directory walk finds the file once. *)
Lemma scanModifiedFiles_entries_of_file o processedFiles f es :
  NoDup (discovered o) →
  f ∈ discovered o →
  (∀ a, Acc.entries (scan_modified_file o (getClaudeConfigDirs o) processedFiles f a)
        = Acc.entries a ++ es) →
  Forall (fun e => Entry.filePath e = f) es →
  entries_of_file f (ScanResult.entries (scanModifiedFiles o processedFiles)) = es.
Proof.
  intros Hnodup Hin Hstep Hes. unfold scanModifiedFiles.
  assert (Hdirs : getClaudeConfigDirs o ≠ []).
  { intros Hnil. unfold discovered in Hin. rewrite Hnil in Hin.
    by apply not_elem_of_nil in Hin. }
  unfold scan_result. destruct (getClaudeConfigDirs o) as [|d dirs] eqn:Edirs; [done|].
  cbn [ScanResult.entries]. rewrite <- Edirs in *. rewrite scan_dirs_discovered.
  apply list_elem_of_split in Hin as (before & after & Hsplit).
  rewrite Hsplit in Hnodup |- *.
  apply NoDup_app in Hnodup as (_ & Hbefore & Hafter).
  apply NoDup_cons in Hafter as [Hafter _].
  rewrite foldl_app. cbn [foldl].
  rewrite scan_modified_other_files by exact Hafter.
  rewrite Hstep, entries_of_file_app, scan_modified_other_files.
  - cbn. by apply entries_of_file_same.
  - intros Hf. by apply (Hbefore f); [|left].
Qed.

End Incremental.




(** The service scans a log of two records and leaves the watermark at 2
    lines; a third record is appended, and the next scan yields that
    record only. *)
Example scanned_then_appended :
  let line1 := Reference.record_line "a" "s1" "2024-01-01T00:00:00.000Z" "10" "5" "0.01" in
  let line2 := Reference.record_line "b" "s1" "2024-01-01T05:00:00.000Z" "7" "0" "0.02" in
  let line3 := Reference.record_line "c" "s2" "2024-01-02T00:00:00.000Z" "1" "1" "0.03" in
  let o0 := Reference.disk 1000 (Js.records_text [line1; line2]) 1500 in
  let o1 := Reference.disk 2000 (Js.records_text [line1; line2; line3]) 2500 in
  ∃ result w,
    @incrementalScan Reference.platform Reference.storage o0 o0
      (World.mk ∅ Repository.empty) = Returned result w
    ∧ ProcessedFile.lastLineCount <$> World.processedFiles w !! Reference.log_path
      = Some 2%nat
    ∧ map Entry.uuid
        (ScanResult.entries
           (@scanModifiedFiles Reference.platform o1 (World.processedFiles w)))
      = ["c"].
Proof.
  cbv zeta. eexists _, _. split; [vm_compute; reflexivity|].
  vm_compute. repeat split.
Qed.

(** ** The upsert (C7) *)

Lemma rows_with_uuid_insert_or_replace uuid entry rows :
  rows_with_uuid uuid (insert_or_replace entry rows) =
    if decide (Entry.uuid entry = uuid) then [entry] else rows_with_uuid uuid rows.
Proof.
  unfold rows_with_uuid, insert_or_replace.
  rewrite filter_app.
  destruct (decide (Entry.uuid entry = uuid)) as [Hentry|Hentry].
  - rewrite (filter_cons_True _ entry []) by done. rewrite filter_nil.
    assert (Hnone : filter (fun row => Entry.uuid row = uuid)
                      (filter (fun row => Entry.uuid row ≠ Entry.uuid entry) rows) = []).
    { induction rows as [|row rows IH]; [reflexivity|].
      destruct (decide (Entry.uuid row = Entry.uuid entry)) as [Heq|Hne].
      - by rewrite (filter_cons_False _ _ rows) by (intros Hn; by apply Hn).
      - rewrite (filter_cons_True _ _ rows) by done.
        rewrite filter_cons_False by congruence. exact IH. }
    by rewrite Hnone.
  - rewrite (filter_cons_False _ entry []) by done. rewrite filter_nil, app_nil_r.
    induction rows as [|row rows IH]; [reflexivity|].
    destruct (decide (Entry.uuid row = uuid)) as [Heq|Hne].
    + rewrite (filter_cons_True (fun row => Entry.uuid row ≠ Entry.uuid entry))
        by congruence.
      rewrite !filter_cons_True by done. by rewrite IH.
    + rewrite (filter_cons_False (fun row => Entry.uuid row = uuid) row rows) by done.
      destruct (decide (Entry.uuid row = Entry.uuid entry)) as [Heq'|Hne'].
      * by rewrite filter_cons_False by (intros Hn; by apply Hn).
      * rewrite filter_cons_True by done. by rewrite filter_cons_False by done.
Qed.

(** After a batch, a [uuid] of the batch has one row, the last entry of
    the batch with that [uuid]; the rows of the other keys are as before. *)
Lemma rows_with_uuid_batch uuid batch rows :
  rows_with_uuid uuid (foldl (fun rows e => insert_or_replace e rows) rows batch) =
    match last_with_uuid uuid batch with
    | Some entry => [entry]
    | None => rows_with_uuid uuid rows
    end.
Proof.
  unfold last_with_uuid.
  induction batch as [|e batch IH] using rev_ind; [reflexivity|].
  rewrite foldl_app. cbn [foldl].
  rewrite rows_with_uuid_insert_or_replace.
  unfold rows_with_uuid at 2. rewrite filter_app.
  destruct (decide (Entry.uuid e = uuid)) as [He|He].
  - rewrite (filter_cons_True _ e []) by done. by rewrite filter_nil, last_snoc.
  - rewrite (filter_cons_False _ e []) by done. rewrite filter_nil, app_nil_r.
    exact IH.
Qed.

(** C7: when a batch holding an entry is saved and then, at any later
    time, a batch whose last entry with the same [uuid] is another entry
    with a different cost, the table holds exactly one row with that
    [uuid], and it is the second entry.  A batch that goes through is
    applied whole, the last entry of each key winning; a batch that fails
    leaves the caller, and the service, with the repository as it was. *)
Theorem saving_twice_keeps_the_second `{Storage} :
  (∀ db db1 db2 batch1 batch2 e1 e2,
     Entry.uuid e1 = Entry.uuid e2 →
     Entry.costUsd e1 ≠ Entry.costUsd e2 →
     e1 ∈ batch1 →
     last_with_uuid (Entry.uuid e2) batch2 = Some e2 →
     saveEntries batch1 db = IoOk db1 →
     saveEntries batch2 db1 = IoOk db2 →
     rows_with_uuid (Entry.uuid e1) (Repository.claude_log_entries db1) ≠ []
     ∧ rows_with_uuid (Entry.uuid e2) (Repository.claude_log_entries db2) = [e2])
  ∧ (∀ batch db db',
       saveEntries batch db = IoOk db' →
       ∀ uuid,
         rows_with_uuid uuid (Repository.claude_log_entries db') =
           match last_with_uuid uuid batch with
           | Some entry => [entry]
           | None => rows_with_uuid uuid (Repository.claude_log_entries db)
           end)
  ∧ (∀ result w message,
       saveEntries (ScanResult.entries result) (World.repository w) = IoError message →
       save_if_any result w = Thrown message w).
Proof.
  assert (Hbatch : ∀ batch db db',
    saveEntries batch db = IoOk db' →
    ∀ uuid,
      rows_with_uuid uuid (Repository.claude_log_entries db') =
        match last_with_uuid uuid batch with
        | Some entry => [entry]
        | None => rows_with_uuid uuid (Repository.claude_log_entries db)
        end).
  { intros batch db db' Hsave uuid.
    destruct batch as [|e batch].
    - cbn in Hsave. by injection Hsave as <-.
    - apply saveEntries_ok in Hsave as (-> & _ & _); [|done].
      apply rows_with_uuid_batch. }
  split_and!.
  - intros db db1 db2 batch1 batch2 e1 e2 Huuid Hcost Hin Hlast Hsave1 Hsave2.
    split.
    + rewrite (Hbatch _ _ _ Hsave1).
      destruct (last_with_uuid (Entry.uuid e1) batch1) eqn:E; [done|].
      exfalso. unfold last_with_uuid in E. apply last_None in E.
      assert (Hmem : e1 ∈ rows_with_uuid (Entry.uuid e1) batch1)
        by (apply list_elem_of_filter; done).
      rewrite E in Hmem. by apply not_elem_of_nil in Hmem.
    + by rewrite (Hbatch _ _ _ Hsave2), Hlast.
  - exact Hbatch.
  - intros result w message. apply save_if_any_fails.
Qed.

Lemma saving_twice_keeps_the_second_witness :
  let e1 := Entry.mk "a" "s1" "app" 1704067200000 "assistant" None
              10%Q 5%Q 0%Q 0%Q 15%Q 0.01%Q None None "/f.jsonl" 1000 in
  let e2 := Entry.mk "a" "s1" "app" 1704067200000 "assistant" None
              10%Q 5%Q 0%Q 0%Q 15%Q 0.02%Q None None "/f.jsonl" 2000 in
  ∃ db1 db2,
    @saveEntries Reference.storage [e1] Repository.empty = IoOk db1
    ∧ @saveEntries Reference.storage [e2] db1 = IoOk db2
    ∧ rows_with_uuid "a" (Repository.claude_log_entries db2) = [e2].
Proof.
  intros e1 e2. eexists _, _.
  split; [reflexivity|]. split; [reflexivity|].
  refine (proj2 (proj1 (@saving_twice_keeps_the_second Reference.storage)
                   Repository.empty _ _ [e1] [e2] e1 e2 _ _ _ _ eq_refl eq_refl)).
  - reflexivity.
  - cbn. discriminate.
  - left.
  - reflexivity.
Defined.

(** ** Billing blocks (C8) *)

Lemma blockSize_value : blockSize = 18000000.
Proof. reflexivity. Qed.

(** For a time that is not negative the division of SQLite is the floor. *)
Lemma blockStart_of_floor timestamp :
  0 ≤ timestamp → blockStart_of timestamp = timestamp / blockSize * blockSize.
Proof.
  intros Hpos. unfold blockStart_of, sql_div.
  by rewrite Z.quot_div_nonneg by (rewrite ?blockSize_value; lia).
Qed.

Lemma blockEnd_of_blockStart timestamp :
  blockEnd_of timestamp = blockStart_of timestamp + blockSize.
Proof. unfold blockEnd_of, blockStart_of. lia. Qed.

Lemma elem_of_insert_desc key keys x :
  x ∈ insert_desc key keys ↔ x = key ∨ x ∈ keys.
Proof.
  induction keys as [|k keys IH]; cbn [insert_desc].
  - rewrite list_elem_of_singleton. split; [by left | intros [?|Hnil]; [done|]].
    by apply not_elem_of_nil in Hnil.
  - destruct (Z.ltb_spec k key) as [Hlt|Hge].
    + apply elem_of_cons.
    + destruct (Z.eqb_spec k key) as [->|Hne].
      * split; [by right | intros [->|Hin]; [left | exact Hin]].
      * rewrite !elem_of_cons, IH. tauto.
Qed.

Lemma insert_desc_sorted key keys :
  StronglySorted Z.gt keys → StronglySorted Z.gt (insert_desc key keys).
Proof.
  induction 1 as [|k keys Hsorted IH Hk]; cbn [insert_desc].
  - repeat constructor.
  - destruct (Z.ltb_spec k key) as [Hlt|Hge].
    + constructor; [by constructor|].
      constructor; [lia|]. eapply Forall_impl; [exact Hk|]. intros x Hx. lia.
    + destruct (Z.eqb_spec k key) as [->|Hne]; [by constructor|].
      constructor; [exact IH|].
      apply Forall_forall. intros x Hx. apply elem_of_insert_desc in Hx as [->|Hx].
      * lia.
      * rewrite Forall_forall in Hk. by apply Hk.
Qed.

Lemma group_keys_sorted rows : StronglySorted Z.gt (group_keys rows).
Proof.
  induction rows as [|row rows IH]; [constructor|].
  by apply insert_desc_sorted.
Qed.

Lemma elem_of_group_keys rows key :
  key ∈ group_keys rows ↔ ∃ row, row ∈ rows ∧ blockStart_of (Entry.timestamp row) = key.
Proof.
  induction rows as [|row rows IH]; cbn [group_keys foldr].
  - split; [intros Hnil; by apply not_elem_of_nil in Hnil|].
    intros (row & Hnil & _). by apply not_elem_of_nil in Hnil.
  - fold (group_keys rows). rewrite elem_of_insert_desc, IH. split.
    + intros [->|(r & Hr & Hkey)]; [exists row; split; [left | done]|].
      exists r. split; [by right | done].
    + intros (r & Hr & Hkey). apply elem_of_cons in Hr as [->|Hr]; [by left|].
      right. by exists r.
Qed.

(** The bounds of the row of a group that is not empty. *)
Lemma aggregate_bounds key rows :
  group_of key rows ≠ [] →
  BlockRow.blockStart (aggregate key (group_of key rows)) = key
  ∧ BlockRow.blockEnd (aggregate key (group_of key rows)) = key + blockSize.
Proof.
  intros Hne. split; [reflexivity|]. cbn [aggregate BlockRow.blockEnd].
  destruct (group_of key rows) as [|row group] eqn:E; [done|].
  cbn [head from_option].
  assert (Hrow : row ∈ group_of key rows) by (rewrite E; left).
  apply list_elem_of_filter in Hrow as [Hkey _].
  by rewrite blockEnd_of_blockStart, Hkey.
Qed.

Lemma billing_query_sorted db startTime endTime :
  StronglySorted (fun a b => BlockRow.blockStart a > BlockRow.blockStart b)
    (billing_query db startTime endTime).
Proof.
  unfold billing_query.
  generalize (filter (fun row => in_range startTime endTime row = true)
                (Repository.claude_log_entries db)). intros selected.
  pose proof (group_keys_sorted selected) as Hsorted.
  induction Hsorted as [|key keys Hsorted IH Hkey]; cbn [map]; constructor.
  - exact IH.
  - apply Forall_forall. intros row Hrow.
    apply list_elem_of_fmap in Hrow as (k & -> & Hk).
    rewrite Forall_forall in Hkey. by apply Hkey.
Qed.

(** Two times, the second [d] later, share a block when the first is
    less than [blockSize - d] into its block. *)
Lemma same_block_iff t d :
  0 ≤ t → 0 ≤ d →
  blockStart_of (t + d) = blockStart_of t ↔ t mod blockSize + d < blockSize.
Proof.
  intros Ht Hd. rewrite !blockStart_of_floor by lia.
  assert (Hbs : 0 < blockSize) by (rewrite blockSize_value; lia).
  pose proof (Z.mod_pos_bound t blockSize Hbs) as Hr.
  assert (Hsplit : (t + d) / blockSize = t / blockSize + (t mod blockSize + d) / blockSize).
  { rewrite (Z.div_mod t blockSize) at 1 by lia.
    rewrite <- Z.add_assoc, (Z.mul_comm blockSize), Z.div_add_l by lia.
    reflexivity. }
  rewrite Hsplit. split.
  - intros Heq. apply Z.mul_cancel_r in Heq; [|lia].
    assert (Hzero : (t mod blockSize + d) / blockSize = 0) by lia.
    apply Z.div_small_iff in Hzero; lia.
  - intros Hlt. rewrite (Z.div_small (t mod blockSize + d)) by lia. f_equal. lia.
Qed.

Lemma next_block t :
  0 ≤ t → blockStart_of (t + blockSize) = blockStart_of t + blockSize.
Proof.
  intros Ht. rewrite !blockStart_of_floor by (rewrite ?blockSize_value; lia).
  replace (t + blockSize) with (t + 1 * blockSize) by lia.
  rewrite Z.div_add by (rewrite blockSize_value; lia). lia.
Qed.

(** C8, as stated, fails in its consequence: a time and the time 5 hours
    less 1 ms later share a block only when the first is a block start.
    The times 1 and 18,000,000 are that far apart, and
    [getBillingBlockUsage] puts two entries with these times into two
    blocks. *)
Lemma five_hours_less_one_ms_later_is_another_block :
  let e1 := Entry.mk "a" "s1" "app" 1 "assistant" None
              10%Q 5%Q 0%Q 0%Q 15%Q 0.01%Q None None "/f.jsonl" 1000 in
  let e2 := Entry.mk "b" "s1" "app" (1 + 18000000 - 1) "assistant" None
              10%Q 5%Q 0%Q 0%Q 15%Q 0.01%Q None None "/f.jsonl" 1000 in
  blockStart_of 1 = 0
  ∧ blockStart_of (1 + 18000000 - 1) = 18000000
  ∧ map (fun b => (BlockRow.blockStart b, BlockRow.requestCount b))
      (billing_query (Repository.mk [e1; e2] ∅ []) None None)
    = [(18000000, 1%nat); (0, 1%nat)]
  ∧ map BillingBlockUsage.blockStart
      (@getBillingBlockUsage Reference.platform (Repository.mk [e1; e2] ∅ []) None None)
    = ["1970-01-01T05:00:00.000Z"; "1970-01-01T00:00:00.000Z"].
Proof. vm_compute. repeat split. Qed.

(** C8, amended: an entry with a time [t] that is not negative is counted
    in the block of index [floor(t / 18,000,000)], whose start and end are
    that index and the next one times 18,000,000 ms; the blocks come
    newest first, one row a block; [t + 18,000,000] is in the next block;
    and [t] and a later [t + d] share a block exactly when [t] is less than
    [18,000,000 - d] into its block, so that [t] and
    [t + 18,000,000 - 1] share one exactly when [t] is a block start. *)
Theorem billing_blocks_are_epoch_aligned `{Platform}
    (db : Repository.t) (startTime endTime : option Z) :
  let selected :=
    filter (fun row => in_range startTime endTime row = true)
      (Repository.claude_log_entries db) in
  (∀ e,
     e ∈ Repository.claude_log_entries db →
     in_range startTime endTime e = true →
     0 ≤ Entry.timestamp e →
     let k := Entry.timestamp e / 18000000 in
     let block := aggregate (k * 18000000) (group_of (k * 18000000) selected) in
     block ∈ billing_query db startTime endTime
     ∧ e ∈ group_of (k * 18000000) selected
     ∧ BlockRow.blockStart block = k * 18000000
     ∧ BlockRow.blockEnd block = (k + 1) * 18000000)
  ∧ StronglySorted (fun a b => BlockRow.blockStart a > BlockRow.blockStart b)
      (billing_query db startTime endTime)
  ∧ map BillingBlockUsage.blockStart (getBillingBlockUsage db startTime endTime)
    = map (fun b => Date_toISOString (BlockRow.blockStart b))
        (billing_query db startTime endTime)
  ∧ (∀ t, 0 ≤ t → blockStart_of (t + 18000000) = blockStart_of t + 18000000)
  ∧ (∀ t d, 0 ≤ t → 0 ≤ d →
       blockStart_of (t + d) = blockStart_of t ↔ t mod 18000000 + d < 18000000)
  ∧ (∀ t, 0 ≤ t →
       blockStart_of (t + 18000000 - 1) = blockStart_of t ↔ t mod 18000000 = 0).
Proof.
  intros selected. split_and!.
  - intros e He Hrange Hpos k block.
    assert (Hkey : blockStart_of (Entry.timestamp e) = k * 18000000).
    { by rewrite blockStart_of_floor. }
    assert (Hsel : e ∈ selected) by (apply list_elem_of_filter; done).
    assert (Hgroup : e ∈ group_of (k * 18000000) selected)
      by (apply list_elem_of_filter; done).
    assert (Hne : group_of (k * 18000000) selected ≠ []).
    { intros Hnil. rewrite Hnil in Hgroup. by apply not_elem_of_nil in Hgroup. }
    destruct (aggregate_bounds _ _ Hne) as [Hstart Hend].
    split_and!; [| exact Hgroup | exact Hstart |].
    + unfold billing_query. fold selected.
      apply list_elem_of_fmap. exists (k * 18000000). split; [reflexivity|].
      apply elem_of_group_keys. by exists e.
    + subst block. rewrite Hend, blockSize_value. lia.
  - apply billing_query_sorted.
  - unfold getBillingBlockUsage. rewrite <- list_fmap_compose. reflexivity.
  - intros t Ht. apply (next_block t Ht).
  - intros t d Ht Hd. apply (same_block_iff t d Ht Hd).
  - intros t Ht.
    replace (t + 18000000 - 1) with (t + (18000000 - 1)) by lia.
    rewrite (same_block_iff t (18000000 - 1)) by lia.
    pose proof (Z.mod_pos_bound t blockSize) as Hr.
    rewrite blockSize_value in *. lia.
Qed.

Lemma billing_blocks_are_epoch_aligned_witness :
  let e := Entry.mk "a" "s1" "app" 1704067200000 "assistant" None
             10%Q 5%Q 0%Q 0%Q 15%Q 0.01%Q None None "/f.jsonl" 1000 in
  let db := Repository.mk [e] ∅ [] in
  ∃ block,
    block ∈ billing_query db None None
    ∧ BlockRow.blockStart block = 94670 * 18000000
    ∧ BlockRow.blockEnd block = 94671 * 18000000
    ∧ BlockRow.requestCount block = 1%nat.
Proof.
  intros e db.
  destruct (proj1 (@billing_blocks_are_epoch_aligned Reference.platform db None None)
              e ltac:(left) eq_refl ltac:(vm_compute; discriminate))
    as (Hin & _ & Hstart & Hend).
  eexists. split; [exact Hin|]. split; [exact Hstart|]. split; [exact Hend|].
  reflexivity.
Defined.

(** ** The config directories (C9) *)

Section ConfigDirs.
Context `{Platform}.

Lemma push_existing_filter exists_ paths dirs :
  push_existing exists_ paths dirs =
    dirs ++ filter (fun p => exists_ p = true)
              (filter (fun p => p ≠ EmptyString) paths).
Proof.
  revert dirs. induction paths as [|p paths IH]; intros dirs; cbn [push_existing].
  - by rewrite app_nil_r.
  - rewrite IH. destruct (String.eqb_spec p EmptyString) as [->|Hne]; cbn [negb andb].
    + by rewrite (filter_cons_False _ EmptyString paths) by (intros Hn; by apply Hn).
    + rewrite (filter_cons_True _ p paths) by done.
      destruct (exists_ p) eqn:E.
      * rewrite (filter_cons_True (fun p => exists_ p = true)) by done.
        by rewrite <- app_assoc.
      * by rewrite (filter_cons_False (fun p => exists_ p = true)) by congruence.
Qed.

(** The result is the override paths that exist, in order and with their
    repetitions, then each fallback location that exists and is not there
    yet. *)
Lemma getClaudeConfigDirs_shape o :
  getClaudeConfigDirs o =
    foldl (fun dirs p => push_fallback (Outside.existsSync o) p dirs)
      (filter (fun p => Outside.existsSync o p = true) (override_paths o))
      (fallback_paths o).
Proof.
  unfold getClaudeConfigDirs, override_paths, fallback_paths. cbn [foldl].
  destruct (Js.or_null (Outside.CLAUDE_CONFIG_DIR o)); [|reflexivity].
  by rewrite push_existing_filter.
Qed.

Lemma elem_of_push_fallback exists_ p dirs x :
  x ∈ push_fallback exists_ p dirs ↔ x ∈ dirs ∨ (x = p ∧ exists_ p = true).
Proof.
  unfold push_fallback. destruct (exists_ p) eqn:E; cbn [andb].
  - destruct (bool_decide_reflect (p ∈ dirs)) as [Hin|Hin]; cbn [negb].
    + split; [by left | intros [Hx|[-> _]]; done].
    + rewrite elem_of_app, list_elem_of_singleton. split.
      * intros [Hx | ->]; [by left | by right].
      * intros [Hx|[-> _]]; [by left | by right].
  - split; [by left | intros [Hx|[_ Hx]]; done].
Qed.

Lemma push_fallback_NoDup exists_ p dirs :
  NoDup dirs → NoDup (push_fallback exists_ p dirs).
Proof.
  intros Hdirs. unfold push_fallback.
  destruct (exists_ p && negb (bool_decide (p ∈ dirs))) eqn:E; [|exact Hdirs].
  apply andb_true_iff in E as [_ E]. apply negb_true_iff in E.
  apply bool_decide_eq_false in E.
  apply NoDup_app. split_and!; [exact Hdirs | | apply NoDup_singleton].
  intros x Hx Hx'. apply list_elem_of_singleton in Hx'. by subst.
Qed.

(** What holds of the result in every environment: it never fails (it is
    a total function), it holds exactly the candidate paths that exist,
    the override paths come first, and the fallback locations are looked
    at whatever the override gave. *)
Lemma getClaudeConfigDirs_members o p :
  p ∈ getClaudeConfigDirs o ↔
    Outside.existsSync o p = true ∧ (p ∈ override_paths o ∨ p ∈ fallback_paths o).
Proof.
  rewrite getClaudeConfigDirs_shape. unfold fallback_paths. cbn [foldl].
  rewrite !elem_of_push_fallback, list_elem_of_filter.
  rewrite !elem_of_cons. split.
  - intros [[[Hex Hin]|[-> Hex]]|[-> Hex]]; (split; [exact Hex|]); auto.
  - intros [Hex [Hin|[->|[->|Hnil]]]]; auto.
    by apply not_elem_of_nil in Hnil.
Qed.

Lemma getClaudeConfigDirs_override_first o :
  filter (fun p => Outside.existsSync o p = true) (override_paths o)
    `prefix_of` getClaudeConfigDirs o.
Proof.
  rewrite getClaudeConfigDirs_shape. unfold fallback_paths. cbn [foldl].
  set (base := filter _ _). unfold push_fallback.
  destruct (_ && _); destruct (_ && _);
    rewrite <- ?app_assoc; (apply prefix_app_r || idtac); reflexivity.
Qed.

(** The result has no repetition when the override paths that exist have
    none. *)
Lemma getClaudeConfigDirs_NoDup o :
  NoDup (filter (fun p => Outside.existsSync o p = true) (override_paths o)) →
  NoDup (getClaudeConfigDirs o).
Proof.
  intros Hoverride. rewrite getClaudeConfigDirs_shape. unfold fallback_paths.
  cbn [foldl]. by do 2 apply push_fallback_NoDup.
Qed.

End ConfigDirs.

(** C9 fails on the code for an override that names a directory twice:
    the loop over the override paths pushes every path that exists and,
    unlike the two fallback branches, does not look whether the path is
    in the list already.  With [CLAUDE_CONFIG_DIR="/data,/data"] and
    [/data] on disk, the result holds [/data] twice, and a scan reads each
    log file below it twice. *)
Theorem override_path_given_twice_is_returned_twice :
  let o :=
    Outside.mk (Some "/data,/data") "/home/u"
      (fun p => String.eqb p "/data")
      (fun dir =>
         if String.eqb dir "/data/projects" then Some [DirentFile "s.jsonl"] else None)
      (fun _ => Reference.no_such_file) (fun _ => Reference.no_such_file) 0 in
  @getClaudeConfigDirs Reference.platform o = ["/data"; "/data"]
  ∧ ¬ NoDup (@getClaudeConfigDirs Reference.platform o)
  ∧ @discovered Reference.platform o
    = ["/data/projects/s.jsonl"; "/data/projects/s.jsonl"].
Proof.
  cbv zeta. split_and!.
  - vm_compute. reflexivity.
  - change (¬ NoDup ["/data"; "/data"]).
    intros Hnodup. apply NoDup_cons in Hnodup as [Hnotin _].
    apply Hnotin. left.
  - vm_compute. reflexivity.
Qed.

(** ** Scans in flight (C10) *)

Section InFlight.
Context `{Platform} `{Storage}.

Lemma scans_in_flight_spawn method point s :
  scans_in_flight (spawn method point s) =
    (scans_in_flight s + if is_scanning (Task.mk method point) then 1 else 0)%nat.
Proof.
  unfold scans_in_flight, spawn, with_tasks. cbn [Service.tasks].
  rewrite filter_app, length_app. f_equal.
  destruct (is_scanning (Task.mk method point)) eqn:E.
  - by rewrite (filter_cons_True _ _ []) by done.
  - by rewrite (filter_cons_False _ _ []) by congruence.
Qed.

(** A call of [incrementalScan] that nothing interleaves with does what
    the method does when run to its end. *)
Lemma periodic_scan_alone s o o' :
  Service.scanIntervalTimer s = true →
  Service.tasks s = [] →
  run [Timer_fires; Resume 0 o; Resume 0 o'; Resume 0 o'] s =
    with_world (final_world (incrementalScan o o' (Service.world s))) s.
Proof.
  intros Htimer Htasks. destruct s as [w opts init timer watching tasks].
  cbn in Htimer, Htasks. subst timer tasks.
  unfold run, incrementalScan.
  cbn -[scanModifiedFiles save_if_any updateProcessedFilesFromScan].
  destruct (save_if_any _ w) as [[] w1|message w1];
    unfold resume, with_tasks, with_world, spawn;
    cbn -[scanModifiedFiles save_if_any updateProcessedFilesFromScan];
    [|reflexivity].
  by destruct (updateProcessedFilesFromScan o' _ w1) as [[] w2|message w2].
Qed.

Lemma resume_starting called index o s :
  starting called s →
  Service.initialized (resume index o s) = true ∨ starting called (resume index o s).
Proof.
  intros (Hinit & Htimer & Hwatch & Htasks).
  destruct s as [w opts init timer watching tasks]. cbn in *. subst.
  destruct Htasks as [->|(-> & point & ->)].
  - right. unfold resume. cbn. rewrite lookup_nil. repeat split; by left.
  - destruct index as [|index]; [|right; unfold resume; cbn; repeat split;
                                   right; split; [done | by exists point]].
    unfold resume. cbn [Service.tasks lookup list_lookup Task.method Task.point
                        Service.world Service.options].
    destruct point as [| | |temp|result|result].
    + destruct (Options.scanOnStartup opts).
      * right. cbn. repeat split. right. split; [done | by eexists].
      * left. reflexivity.
    + right. cbn. repeat split. by left.
    + right. cbn. repeat split. right. split; [done | by eexists].
    + right. cbn. repeat split. right. split; [done | by eexists].
    + destruct (save_if_any result w) as [[] w1|message w1]; right; cbn; repeat split.
      * right. split; [done | by eexists].
      * by left.
    + destruct (updateProcessedFilesFromScan o result w) as [[] w1|message w1].
      * left. reflexivity.
      * right. cbn. repeat split. by left.
Qed.

Lemma resume_initialized index o s :
  Service.initialized s = true → Service.initialized (resume index o s) = true.
Proof.
  intros Hinit. unfold resume.
  destruct (Service.tasks s !! index) as [[method point]|]; [|exact Hinit].
  cbn [Task.method Task.point].
  destruct point as [| | |temp|result|result].
  - destruct (Options.scanOnStartup _); [exact Hinit|].
    by destruct method.
  - destruct method as [| | |filePath]; try exact Hinit.
    destruct (getFileMetadata o filePath); [exact Hinit|].
    by destruct (deleteEntriesFromFile _ _) as [[message|] db].
  - by destruct method.
  - exact Hinit.
  - by destruct (save_if_any _ _).
  - destruct (updateProcessedFilesFromScan _ _ _); [|exact Hinit].
    by destruct method.
Qed.

Lemma step_initialized e s :
  startup_event e = true →
  Service.initialized s = true → Service.initialized (step s e) = true.
Proof.
  intros He Hinit.
  destruct e as [given| | |o'| | | |filePath|index o]; try discriminate He;
    cbn [step].
  - by rewrite Hinit.
  - exact Hinit.
  - by destruct (Service.scanIntervalTimer s).
  - by destruct (Service.watching s).
  - by apply resume_initialized.
Qed.

Lemma step_starting called e s :
  startup_event e = true →
  (is_Call_initialize e = true → called = false) →
  starting called s →
  Service.initialized (step s e) = true
  ∨ starting (called || is_Call_initialize e) (step s e).
Proof.
  intros He Hcalled Hs.
  destruct e as [given| | |o'| | | |filePath|index o]; try discriminate He;
    cbn [step is_Call_initialize].
  - right. destruct Hs as (Hinit & Htimer & Hwatch & Htasks).
    rewrite Hinit. rewrite (Hcalled eq_refl) in Htasks |- *.
    destruct Htasks as [Htasks|[? _]]; [|discriminate].
    unfold starting, spawn, with_tasks. cbn. rewrite Htasks.
    split_and!; [done | done | done |]. right. split; [done | by eexists].
  - right. rewrite orb_false_r.
    destruct Hs as (Hinit & Htimer & Hwatch & Htasks). by repeat split.
  - right. rewrite orb_false_r.
    destruct Hs as (Hinit & Htimer & Hwatch & Htasks). rewrite Htimer. by repeat split.
  - right. rewrite orb_false_r.
    destruct Hs as (Hinit & Htimer & Hwatch & Htasks). rewrite Hwatch. by repeat split.
  - rewrite orb_false_r. by apply resume_starting.
Qed.

Lemma run_initialized events s :
  Forall (fun e => startup_event e = true) events →
  Service.initialized s = true → Service.initialized (run events s) = true.
Proof.
  unfold run. revert s. induction events as [|e events IH]; intros s Hevents Hinit.
  - exact Hinit.
  - apply Forall_cons in Hevents as [He Hevents]. cbn [foldl].
    apply IH; [exact Hevents|]. by apply step_initialized.
Qed.

(** From a state that is starting, the events of a start-up lead to a
    state that is initialized or is still starting. *)
Lemma run_startup events (called : bool) s :
  Forall (fun e => startup_event e = true) events →
  (length (filter (fun e => is_Call_initialize e = true) events)
   ≤ if called then 0 else 1)%nat →
  starting called s →
  Service.initialized (run events s) = true ∨ ∃ called', starting called' (run events s).
Proof.
  revert called s.
  induction events as [|e events IH]; intros called s Hevents Hcount Hs.
  - right. by exists called.
  - apply Forall_cons in Hevents as [He Hevents].
    change (run (e :: events) s) with (run events (step s e)).
    assert (Hfirst : is_Call_initialize e = true → called = false).
    { intros E. rewrite filter_cons_True in Hcount by done.
      destruct called; [|reflexivity]. cbn [length] in Hcount. exfalso. lia. }
    destruct (step_starting called e s He Hfirst Hs) as [Hinit|Hstarting].
    + left. by apply run_initialized.
    + apply (IH (called || is_Call_initialize e)); [exact Hevents | | exact Hstarting].
      destruct (is_Call_initialize e) eqn:E.
      * rewrite filter_cons_True in Hcount by done. cbn [length] in Hcount.
        rewrite orb_true_r. destruct called; lia.
      * rewrite filter_cons_False in Hcount by congruence.
        by rewrite orb_false_r.
Qed.

End InFlight.

(** C10, as stated, fails: the service has no single-flight guard.  After
    a start-up that watermarked a log of one record, a second record is
    appended and the timer fires twice, the second time while the first
    scan awaits its batch write.  Two scans are then in flight; both found
    the new record from the same watermark, and once both have ended the
    watermark stands at 3 lines for a file of 2 records. *)
Lemma two_periodic_scans_in_flight :
  let line1 := Reference.record_line "a" "s1" "2024-01-01T00:00:00.000Z" "10" "5" "0.01" in
  let line2 := Reference.record_line "b" "s1" "2024-01-01T05:00:00.000Z" "7" "0" "0.02" in
  let o0 := Reference.disk 1000 (Js.records_text [line1]) 1500 in
  let o1 := Reference.disk 2000 (Js.records_text [line1; line2]) 2500 in
  let run := @run Reference.platform Reference.storage in
  let line_count s :=
    ProcessedFile.lastLineCount
      <$> World.processedFiles (Service.world s) !! Reference.log_path in
  let started :=
    run [Call_initialize OptionsArg.none;
         Resume 0 o0; Resume 0 o0; Resume 0 o0; Resume 0 o0]
      (Service.create Repository.empty) in
  let racing := run [Timer_fires; Resume 0 o1; Timer_fires; Resume 1 o1] started in
  let ended := run [Resume 0 o1; Resume 0 o1; Resume 0 o1; Resume 0 o1] racing in
  (Service.initialized started = true
   ∧ Service.scanIntervalTimer started = true
   ∧ Service.tasks started = []
   ∧ line_count started = Some 1%nat)
  ∧ (scans_in_flight racing = 2%nat
     ∧ map Task.method (Service.tasks racing) = [M_incrementalScan; M_incrementalScan])
  ∧ (Service.tasks ended = []
     ∧ line_count ended = Some 3%nat
     ∧ getTotalEntryCount (World.repository (Service.world ended)) = 2%nat).
Proof. vm_compute. repeat split. Qed.

(** A watcher started by a call of [startWatching] before [initialize]
    emits while the start-up scan runs: the call of [processModifiedFile]
    for a watch event reaches its scan with the start-up scan in flight. *)
Example watcher_started_before_initialize :
  let line1 := Reference.record_line "a" "s1" "2024-01-01T00:00:00.000Z" "10" "5" "0.01" in
  let o0 := Reference.disk 1000 (Js.records_text [line1]) 1500 in
  let s :=
    @run Reference.platform Reference.storage
      [Call_startWatching o0; Call_initialize OptionsArg.none;
       Resume 0 o0; Resume 0 o0;
       File_changed Reference.log_path; Resume 1 o0; Resume 1 o0]
      (Service.create Repository.empty) in
  Service.initialized s = false
  ∧ scans_in_flight s = 2%nat
  ∧ map Task.method (Service.tasks s)
    = [M_initialize; M_processModifiedFile Reference.log_path].
Proof. vm_compute. repeat split. Qed.

(** C10, amended: no trigger is skipped or queued.  A timer firing, while
    the timer is set, a manual [scanAndImport] and a call of
    [incrementalScan] each add a scan in flight, whatever is in flight
    already, and a watch event, while the watcher runs, starts
    [processModifiedFile] at once; the calls interleave at their awaits on
    the shared map.  A call of [startWatching] starts the watcher whenever
    there is a config directory, also before [initialize].  Only the
    start-up of a service that is left alone is exclusive: as long as
    [initialize] has not returned, the service does not start the timer or
    the watcher, and with one call of [initialize] and no call of
    [scanAndImport], [incrementalScan], [startWatching] or [dispose], at
    most one scan is in flight. *)
Theorem triggers_start_calls_at_once `{Platform} `{Storage} :
  (∀ s,
     Service.scanIntervalTimer s = true →
     scans_in_flight (step s Timer_fires) = S (scans_in_flight s))
  ∧ (∀ s, scans_in_flight (step s Call_scanAndImport) = S (scans_in_flight s))
  ∧ (∀ s, scans_in_flight (step s Call_incrementalScan) = S (scans_in_flight s))
  ∧ (∀ s filePath,
       Service.watching s = true →
       Service.tasks (step s (File_changed filePath)) =
         Service.tasks s ++ [Task.mk (M_processModifiedFile filePath) AtMetadata])
  ∧ (∀ s o,
       getClaudeConfigDirs o ≠ [] →
       Service.watching (step s (Call_startWatching o)) = true)
  ∧ (∀ db events,
       startup_events events →
       let s := run events (Service.create db) in
       Service.initialized s = false →
       (scans_in_flight s ≤ 1)%nat
       ∧ Service.scanIntervalTimer s = false
       ∧ Service.watching s = false).
Proof.
  split_and!.
  - intros s Htimer. cbn [step]. rewrite Htimer, scans_in_flight_spawn.
    cbn. lia.
  - intros s. cbn [step]. rewrite scans_in_flight_spawn. cbn. lia.
  - intros s. cbn [step]. rewrite scans_in_flight_spawn. cbn. lia.
  - intros s filePath Hwatch. cbn [step]. by rewrite Hwatch.
  - intros s o Hdirs. cbn [step Service.watching].
    rewrite (bool_decide_eq_false_2 _ Hdirs). apply orb_true_r.
  - intros db events [Hevents Hcount] s Hinit.
    assert (Hstart : starting false (Service.create db)).
    { repeat split. by left. }
    destruct (run_startup events false _ Hevents Hcount Hstart)
      as [Hdone|(called & _ & Htimer & Hwatch & Htasks)].
    + fold s in Hdone. congruence.
    + fold s in Htimer, Hwatch, Htasks. split_and!; [|exact Htimer|exact Hwatch].
      unfold scans_in_flight.
      destruct Htasks as [->|(_ & point & ->)]; [cbn; lia|].
      etransitivity; [apply length_filter|]. cbn. lia.
Qed.

Lemma triggers_start_calls_at_once_witness :
  let line1 := Reference.record_line "a" "s1" "2024-01-01T00:00:00.000Z" "10" "5" "0.01" in
  let o0 := Reference.disk 1000 (Js.records_text [line1]) 1500 in
  let started :=
    @run Reference.platform Reference.storage
      [Call_initialize OptionsArg.none;
       Resume 0 o0; Resume 0 o0; Resume 0 o0; Resume 0 o0]
      (Service.create Repository.empty) in
  let in_flight :=
    @step Reference.platform Reference.storage
      (@step Reference.platform Reference.storage started Timer_fires) Timer_fires in
  Service.scanIntervalTimer started = true
  ∧ scans_in_flight in_flight = 2%nat.
Proof.
  intros line1 o0 started in_flight.
  assert (Htimer : Service.scanIntervalTimer started = true) by (vm_compute; reflexivity).
  split; [exact Htimer|].
  subst in_flight.
  rewrite (proj1 (@triggers_start_calls_at_once Reference.platform Reference.storage)).
  - rewrite (proj1 (@triggers_start_calls_at_once Reference.platform Reference.storage))
      by exact Htimer.
    vm_compute. reflexivity.
  - vm_compute. reflexivity.
Defined.

(** * Further properties *)

(** ** The parser, line by line *)

Lemma split_on_app sep (a b : string) :
  Js.split_on sep (a +:+ String sep b) = Js.split_on sep a ++ Js.split_on sep b.
Proof.
  induction a as [|c a IH].
  - rewrite append_nil. simpl. by rewrite Ascii.eqb_refl.
  - rewrite append_cons. simpl. rewrite IH.
    destruct (Ascii.eqb c sep); [reflexivity|].
    pose proof (split_on_not_nil sep a) as Hne.
    by destruct (Js.split_on sep a).
Qed.

Section ParserMore.
Context `{Platform}.

Lemma parseRaw_entry_or_error raw f p m ln :
  match parseRaw raw f p m ln with
  | ParseOutcome.mk (Some e) None =>
      Entry.filePath e = f ∧ Entry.projectPath e = p ∧ Entry.fileModifiedAt e = m
  | ParseOutcome.mk None (Some err) =>
      ScanError.filePath err = f ∧ ScanError.line err = ln
  | _ => False
  end.
Proof.
  unfold parseRaw. destruct (_ || _ || _); [done|].
  by destruct (Date_getTime _).
Qed.

(** X1: [parseLine] never returns both an entry and an error.  It returns
    neither exactly when the line is blank; an entry carries the file
    path, the project path and the modification time it was given, an
    error the file path and the line number it was given. *)
Theorem parseLine_entry_or_error (line f p : string) (m : Z) (ln : option nat) :
  match parseLine line f p m ln with
  | ParseOutcome.mk None None => Js.trim line = EmptyString
  | ParseOutcome.mk (Some e) None =>
      Js.trim line ≠ EmptyString
      ∧ Entry.filePath e = f ∧ Entry.projectPath e = p ∧ Entry.fileModifiedAt e = m
  | ParseOutcome.mk None (Some err) =>
      Js.trim line ≠ EmptyString
      ∧ ScanError.filePath err = f ∧ ScanError.line err = ln
  | ParseOutcome.mk (Some _) (Some _) => False
  end.
Proof.
  unfold parseLine.
  destruct (String.eqb_spec (Js.trim line) EmptyString) as [E|E]; [exact E|].
  destruct (JSON_parse (Js.trim line)) as [message| |raw]; [done | done |].
  pose proof (parseRaw_entry_or_error raw f p m ln) as Hraw.
  destruct (parseRaw raw f p m ln) as [[e|] [err|]]; done.
Qed.

Lemma line_outcomes_cons first l lines f p m :
  line_outcomes first (l :: lines) f p m =
    parseLine l f p m (Some (first + 1)%nat) :: line_outcomes (S first) lines f p m.
Proof.
  change (l :: lines) with ([l] ++ lines). rewrite line_outcomes_app.
  unfold line_outcomes at 1. cbn [imap app length].
  by rewrite Nat.add_0_r, Nat.add_1_r.
Qed.

Lemma parseLine_counts line f p m ln :
  (length (option_list (ParseOutcome.entry (parseLine line f p m ln)))
   + length (option_list (ParseOutcome.error (parseLine line f p m ln))))%nat
  = if non_blank line then 1%nat else 0%nat.
Proof.
  pose proof (parseLine_entry_or_error line f p m ln) as Hone.
  unfold non_blank.
  destruct (parseLine line f p m ln) as [[e|] [err|]]; cbn [ParseOutcome.entry ParseOutcome.error].
  - done.
  - destruct Hone as [Hne _]. by apply String.eqb_neq in Hne as ->.
  - destruct Hone as [Hne _]. by apply String.eqb_neq in Hne as ->.
  - by rewrite Hone.
Qed.

Lemma line_outcomes_counts first lines f p m :
  (length (omap ParseOutcome.entry (line_outcomes first lines f p m))
   + length (omap ParseOutcome.error (line_outcomes first lines f p m)))%nat
  = length (filter (fun l => non_blank l = true) lines).
Proof.
  revert first. induction lines as [|l lines IH]; intros first; [reflexivity|].
  rewrite line_outcomes_cons. cbn [omap list_omap].
  pose proof (parseLine_counts l f p m (Some (first + 1)%nat)) as Hl.
  specialize (IH (S first)).
  destruct (non_blank l) eqn:E.
  - rewrite (filter_cons_True _ l lines) by done.
    destruct (ParseOutcome.entry _), (ParseOutcome.error _);
      simpl in Hl |- *; lia.
  - rewrite (filter_cons_False _ l lines) by (rewrite E; done).
    destruct (ParseOutcome.entry _), (ParseOutcome.error _);
      simpl in Hl |- *; lia.
Qed.

(** X2: every line that is not blank gives one entry or one error, and a
    blank line gives nothing: the entries and the errors of a text are
    together as many as its lines that are not blank, and those of a
    parse from a line on as many as the non-blank lines from there on. *)
Theorem every_line_is_accounted_for (content f p : string) (m : Z) (startLine : nat) :
  let lines := Js.split_lines content in
  (length (Parsed.entries (parseJSONLContent content f p m))
   + length (Parsed.errors (parseJSONLContent content f p m)))%nat
  = length (filter (fun l => non_blank l = true) lines)
  ∧
  (length (ParsedFrom.entries (parseJSONLContentFromLine content f p m startLine))
   + length (ParsedFrom.errors (parseJSONLContentFromLine content f p m startLine)))%nat
  = length (filter (fun l => non_blank l = true) (drop startLine lines)).
Proof.
  cbv zeta.
  rewrite parseJSONLContent_outcomes, parseJSONLContentFromLine_outcomes.
  cbn [Parsed.entries Parsed.errors ParsedFrom.entries ParsedFrom.errors].
  split; apply line_outcomes_counts.
Qed.

Lemma line_outcomes_lookup first lines f p m k r :
  line_outcomes first lines f p m !! k = Some r →
  ∃ line, lines !! k = Some line
          ∧ r = parseLine line f p m (Some (first + k + 1)%nat).
Proof.
  unfold line_outcomes. rewrite list_lookup_imap.
  destruct (lines !! k) as [line|]; [|done].
  intros [= <-]. by exists line.
Qed.

Lemma line_outcomes_error first lines f p m err :
  err ∈ omap ParseOutcome.error (line_outcomes first lines f p m) →
  ∃ k line,
    lines !! k = Some line
    ∧ ParseOutcome.error (parseLine line f p m (Some (first + k + 1)%nat)) = Some err
    ∧ ScanError.filePath err = f
    ∧ ScanError.line err = Some (first + k + 1)%nat.
Proof.
  intros Hin. apply list_elem_of_omap in Hin as (r & Hr & Herr).
  apply list_elem_of_lookup in Hr as [k Hk].
  apply line_outcomes_lookup in Hk as (line & Hline & ->).
  exists k, line. split_and!; [exact Hline | exact Herr | |].
  - pose proof (parseLine_entry_or_error line f p m (Some (first + k + 1)%nat)) as Hone.
    destruct (parseLine line f p m _) as [[e|] [err'|]];
      cbn [ParseOutcome.error] in Herr; try done.
    injection Herr as ->. tauto.
  - pose proof (parseLine_entry_or_error line f p m (Some (first + k + 1)%nat)) as Hone.
    destruct (parseLine line f p m _) as [[e|] [err'|]];
      cbn [ParseOutcome.error] in Herr; try done.
    injection Herr as ->. tauto.
Qed.

(** X3: an error of a batch names its file and the line it comes from,
    counted from 1 in the whole text, also when the parse starts at an
    offset: the number lies past the offset and within the text, and the
    line with that number is the one whose parse gave the error. *)
Theorem errors_name_their_lines (content f p : string) (m : Z) :
  (∀ err,
     err ∈ Parsed.errors (parseJSONLContent content f p m) →
     ∃ n line,
       ScanError.filePath err = f ∧ ScanError.line err = Some n
       ∧ (0 < n ≤ length (Js.split_lines content))%nat
       ∧ Js.split_lines content !! (n - 1)%nat = Some line
       ∧ ParseOutcome.error (parseLine line f p m (Some n)) = Some err)
  ∧ (∀ startLine err,
       err ∈ ParsedFrom.errors (parseJSONLContentFromLine content f p m startLine) →
       ∃ n line,
         ScanError.filePath err = f ∧ ScanError.line err = Some n
         ∧ (startLine < n ≤ length (Js.split_lines content))%nat
         ∧ Js.split_lines content !! (n - 1)%nat = Some line
         ∧ ParseOutcome.error (parseLine line f p m (Some n)) = Some err).
Proof.
  assert (Hfrom : ∀ startLine err,
    err ∈ omap ParseOutcome.error
            (line_outcomes startLine (drop startLine (Js.split_lines content)) f p m) →
    ∃ n line,
      ScanError.filePath err = f ∧ ScanError.line err = Some n
      ∧ (startLine < n ≤ length (Js.split_lines content))%nat
      ∧ Js.split_lines content !! (n - 1)%nat = Some line
      ∧ ParseOutcome.error (parseLine line f p m (Some n)) = Some err).
  { intros startLine err Hin.
    apply line_outcomes_error in Hin as (k & line & Hline & Herr & Hf & Hn).
    rewrite lookup_drop in Hline.
    pose proof (lookup_lt_Some _ _ _ Hline) as Hlt.
    exists (startLine + k + 1)%nat, line. split_and!; try done; try lia.
    by replace (startLine + k + 1 - 1)%nat with (startLine + k)%nat by lia. }
  split.
  - intros err. rewrite parseJSONLContent_outcomes. cbn [Parsed.errors].
    intros Hin. apply (Hfrom 0%nat). by rewrite drop_0.
  - intros startLine err. rewrite parseJSONLContentFromLine_outcomes.
    cbn [ParsedFrom.errors]. apply Hfrom.
Qed.

(** X4: the two ends of the offset.  From line 0 the from-line variant
    yields what the full variant yields; from the number of lines on, or
    from any offset past it, it yields nothing and still counts the lines
    of the whole text. *)
Theorem parseJSONLContentFromLine_at_the_ends (content f p : string) (m : Z) (k : nat) :
  let lineCount := length (Js.split_lines content) in
  let whole := parseJSONLContentFromLine content f p m 0 in
  let nothing := parseJSONLContentFromLine content f p m (lineCount + k) in
  ParsedFrom.entries whole = Parsed.entries (parseJSONLContent content f p m)
  ∧ ParsedFrom.errors whole = Parsed.errors (parseJSONLContent content f p m)
  ∧ nothing = ParsedFrom.mk [] [] lineCount.
Proof.
  cbv zeta.
  rewrite parseJSONLContent_outcomes, !parseJSONLContentFromLine_outcomes.
  rewrite drop_0. cbn [ParsedFrom.entries ParsedFrom.errors Parsed.entries Parsed.errors].
  split_and!; [reflexivity | reflexivity |].
  by rewrite drop_ge by lia.
Qed.

(** X5: parsing can be resumed after a line feed.  For a text [a], a line
    feed and a text [b], the parse of the whole is the parse of [a]
    followed by the parse of the whole from the number of lines of [a] on,
    which is the count the from-line variant reports for [a]; and that
    second parse is the one of the lines of [b], numbered on from there. *)
Theorem parsing_resumes_after_a_line_feed (a b f p : string) (m : Z) :
  let whole := a +:+ String Js.newline b in
  let startLine := ParsedFrom.lineCount (parseJSONLContentFromLine a f p m 0) in
  let old := parseJSONLContent a f p m in
  let new := parseJSONLContentFromLine whole f p m startLine in
  startLine = length (Js.split_lines a)
  ∧ Parsed.entries (parseJSONLContent whole f p m)
    = Parsed.entries old ++ ParsedFrom.entries new
  ∧ Parsed.errors (parseJSONLContent whole f p m)
    = Parsed.errors old ++ ParsedFrom.errors new
  ∧ ParsedFrom.entries new
    = omap ParseOutcome.entry (line_outcomes startLine (Js.split_lines b) f p m)
  ∧ ParsedFrom.errors new
    = omap ParseOutcome.error (line_outcomes startLine (Js.split_lines b) f p m)
  ∧ ParsedFrom.lineCount new = (startLine + length (Js.split_lines b))%nat.
Proof.
  cbv zeta.
  rewrite !parseJSONLContent_outcomes, !parseJSONLContentFromLine_outcomes.
  cbn [ParsedFrom.entries ParsedFrom.errors ParsedFrom.lineCount
       Parsed.entries Parsed.errors].
  unfold Js.split_lines. rewrite split_on_app.
  rewrite drop_app_length, line_outcomes_app, !omap_app, length_app.
  by split_and!.
Qed.

End ParserMore.

Lemma errors_name_their_lines_witness :
  let line := Reference.record_line "a" "s1" "2024-01-01T00:00:00.000Z" "10" "5" "0.01" in
  let content := line +:+ String Js.newline "not json" in
  ∃ err n text,
    err ∈ ParsedFrom.errors
            (@parseJSONLContentFromLine Reference.platform content "/f.jsonl" "p" 0 1)
    ∧ ScanError.line err = Some n
    ∧ (1 < n ≤ length (Js.split_lines content))%nat
    ∧ Js.split_lines content !! (n - 1)%nat = Some text.
Proof.
  intros line content.
  set (err := ScanError.mk "/f.jsonl" (Some 2%nat)
                ("JSON parse error: "
                 +:+ match @JSON_parse Reference.platform "not json" with
                     | JSON_throws message => message
                     | _ => EmptyString
                     end)).
  assert (Hin : err ∈ ParsedFrom.errors
            (@parseJSONLContentFromLine Reference.platform content "/f.jsonl" "p" 0 1)).
  { vm_compute. left. }
  destruct (proj2 (@errors_name_their_lines Reference.platform content "/f.jsonl" "p" 0)
              1%nat err Hin) as (n & text & _ & Hn & Hrange & Htext & _).
  exists err, n, text. exact (conj Hin (conj Hn (conj Hrange Htext))).
Defined.

(** ** Paths *)

Lemma join_with_cons_char sep c l ls :
  Js.join_with sep (String c l :: ls) = String c (Js.join_with sep (l :: ls)).
Proof. destruct ls; reflexivity. Qed.

Lemma join_with_cons sep p q qs :
  Js.join_with sep (p :: q :: qs) = p +:+ sep +:+ Js.join_with sep (q :: qs).
Proof. reflexivity. Qed.

(** [split] then [join] on the same separator gives the string back. *)
Lemma join_with_split_on sep s :
  Js.join_with (String sep EmptyString) (Js.split_on sep s) = s.
Proof.
  induction s as [|c s IH]; [reflexivity|].
  cbn [Js.split_on].
  destruct (Ascii.eqb_spec c sep) as [->|Hne].
  - pose proof (split_on_not_nil sep s) as Hnil.
    destruct (Js.split_on sep s) as [|l ls] eqn:E; [done|].
    by rewrite join_with_cons, IH.
  - pose proof (split_on_not_nil sep s) as Hnil.
    destruct (Js.split_on sep s) as [|l ls] eqn:E; [done|].
    by rewrite join_with_cons_char, IH.
Qed.

Lemma startsWith_app (p rest : string) : Js.startsWith (p +:+ rest) p = true.
Proof.
  unfold Js.startsWith.
  induction p as [|c p IH]; [by destruct rest|].
  rewrite append_cons. cbn [String.prefix].
  by destruct (ascii_dec c c).
Qed.

Lemma substring_from_app (p : string) c (rest : string) :
  Js.substring_from (String.length p + 1) (p +:+ String c rest) = rest.
Proof.
  induction p as [|x p IH]; [reflexivity|].
  rewrite append_cons. exact IH.
Qed.

Lemma drop_last_snoc (parts : list string) (x : string) :
  drop_last (parts ++ [x]) = parts.
Proof.
  unfold drop_last. rewrite length_app. cbn [length].
  replace (length parts + 1 - 1)%nat with (length parts) by lia.
  by rewrite take_app_length.
Qed.

Section PathsMore.
Context `{Platform}.

(** X6: the project of a log file.  For a file path made of the projects
    directory of a config directory, one character (the separator), a
    project path, a slash and a file name without slash, where no config
    directory earlier in the list has a projects directory that starts the
    path, [extractProjectPath] gives the project path back, with the
    slashes it has.  The character after the projects directory is not
    looked at. *)
Theorem extractProjectPath_of_a_log_file
    (before : list string) (configDir : string) (rest : list string)
    (c : ascii) (project name : string) :
  let filePath :=
    getProjectsDir configDir +:+ String c (project +:+ String "/" name) in
  Forall (fun d => Js.startsWith filePath (getProjectsDir d) = false) before →
  Js.includes_char name "/" = false →
  extractProjectPath filePath (before ++ configDir :: rest) = project.
Proof.
  intros filePath Hbefore Hname.
  induction Hbefore as [|d before Hd _ IH]; cbn [app extractProjectPath].
  - unfold filePath. rewrite startsWith_app, substring_from_app.
    rewrite split_on_app, (split_on_whole _ name) by exact Hname.
    rewrite length_app, drop_last_snoc. cbn [length].
    pose proof (split_on_not_nil "/" project) as Hnil.
    destruct (Js.split_on "/" project) as [|l ls] eqn:E; [done|].
    replace (1 <? length (l :: ls) + 1)%nat with true
      by (symmetry; apply Nat.ltb_lt; cbn [length]; lia).
    rewrite <- E. apply (join_with_split_on "/").
  - by rewrite Hd.
Qed.

(** X7: when no config directory of the list has a projects directory
    that starts the path, or when what follows that directory and one
    more character holds no slash (the file lies in the projects directory
    itself), the project is ["unknown"]. *)
Theorem extractProjectPath_unknown (filePath : string) (configDirs : list string) :
  Forall (fun d =>
            Js.startsWith filePath (getProjectsDir d) = false
            ∨ Js.includes_char
                (Js.substring_from (String.length (getProjectsDir d) + 1) filePath)
                "/" = false) configDirs →
  extractProjectPath filePath configDirs = "unknown".
Proof.
  induction 1 as [|d configDirs Hd _ IH]; [reflexivity|].
  cbn [extractProjectPath]. rewrite IH.
  destruct Hd as [-> | Hslash]; [reflexivity|].
  destruct (Js.startsWith _ _); [|reflexivity].
  rewrite split_on_length.
  unfold Js.includes_char in Hslash. apply negb_false_iff, Nat.eqb_eq in Hslash.
  by rewrite Hslash.
Qed.

(** X8: the config directories, in every environment.  The result holds
    exactly the candidate paths that exist, the candidates being the
    override paths and the two fallback locations; the override paths that
    exist come first, in their order; a list of override paths without
    repetition gives a result without repetition; and without an override
    there are two directories at most. *)
Theorem getClaudeConfigDirs_holds_the_existing_candidates (o : Outside.t) :
  let existing :=
    filter (fun p => Outside.existsSync o p = true) (override_paths o) in
  (∀ p, p ∈ getClaudeConfigDirs o ↔
        Outside.existsSync o p = true
        ∧ (p ∈ override_paths o ∨ p ∈ fallback_paths o))
  ∧ existing `prefix_of` getClaudeConfigDirs o
  ∧ (NoDup existing → NoDup (getClaudeConfigDirs o))
  ∧ (length existing ≤ length (getClaudeConfigDirs o) ≤ length existing + 2)%nat.
Proof.
  cbv zeta. split_and!.
  - apply getClaudeConfigDirs_members.
  - apply getClaudeConfigDirs_override_first.
  - apply getClaudeConfigDirs_NoDup.
  - rewrite getClaudeConfigDirs_shape. unfold fallback_paths. cbn [foldl].
    unfold push_fallback.
    repeat (destruct (_ && _); rewrite ?length_app; cbn [length]); lia.
  - rewrite getClaudeConfigDirs_shape. unfold fallback_paths. cbn [foldl].
    unfold push_fallback.
    repeat (destruct (_ && _); rewrite ?length_app; cbn [length]); lia.
Qed.

End PathsMore.

Lemma extractProjectPath_of_a_log_file_witness :
  let filePath :=
    @getProjectsDir Reference.platform "/home/u/.claude"
    +:+ String "/" ("team/app" +:+ String "/" "s.jsonl") in
  Forall (fun d => Js.startsWith filePath (@getProjectsDir Reference.platform d) = false)
    ["/data"]
  ∧ @extractProjectPath Reference.platform filePath ["/data"; "/home/u/.claude"]
    = "team/app".
Proof.
  intros filePath.
  assert (Hbefore :
    Forall (fun d => Js.startsWith filePath (@getProjectsDir Reference.platform d) = false)
      ["/data"]).
  { constructor; [vm_compute; reflexivity | constructor]. }
  split; [exact Hbefore|].
  refine (@extractProjectPath_of_a_log_file Reference.platform ["/data"]
            "/home/u/.claude" [] "/" "team/app" "s.jsonl" Hbefore _).
  vm_compute. reflexivity.
Defined.

Lemma extractProjectPath_unknown_witness :
  @extractProjectPath Reference.platform "/home/u/.claude/projects/s.jsonl"
    ["/data"; "/home/u/.claude"] = "unknown".
Proof.
  refine (@extractProjectPath_unknown Reference.platform _ _ _).
  constructor; [left; vm_compute; reflexivity|].
  constructor; [right; vm_compute; reflexivity|].
  constructor.
Defined.

Lemma getClaudeConfigDirs_holds_the_existing_candidates_witness :
  let o :=
    Outside.mk (Some "/data, /mnt/logs") "/home/u"
      (fun p => String.eqb p "/data" || String.eqb p "/home/u/.claude")
      (fun _ => None) (fun _ => Reference.no_such_file)
      (fun _ => Reference.no_such_file) 0 in
  NoDup (filter (fun p => Outside.existsSync o p = true)
           (@override_paths o))
  ∧ NoDup (@getClaudeConfigDirs Reference.platform o).
Proof.
  intros o.
  assert (Hexisting :
    NoDup (filter (fun p => Outside.existsSync o p = true) (@override_paths o))).
  { change (NoDup ["/data"]). apply NoDup_singleton. }
  split; [exact Hexisting|].
  exact (proj1 (proj2 (proj2
           (@getClaudeConfigDirs_holds_the_existing_candidates Reference.platform o)))
           Hexisting).
Defined.

(** ** The scanner, file by file *)

Lemma sum_list_indicator {A} (P : A → bool) (l : list A) :
  sum_list (map (fun x => if P x then 1%nat else 0%nat) l)
  = length (filter (fun x => P x = true) l).
Proof.
  induction l as [|x l IH]; [reflexivity|].
  cbn [map sum_list]. rewrite IH.
  destruct (P x) eqn:E.
  - by rewrite (filter_cons_True _ x l) by done.
  - by rewrite (filter_cons_False _ x l) by (rewrite E; done).
Qed.

Lemma length_filter_false {A} (P : A → bool) (l : list A) :
  (length (filter (fun x => P x = true) l)
   + length (filter (fun x => P x = false) l))%nat = length l.
Proof.
  induction l as [|x l IH]; [reflexivity|].
  destruct (P x) eqn:E.
  - rewrite (filter_cons_True (fun x => P x = true) x l) by done.
    rewrite (filter_cons_False (fun x => P x = false) x l) by (rewrite E; done).
    cbn [length]. lia.
  - rewrite (filter_cons_False (fun x => P x = true) x l) by (rewrite E; done).
    rewrite (filter_cons_True (fun x => P x = false) x l) by done.
    cbn [length]. lia.
Qed.

Lemma filter_all {A} (P : A → Prop) `{∀ x, Decision (P x)} (l : list A) :
  Forall P l → filter P l = l.
Proof.
  induction 1 as [|x l Hx _ IH]; [reflexivity|].
  by rewrite filter_cons_True, IH.
Qed.

Lemma filter_none {A} (P : A → Prop) `{∀ x, Decision (P x)} (l : list A) :
  Forall (fun x => ¬ P x) l → filter P l = [].
Proof.
  induction 1 as [|x l Hx _ IH]; [reflexivity|].
  by rewrite filter_cons_False.
Qed.

(** The elements of a list made file by file that belong to one file. *)
Lemma filter_flat_map_other {A} (key : A → string) (F : string → list A)
    (files : list string) (f : string) :
  (∀ g, Forall (fun x => key x = g) (F g)) →
  f ∉ files →
  filter (fun x => key x = f) (flat_map F files) = [].
Proof.
  intros Hkey. induction files as [|g files IH]; intros Hf; [reflexivity|].
  apply not_elem_of_cons in Hf as [Hne Hf].
  cbn [flat_map]. rewrite filter_app, IH by exact Hf.
  rewrite app_nil_r. apply filter_none.
  eapply Forall_impl; [apply Hkey|]. intros x -> Hx. by apply Hne.
Qed.

Lemma filter_flat_map_own {A} (key : A → string) (F : string → list A)
    (files : list string) (f : string) :
  (∀ g, Forall (fun x => key x = g) (F g)) →
  NoDup files → f ∈ files →
  filter (fun x => key x = f) (flat_map F files) = F f.
Proof.
  intros Hkey Hnodup. induction Hnodup as [|g files Hg Hnodup IH]; intros Hf.
  - by apply elem_of_nil in Hf.
  - cbn [flat_map]. rewrite filter_app.
    destruct (decide (g = f)) as [->|Hne].
    + rewrite (filter_flat_map_other key F files f Hkey Hg), app_nil_r.
      apply filter_all, Hkey.
    + apply elem_of_cons in Hf as [->|Hf]; [done|].
      rewrite IH by exact Hf.
      replace (filter (fun x => key x = f) (F g)) with (@nil A); [reflexivity|].
      symmetry. apply filter_none.
      eapply Forall_impl; [apply Hkey|]. intros x -> Hx. by apply Hne.
Qed.

Lemma flat_map_nil_elem {A B} (F : A → list B) (l : list A) (x : A) :
  flat_map F l = [] → x ∈ l → F x = [].
Proof.
  induction l as [|y l IH]; intros Hnil Hx; [by apply elem_of_nil in Hx|].
  cbn [flat_map] in Hnil. apply app_eq_nil in Hnil as [Hy Hl].
  apply elem_of_cons in Hx as [->|Hx]; [exact Hy | by apply IH].
Qed.

Lemma flat_map_all_nil {A B} (F : A → list B) (l : list A) :
  (∀ x, x ∈ l → F x = []) → flat_map F l = [].
Proof.
  induction l as [|y l IH]; intros Hall; [reflexivity|].
  cbn [flat_map]. rewrite (Hall y) by left. apply IH.
  intros x Hx. apply Hall. by right.
Qed.

Section ScannerMore.
Context `{Platform}.

(** A loop over files whose body adds to the accumulators what the file
    gives on its own. *)
Lemma foldl_per_file (per_file : string → Acc.t → Acc.t) (files : list string)
    (a : Acc.t) :
  (∀ f a, per_file f a =
          Acc.mk (Acc.entries a ++ Acc.entries (per_file f Acc.empty))
            (Acc.errors a ++ Acc.errors (per_file f Acc.empty))
            (Acc.filesProcessed a + Acc.filesProcessed (per_file f Acc.empty))
            (Acc.filesSkipped a + Acc.filesSkipped (per_file f Acc.empty))) →
  foldl (fun a f => per_file f a) a files =
    Acc.mk
      (Acc.entries a ++ flat_map (fun f => Acc.entries (per_file f Acc.empty)) files)
      (Acc.errors a ++ flat_map (fun f => Acc.errors (per_file f Acc.empty)) files)
      (Acc.filesProcessed a
       + sum_list (map (fun f => Acc.filesProcessed (per_file f Acc.empty)) files))
      (Acc.filesSkipped a
       + sum_list (map (fun f => Acc.filesSkipped (per_file f Acc.empty)) files)).
Proof.
  intros Hadds. revert a.
  induction files as [|f files IH]; intros a.
  - destruct a. cbn. by rewrite !app_nil_r, !Nat.add_0_r.
  - cbn [foldl flat_map map sum_list]. rewrite IH, (Hadds f a).
    cbn [Acc.entries Acc.errors Acc.filesProcessed Acc.filesSkipped].
    rewrite <- !app_assoc. unfold id. f_equal; lia.
Qed.

Lemma scan_file_adds o configDirs f a :
  scan_file o configDirs f a =
    let alone := scan_file o configDirs f Acc.empty in
    Acc.mk (Acc.entries a ++ Acc.entries alone) (Acc.errors a ++ Acc.errors alone)
      (Acc.filesProcessed a + Acc.filesProcessed alone)
      (Acc.filesSkipped a + Acc.filesSkipped alone).
Proof.
  cbv zeta. unfold scan_file, failed_to_read, processed.
  destruct (Outside.stat o f); [destruct (Outside.readFile o f)|];
    destruct a; cbn; rewrite ?app_nil_r; f_equal; lia.
Qed.

Lemma scan_modified_file_alone o configDirs processedFiles f a :
  scan_modified_file o configDirs processedFiles f a =
    let alone := scan_modified_file o configDirs processedFiles f Acc.empty in
    Acc.mk (Acc.entries a ++ Acc.entries alone) (Acc.errors a ++ Acc.errors alone)
      (Acc.filesProcessed a + Acc.filesProcessed alone)
      (Acc.filesSkipped a + Acc.filesSkipped alone).
Proof.
  cbv zeta. unfold scan_modified_file, failed_to_read, processed, skipped.
  destruct (Outside.stat o f); [|destruct a; cbn; rewrite ?app_nil_r; f_equal; lia].
  destruct (match processedFiles !! f with Some _ => _ | None => _ end);
    [destruct a; cbn; rewrite ?app_nil_r; f_equal; lia|].
  destruct (Outside.readFile o f); [|destruct a; cbn; rewrite ?app_nil_r; f_equal; lia].
  destruct (match processedFiles !! f with Some _ => _ | None => _ end);
    destruct a; cbn; rewrite ?app_nil_r; f_equal; lia.
Qed.

Lemma scan_result_of_scan_dirs o per_file :
  scan_result (getClaudeConfigDirs o) (scan_dirs o (getClaudeConfigDirs o) per_file) =
    let a := foldl (fun a f => per_file f a) Acc.empty (discovered o) in
    ScanResult.mk (Acc.entries a) (Acc.filesProcessed a) (Acc.filesSkipped a)
      (length (Acc.entries a)) (Acc.errors a) (getClaudeConfigDirs o).
Proof.
  cbv zeta. rewrite scan_dirs_discovered. unfold scan_result, discovered.
  by destruct (getClaudeConfigDirs o).
Qed.

Lemma scan_file_counts o configDirs f :
  Acc.filesProcessed (scan_file o configDirs f Acc.empty)
  = (if readable o f then 1%nat else 0%nat)
  ∧ Acc.filesSkipped (scan_file o configDirs f Acc.empty)
    = (if negb (readable o f) then 1%nat else 0%nat).
Proof.
  unfold scan_file, readable.
  by destruct (Outside.stat o f); [destruct (Outside.readFile o f)|].
Qed.

Lemma scan_modified_file_counts o configDirs processedFiles f :
  let changed := readable o f && negb (unchanged o processedFiles f) in
  Acc.filesProcessed (scan_modified_file o configDirs processedFiles f Acc.empty)
  = (if changed then 1%nat else 0%nat)
  ∧ Acc.filesSkipped (scan_modified_file o configDirs processedFiles f Acc.empty)
    = (if negb changed then 1%nat else 0%nat).
Proof.
  cbv zeta. unfold scan_modified_file, readable, unchanged.
  destruct (Outside.stat o f) as [fileStat|]; [|done].
  destruct (processedFiles !! f) as [file|].
  - destruct (_ && _).
    + by destruct (Outside.readFile o f).
    + destruct (Outside.readFile o f); [|done].
      by destruct (0 <? ProcessedFile.lastLineCount file)%nat.
  - by destruct (Outside.readFile o f).
Qed.

(** X9: a scan counts every file it finds once, as processed or as
    skipped.  The full scan processes the files that can be read and
    skips the others; the incremental scan processes the files that can
    be read and whose watermark, if any, no longer matches, and skips the
    others; and [entriesFound] is the number of entries returned. *)
Theorem every_file_is_processed_or_skipped (o : Outside.t)
    (processedFiles : gmap string ProcessedFile) :
  let files := discovered o in
  let full := scanAllJSONLFiles o in
  let modified := scanModifiedFiles o processedFiles in
  ScanResult.filesProcessed full
  = length (filter (fun f => readable o f = true) files)
  ∧ ScanResult.filesSkipped full
    = length (filter (fun f => readable o f = false) files)
  ∧ ScanResult.filesProcessed modified
    = length (filter (fun f => readable o f
                               && negb (unchanged o processedFiles f) = true) files)
  ∧ ScanResult.filesSkipped modified
    = length (filter (fun f => readable o f
                               && negb (unchanged o processedFiles f) = false) files)
  ∧ (ScanResult.filesProcessed full + ScanResult.filesSkipped full)%nat = length files
  ∧ (ScanResult.filesProcessed modified + ScanResult.filesSkipped modified)%nat
    = length files
  ∧ ScanResult.entriesFound full = length (ScanResult.entries full)
  ∧ ScanResult.entriesFound modified = length (ScanResult.entries modified).
Proof.
  cbv zeta. unfold scanAllJSONLFiles, scanModifiedFiles.
  rewrite !scan_result_of_scan_dirs. cbv zeta.
  cbn [ScanResult.filesProcessed ScanResult.filesSkipped ScanResult.entriesFound
       ScanResult.entries].
  rewrite (foldl_per_file (scan_file o (getClaudeConfigDirs o)))
    by (intros; apply scan_file_adds).
  rewrite (foldl_per_file (scan_modified_file o (getClaudeConfigDirs o) processedFiles))
    by (intros; apply scan_modified_file_alone).
  cbn [Acc.filesProcessed Acc.filesSkipped Acc.entries Acc.empty Nat.add].
  assert (Hfull_p :
    sum_list (map (fun f => Acc.filesProcessed
                              (scan_file o (getClaudeConfigDirs o) f Acc.empty))
                (discovered o))
    = length (filter (fun f => readable o f = true) (discovered o))).
  { rewrite <- sum_list_indicator. f_equal. apply map_ext. intros f.
    apply scan_file_counts. }
  assert (Hfull_s :
    sum_list (map (fun f => Acc.filesSkipped
                              (scan_file o (getClaudeConfigDirs o) f Acc.empty))
                (discovered o))
    = length (filter (fun f => readable o f = false) (discovered o))).
  { transitivity (sum_list (map (fun f => if negb (readable o f) then 1%nat else 0%nat)
                              (discovered o))).
    - f_equal. apply map_ext. intros f. apply scan_file_counts.
    - rewrite sum_list_indicator.
      f_equal. apply list_filter_iff. intros f. by destruct (readable o f). }
  set (changed := fun f => readable o f && negb (unchanged o processedFiles f)).
  assert (Hmod_p :
    sum_list (map (fun f => Acc.filesProcessed
                              (scan_modified_file o (getClaudeConfigDirs o)
                                 processedFiles f Acc.empty))
                (discovered o))
    = length (filter (fun f => changed f = true) (discovered o))).
  { rewrite <- sum_list_indicator. f_equal. apply map_ext. intros f.
    apply scan_modified_file_counts. }
  assert (Hmod_s :
    sum_list (map (fun f => Acc.filesSkipped
                              (scan_modified_file o (getClaudeConfigDirs o)
                                 processedFiles f Acc.empty))
                (discovered o))
    = length (filter (fun f => changed f = false) (discovered o))).
  { transitivity (sum_list (map (fun f => if negb (changed f) then 1%nat else 0%nat)
                              (discovered o))).
    - f_equal. apply map_ext. intros f. apply scan_modified_file_counts.
    - rewrite sum_list_indicator.
      f_equal. apply list_filter_iff. intros f. by destruct (changed f). }
  rewrite Hfull_p, Hfull_s, Hmod_p, Hmod_s.
  pose proof (length_filter_false (readable o) (discovered o)).
  pose proof (length_filter_false changed (discovered o)).
  by split_and!.
Qed.

Lemma scan_modified_file_same_lookup o configDirs processedFiles processedFiles' f a :
  processedFiles !! f = processedFiles' !! f →
  scan_modified_file o configDirs processedFiles f a
  = scan_modified_file o configDirs processedFiles' f a.
Proof. unfold scan_modified_file. by intros ->. Qed.

Lemma scan_modified_file_no_watermark o configDirs processedFiles f a :
  processedFiles !! f = None →
  scan_modified_file o configDirs processedFiles f a = scan_file o configDirs f a.
Proof.
  intros Hnone. unfold scan_modified_file, scan_file. rewrite Hnone.
  destruct (Outside.stat o f); [|reflexivity].
  by destruct (Outside.readFile o f).
Qed.

Lemma foldl_ext_in {A B} (f g : A → B → A) (a : A) (l : list B) :
  (∀ a x, x ∈ l → f a x = g a x) → foldl f a l = foldl g a l.
Proof.
  revert a. induction l as [|x l IH]; intros a Hext; [reflexivity|].
  cbn [foldl]. rewrite (Hext a x) by left. apply IH.
  intros a' y Hy. apply Hext. by right.
Qed.

(** X10: without a watermark for any file found, the incremental scan is
    the full scan; so is the one of a service that has scanned nothing
    yet. *)
Theorem scan_without_watermarks_is_a_full_scan (o : Outside.t)
    (processedFiles : gmap string ProcessedFile) :
  (∀ f, f ∈ discovered o → processedFiles !! f = None) →
  scanModifiedFiles o processedFiles = scanAllJSONLFiles o.
Proof.
  intros Hnone. unfold scanModifiedFiles, scanAllJSONLFiles.
  rewrite !scan_result_of_scan_dirs. cbv zeta.
  rewrite (foldl_ext_in
             (fun a f => scan_modified_file o (getClaudeConfigDirs o) processedFiles f a)
             (fun a f => scan_file o (getClaudeConfigDirs o) f a)); [reflexivity|].
  intros a f Hf. apply scan_modified_file_no_watermark, Hnone, Hf.
Qed.

Lemma parse_errors_filePath content f p m :
  Forall (fun e => ScanError.filePath e = f)
    (Parsed.errors (parseJSONLContent content f p m)).
Proof.
  rewrite parseJSONLContent_outcomes. cbn [Parsed.errors].
  apply Forall_forall. intros err Hin.
  by apply line_outcomes_error in Hin as (k & line & _ & _ & Hf & _).
Qed.

Lemma parse_entries_filePath content f p m :
  Forall (fun e => Entry.filePath e = f)
    (Parsed.entries (parseJSONLContent content f p m)).
Proof.
  rewrite parseJSONLContent_outcomes. apply line_outcomes_filePath.
Qed.

Lemma scan_file_own o configDirs g :
  Forall (fun e => Entry.filePath e = g)
    (Acc.entries (scan_file o configDirs g Acc.empty))
  ∧ Forall (fun e => ScanError.filePath e = g)
      (Acc.errors (scan_file o configDirs g Acc.empty)).
Proof.
  unfold scan_file, failed_to_read, processed.
  destruct (Outside.stat o g); [destruct (Outside.readFile o g)|]; cbn.
  - split; [apply parse_entries_filePath | apply parse_errors_filePath].
  - split; [constructor | by repeat constructor].
  - split; [constructor | by repeat constructor].
Qed.

(** X11: a file is scanned on its own.  When the directory walk finds
    each file once, what the full scan returns for a file is what that
    file gives alone, whatever the other files are and whether or not
    they can be read: the entries and the errors of the parse of its
    text, under its own path, project and modification time, when it can
    be read, and otherwise no entry and one error without line number
    that carries the message of the failure. *)
Theorem a_file_is_scanned_on_its_own (o : Outside.t) (f : string) :
  NoDup (discovered o) →
  f ∈ discovered o →
  let result := scanAllJSONLFiles o in
  let failed message :=
    entries_of_file f (ScanResult.entries result) = []
    ∧ errors_of_file f (ScanResult.errors result)
      = [ScanError.mk f None ("Failed to read file: " +:+ message)] in
  match Outside.stat o f with
  | IoOk fileStat =>
      match Outside.readFile o f with
      | IoOk content =>
          let parsed :=
            parseJSONLContent content f
              (extractProjectPath f (getClaudeConfigDirs o))
              (Stats.mtimeMs fileStat) in
          entries_of_file f (ScanResult.entries result) = Parsed.entries parsed
          ∧ errors_of_file f (ScanResult.errors result) = Parsed.errors parsed
      | IoError message => failed message
      end
  | IoError message => failed message
  end.
Proof.
  intros Hnodup Hf. cbv zeta. unfold scanAllJSONLFiles.
  rewrite scan_result_of_scan_dirs. cbv zeta.
  cbn [ScanResult.entries ScanResult.errors].
  rewrite (foldl_per_file (scan_file o (getClaudeConfigDirs o)))
    by (intros; apply scan_file_adds).
  cbn [Acc.entries Acc.errors Acc.empty app].
  unfold entries_of_file, errors_of_file.
  rewrite (filter_flat_map_own Entry.filePath
             (fun g => Acc.entries (scan_file o (getClaudeConfigDirs o) g Acc.empty))
             (discovered o) f (fun g => proj1 (scan_file_own o _ g)) Hnodup Hf).
  rewrite (filter_flat_map_own ScanError.filePath
             (fun g => Acc.errors (scan_file o (getClaudeConfigDirs o) g Acc.empty))
             (discovered o) f (fun g => proj2 (scan_file_own o _ g)) Hnodup Hf).
  unfold scan_file, failed_to_read, processed.
  by destruct (Outside.stat o f); [destruct (Outside.readFile o f)|].
Qed.

End ScannerMore.

Lemma scan_without_watermarks_is_a_full_scan_witness :
  let line := Reference.record_line "a" "s1" "2024-01-01T00:00:00.000Z" "10" "5" "0.01" in
  let o := Reference.disk 1000 (Js.records_text [line]) 3000 in
  @scanModifiedFiles Reference.platform o ∅ = @scanAllJSONLFiles Reference.platform o.
Proof.
  intros line o.
  refine (@scan_without_watermarks_is_a_full_scan Reference.platform o ∅ _).
  intros f _. apply lookup_empty.
Defined.

Lemma a_file_is_scanned_on_its_own_witness :
  let line := Reference.record_line "a" "s1" "2024-01-01T00:00:00.000Z" "10" "5" "0.01" in
  let o := Reference.disk 1000 (Js.records_text [line; "not json"]) 3000 in
  let result := @scanAllJSONLFiles Reference.platform o in
  let parsed :=
    @parseJSONLContent Reference.platform (Js.records_text [line; "not json"])
      Reference.log_path "app" 1000 in
  @discovered Reference.platform o = [Reference.log_path]
  ∧ entries_of_file Reference.log_path (ScanResult.entries result) = Parsed.entries parsed
  ∧ errors_of_file Reference.log_path (ScanResult.errors result) = Parsed.errors parsed.
Proof.
  intros line o result parsed.
  assert (Hfiles : @discovered Reference.platform o = [Reference.log_path]).
  { vm_compute. reflexivity. }
  split; [exact Hfiles|].
  assert (Hnodup : NoDup (@discovered Reference.platform o)).
  { rewrite Hfiles. apply NoDup_singleton. }
  assert (Hin : Reference.log_path ∈ @discovered Reference.platform o).
  { rewrite Hfiles. left. }
  exact (@a_file_is_scanned_on_its_own Reference.platform o Reference.log_path
           Hnodup Hin).
Defined.

(** ** The service, scan after scan *)

Section ServiceMore.
Context `{Platform} `{Storage}.

Lemma scanAllJSONLFiles_entries o :
  ScanResult.entries (scanAllJSONLFiles o) =
    flat_map (fun f => Acc.entries (scan_file o (getClaudeConfigDirs o) f Acc.empty))
      (discovered o).
Proof.
  unfold scanAllJSONLFiles. rewrite scan_result_of_scan_dirs. cbv zeta.
  cbn [ScanResult.entries].
  by rewrite (foldl_per_file (scan_file o (getClaudeConfigDirs o)))
    by (intros; apply scan_file_adds).
Qed.

Lemma scanModifiedFiles_entries o processedFiles :
  ScanResult.entries (scanModifiedFiles o processedFiles) =
    flat_map (fun f => Acc.entries (scan_modified_file o (getClaudeConfigDirs o)
                                      processedFiles f Acc.empty))
      (discovered o).
Proof.
  unfold scanModifiedFiles. rewrite scan_result_of_scan_dirs. cbv zeta.
  cbn [ScanResult.entries].
  by rewrite (foldl_per_file (scan_modified_file o (getClaudeConfigDirs o) processedFiles))
    by (intros; apply scan_modified_file_alone).
Qed.

Lemma scan_modified_file_own o configDirs processedFiles g :
  Forall (fun e => Entry.filePath e = g)
    (Acc.entries (scan_modified_file o configDirs processedFiles g Acc.empty)).
Proof.
  destruct (scan_modified_file_adds o configDirs processedFiles g Acc.empty)
    as (es & -> & Hes). exact Hes.
Qed.

(** The entries a file gives on its own are among the entries of the
    scan that belong to the file. *)
Lemma alone_nil (F : string → list ParsedLogEntry) (files : list string) (f : string) :
  (∀ g, Forall (fun e => Entry.filePath e = g) (F g)) →
  f ∈ files →
  entries_of_file f (flat_map F files) = [] →
  F f = [].
Proof.
  intros Hown Hf Hnone.
  destruct (F f) as [|e es] eqn:E; [reflexivity|]. exfalso.
  assert (Hin : e ∈ entries_of_file f (flat_map F files)).
  { apply list_elem_of_filter. split.
    - pose proof (Hown f) as Hall. rewrite E in Hall.
      by apply Forall_cons in Hall as [He _].
    - apply list_elem_of_In. apply in_flat_map. exists f.
      split; [by apply list_elem_of_In|]. rewrite E. by left. }
  rewrite Hnone in Hin. by apply elem_of_nil in Hin.
Qed.

Lemma alone_not_nil (F : string → list ParsedLogEntry) (files : list string) (f : string) :
  (∀ g, Forall (fun e => Entry.filePath e = g) (F g)) →
  entries_of_file f (flat_map F files) ≠ [] →
  F f ≠ [].
Proof.
  intros Hown Hsome Hnil. apply Hsome.
  apply filter_none. apply Forall_forall. intros e He Hpath.
  apply list_elem_of_In in He. apply in_flat_map in He as (g & _ & He).
  apply list_elem_of_In in He.
  pose proof (Hown g) as Hall. rewrite Forall_forall in Hall.
  pose proof (Hall e He) as Hg. rewrite Hpath in Hg. subst g.
  rewrite Hnil in He. by apply elem_of_nil in He.
Qed.

Lemma scan_file_entries_stat o configDirs f :
  Acc.entries (scan_file o configDirs f Acc.empty) ≠ [] →
  ∃ fileStat, Outside.stat o f = IoOk fileStat.
Proof.
  unfold scan_file. destruct (Outside.stat o f) as [fileStat|]; [by eexists|].
  by intros [].
Qed.

Lemma scan_modified_file_entries_stat o configDirs processedFiles f :
  Acc.entries (scan_modified_file o configDirs processedFiles f Acc.empty) ≠ [] →
  ∃ fileStat, Outside.stat o f = IoOk fileStat.
Proof.
  unfold scan_modified_file. destruct (Outside.stat o f) as [fileStat|]; [by eexists|].
  by intros [].
Qed.

(** A file whose watermark is at what [stat] says is skipped. *)
Lemma scan_modified_file_unchanged o configDirs processedFiles f fileStat file :
  Outside.stat o f = IoOk fileStat →
  processedFiles !! f = Some file →
  ProcessedFile.lastModifiedAt file = Stats.mtimeMs fileStat →
  ProcessedFile.lastSize file = Stats.size fileStat →
  Acc.entries (scan_modified_file o configDirs processedFiles f Acc.empty) = [].
Proof.
  intros Hstat Hfile Hmtime Hsize. unfold scan_modified_file.
  rewrite Hstat, Hfile, Hmtime, Hsize.
  by rewrite Z.leb_refl, Z.eqb_refl.
Qed.

Lemma from_line_entries_nil content f p m startLine :
  Parsed.entries (parseJSONLContent content f p m) = [] →
  ParsedFrom.entries (parseJSONLContentFromLine content f p m startLine) = [].
Proof.
  rewrite parseJSONLContent_outcomes, parseJSONLContentFromLine_outcomes.
  cbn [Parsed.entries ParsedFrom.entries].
  destruct (decide (startLine ≤ length (Js.split_lines content))%nat) as [Hle|Hgt].
  - rewrite <- (take_drop startLine (Js.split_lines content)) at 1.
    rewrite line_outcomes_app, omap_app, length_take, Nat.min_l by exact Hle.
    intros Hnil. by apply app_eq_nil in Hnil as [_ Hnil].
  - intros _. by rewrite drop_ge by lia.
Qed.

(** A file in which the full scan finds no entry gives none to an
    incremental scan either. *)
Lemma scan_modified_file_nil_of_full o configDirs processedFiles f :
  Acc.entries (scan_file o configDirs f Acc.empty) = [] →
  Acc.entries (scan_modified_file o configDirs processedFiles f Acc.empty) = [].
Proof.
  unfold scan_file, scan_modified_file.
  destruct (Outside.stat o f) as [fileStat|]; [|done].
  destruct (processedFiles !! f) as [file|].
  - destruct (_ && _); [done|].
    destruct (Outside.readFile o f) as [content|]; [|done].
    destruct (0 <? ProcessedFile.lastLineCount file)%nat; [|done].
    cbn. apply from_line_entries_nil.
  - by destruct (Outside.readFile o f).
Qed.

(** After a scan of [o] that found the entries [flat_map first files]
    and wrote the watermarks with [o] still as it was, no file gives an
    entry to an incremental scan of [o]. *)
Lemma nothing_left_to_scan o w w1 (first : string → list ParsedLogEntry) :
  (∀ g, Forall (fun e => Entry.filePath e = g) (first g)) →
  (∀ f, first f ≠ [] → ∃ fileStat, Outside.stat o f = IoOk fileStat) →
  (∀ f, first f = [] →
        Acc.entries (scan_modified_file o (getClaudeConfigDirs o)
                       (World.processedFiles w) f Acc.empty) = []) →
  watermarks_follow o w (flat_map first (discovered o)) w1 →
  ScanResult.entries (scanModifiedFiles o (World.processedFiles w1)) = [].
Proof.
  intros Hown Hstat Hnone Hfollow.
  rewrite scanModifiedFiles_entries. apply flat_map_all_nil. intros f Hf.
  destruct (Hfollow f) as [Hfound Hnot].
  destruct (decide (entries_of_file f (flat_map first (discovered o)) = []))
    as [Hnil|Hsome].
  - destruct (Hnot Hnil) as [Hmem _].
    rewrite (scan_modified_file_same_lookup o _ _ (World.processedFiles w) f)
      by exact Hmem.
    apply Hnone. by apply (alone_nil first (discovered o) f).
  - destruct (Hstat f (alone_not_nil first _ f Hown Hsome)) as [fileStat Hfile].
    destruct (Hfound Hsome (Stats.mtimeMs fileStat) (Stats.size fileStat))
      as [Hmem _].
    { unfold getFileMetadata. by rewrite Hfile. }
    by eapply scan_modified_file_unchanged.
Qed.

Lemma incrementalScan_nothing o w :
  ScanResult.entries (scanModifiedFiles o (World.processedFiles w)) = [] →
  incrementalScan o o w = Returned (scanModifiedFiles o (World.processedFiles w)) w.
Proof.
  intros Hnil. unfold incrementalScan, save_if_any, updateProcessedFilesFromScan.
  by rewrite Hnil.
Qed.

(** X12: a scan of a disk that stands still leaves nothing to scan.
    When a full or an incremental scan has returned, the watermarks
    written with the disk as it was during the scan, then an incremental
    scan of the same disk returns no entry and leaves the watermark map
    and the repository as they are: nothing is saved a second time. *)
Theorem scan_of_a_still_disk_finds_nothing (o : Outside.t) (w : World.t) :
  (∀ result w1,
     scanAndImport o o w = Returned result w1 →
     ∃ result',
       incrementalScan o o w1 = Returned result' w1
       ∧ ScanResult.entries result' = [])
  ∧ (∀ result w1,
       incrementalScan o o w = Returned result w1 →
       ∃ result',
         incrementalScan o o w1 = Returned result' w1
         ∧ ScanResult.entries result' = []).
Proof.
  destruct (watermarks_after_scan_lemma o o w) as (Hfull & Hmodified & _).
  split.
  - intros result w1 Hscan.
    pose proof (Hfull result w1 Hscan) as Hfollow.
    assert (Hresult : result = scanAllJSONLFiles o).
    { unfold scanAndImport in Hscan.
      destruct (save_if_any _ w) as [[] w0|]; [|discriminate].
      destruct (updateProcessedFilesFromScan _ _ w0); [|discriminate].
      by injection Hscan as <- _. }
    subst result. rewrite scanAllJSONLFiles_entries in Hfollow.
    assert (Hnil : ScanResult.entries (scanModifiedFiles o (World.processedFiles w1)) = []).
    { eapply nothing_left_to_scan; [| | |exact Hfollow].
      - intros g. apply scan_file_own.
      - intros f. apply scan_file_entries_stat.
      - intros f. apply scan_modified_file_nil_of_full. }
    eexists. split; [by apply incrementalScan_nothing | exact Hnil].
  - intros result w1 Hscan.
    pose proof (Hmodified result w1 Hscan) as Hfollow.
    assert (Hresult : result = scanModifiedFiles o (World.processedFiles w)).
    { unfold incrementalScan in Hscan.
      destruct (save_if_any _ w) as [[] w0|]; [|discriminate].
      destruct (updateProcessedFilesFromScan _ _ w0); [|discriminate].
      by injection Hscan as <- _. }
    subst result. rewrite scanModifiedFiles_entries in Hfollow.
    assert (Hnil : ScanResult.entries (scanModifiedFiles o (World.processedFiles w1)) = []).
    { eapply nothing_left_to_scan; [| | |exact Hfollow].
      - intros g. apply scan_modified_file_own.
      - intros f. apply scan_modified_file_entries_stat.
      - intros f Hf. exact Hf. }
    eexists. split; [by apply incrementalScan_nothing | exact Hnil].
Qed.

Lemma deleteEntriesFromFile_ok f db db' :
  deleteEntriesFromFile f db = (None, db') →
  Repository.claude_log_entries db' =
    filter (fun row => Entry.filePath row ≠ f) (Repository.claude_log_entries db)
  ∧ Repository.claude_processed_files db' =
      delete f (Repository.claude_processed_files db)
  ∧ Repository.journal db' = Repository.journal db ++ [DeleteEntriesFromFile f].
Proof.
  unfold deleteEntriesFromFile.
  destruct (statement_error (DeleteEntriesOfFile f) db); [discriminate|].
  destruct (statement_error (DeleteProcessedFile f) _); [discriminate|].
  by intros [= <-].
Qed.

Lemma deleteEntriesFromFile_fails f db message db' :
  deleteEntriesFromFile f db = (Some message, db') →
  Repository.claude_processed_files db' = Repository.claude_processed_files db
  ∧ Repository.journal db' = Repository.journal db
  ∧ (Repository.claude_log_entries db' = Repository.claude_log_entries db
     ∨ Repository.claude_log_entries db' =
         filter (fun row => Entry.filePath row ≠ f) (Repository.claude_log_entries db)).
Proof.
  unfold deleteEntriesFromFile.
  destruct (statement_error (DeleteEntriesOfFile f) db).
  - intros [= _ <-]. auto.
  - destruct (statement_error (DeleteProcessedFile f) _); [|discriminate].
    intros [= _ <-]. auto.
Qed.

Lemma persist_mirrored o' result w w1 w2 :
  save_if_any result w = Returned () w1 →
  updateProcessedFilesFromScan o' result w1 = Returned () w2 →
  mirrored w → mirrored w2.
Proof.
  intros Hsave Hupdate [Hsame Hkeys].
  apply save_if_any_returned in Hsave as (Hmem1 & Htable1 & _).
  apply update_tracking_returned in Hupdate as (Hmem & Htable & _);
    [|apply group_by_file_NoDup].
  rewrite Hmem1 in Hmem, Htable. rewrite Htable1, <- Hsame in Htable.
  split.
  - apply map_eq. intros f. by rewrite Hmem, Htable.
  - intros f file. rewrite Hmem. unfold after_update.
    destruct (map_get f _) as [count|]; cbn [mbind option_bind].
    + destruct (advanced o' (World.processedFiles w) f count) as [file'|] eqn:E.
      * intros [= <-]. by eapply advanced_filePath.
      * apply Hkeys.
    + apply Hkeys.
Qed.

(** X13: the watermark map in memory mirrors the table.  When the map of
    the service holds what [claude_processed_files] holds, each watermark
    under the path it names, it still does after every call of
    [scanAndImport], [incrementalScan] or [processModifiedFile] that
    returns. *)
Theorem watermark_map_mirrors_the_table (o o' : Outside.t) (w : World.t) :
  mirrored w →
  (∀ result w', scanAndImport o o' w = Returned result w' → mirrored w')
  ∧ (∀ result w', incrementalScan o o' w = Returned result w' → mirrored w')
  ∧ (∀ filePath w',
       processModifiedFile o o' filePath w = Returned () w' → mirrored w').
Proof.
  intros Hw. split_and!.
  - intros result w'. unfold scanAndImport.
    destruct (save_if_any _ w) as [[] w1|] eqn:Hsave; [|discriminate].
    destruct (updateProcessedFilesFromScan _ _ w1) as [[] w2|] eqn:Hupdate; [|discriminate].
    intros [= _ <-]. by eapply persist_mirrored.
  - intros result w'. unfold incrementalScan.
    destruct (save_if_any _ w) as [[] w1|] eqn:Hsave; [|discriminate].
    destruct (updateProcessedFilesFromScan _ _ w1) as [[] w2|] eqn:Hupdate; [|discriminate].
    intros [= _ <-]. by eapply persist_mirrored.
  - intros filePath w'. unfold processModifiedFile.
    destruct (getFileMetadata o filePath).
    + destruct (save_if_any _ w) as [[] w1|] eqn:Hsave; [|discriminate].
      intros Hupdate. by eapply persist_mirrored.
    + destruct (deleteEntriesFromFile filePath (World.repository w))
        as [[message|] db] eqn:Hdelete; [discriminate|].
      intros [= <-].
      apply deleteEntriesFromFile_ok in Hdelete as (_ & Htable & _).
      destruct Hw as [Hsame Hkeys]. split; cbn [World.processedFiles World.repository].
      * by rewrite Htable, Hsame.
      * intros f file Hf. apply lookup_delete_Some in Hf as [_ Hf].
        by apply Hkeys.
Qed.

Lemma watermarks_kept_refl w : watermarks_kept w w.
Proof. intros f file Hf. by exists file. Qed.

Lemma watermarks_kept_trans w1 w2 w3 :
  watermarks_kept w1 w2 → watermarks_kept w2 w3 → watermarks_kept w1 w3.
Proof.
  intros H12 H23 f file Hf.
  destruct (H12 f file Hf) as (file2 & Hf2 & Hle2).
  destruct (H23 f file2 Hf2) as (file3 & Hf3 & Hle3).
  exists file3. split; [exact Hf3 | lia].
Qed.

Lemma update_tracking_kept o fileEntries w :
  watermarks_kept w (final_world (update_tracking o fileEntries w)).
Proof.
  revert w. induction fileEntries as [|[f n] rest IH]; intros w; cbn [update_tracking].
  - apply watermarks_kept_refl.
  - destruct (getFileMetadata o f) as [[modifiedAt size]|]; [|apply IH].
    cbn [World.repository World.processedFiles].
    match goal with |- context [markFileProcessed ?pf _] => set (file := pf) end.
    assert (Hset : ∀ db, watermarks_kept w
                           (World.mk (<[f:=file]> (World.processedFiles w)) db)).
    { intros db g old Hg. cbn [World.processedFiles].
      destruct (decide (g = f)) as [->|Hne].
      - exists file. rewrite lookup_insert_eq. split; [reflexivity|].
        subst file. cbn [ProcessedFile.lastLineCount]. rewrite Hg. cbn. lia.
      - exists old. by rewrite lookup_insert_ne. }
    destruct (markFileProcessed _ _) as [db|message].
    + eapply watermarks_kept_trans; [apply (Hset db) | apply IH].
    + apply Hset.
Qed.

Lemma save_if_any_processedFiles result w :
  World.processedFiles (final_world (save_if_any result w)) = World.processedFiles w.
Proof.
  unfold save_if_any. destruct (0 <? _)%nat; [|reflexivity].
  by destruct (saveEntries _ _).
Qed.

Lemma persist_kept o' result w :
  watermarks_kept w
    match save_if_any result w with
    | Thrown _ w1 => w1
    | Returned _ w1 => final_world (updateProcessedFilesFromScan o' result w1)
    end.
Proof.
  pose proof (save_if_any_processedFiles result w) as Hsave.
  destruct (save_if_any result w) as [[] w1|message w1]; cbn [final_world] in Hsave.
  - eapply watermarks_kept_trans; [|apply update_tracking_kept].
    intros f file Hf. exists file. by rewrite Hsave.
  - intros f file Hf. exists file. by rewrite Hsave.
Qed.

(** X14: a scan never lowers a watermark.  However [scanAndImport],
    [incrementalScan] or [processModifiedFile] for a file that is there
    ends, by returning or by throwing, every file that had a watermark in
    memory still has one, with a line count that is not lower; for a file
    that is gone, the watermarks of the other files are what they were. *)
Theorem a_scan_never_lowers_a_watermark (o o' : Outside.t) (w : World.t) :
  watermarks_kept w (final_world (scanAndImport o o' w))
  ∧ watermarks_kept w (final_world (incrementalScan o o' w))
  ∧ (∀ filePath,
       getFileMetadata o filePath ≠ None →
       watermarks_kept w (final_world (processModifiedFile o o' filePath w)))
  ∧ (∀ filePath other,
       getFileMetadata o filePath = None →
       other ≠ filePath →
       World.processedFiles (final_world (processModifiedFile o o' filePath w)) !! other
       = World.processedFiles w !! other).
Proof.
  split_and!.
  - unfold scanAndImport.
    pose proof (persist_kept o' (scanAllJSONLFiles o) w) as Hkept.
    destruct (save_if_any _ w) as [[] w1|]; [|exact Hkept].
    by destruct (updateProcessedFilesFromScan _ _ w1).
  - unfold incrementalScan.
    pose proof (persist_kept o' (scanModifiedFiles o (World.processedFiles w)) w) as Hkept.
    destruct (save_if_any _ w) as [[] w1|]; [|exact Hkept].
    by destruct (updateProcessedFilesFromScan _ _ w1).
  - intros filePath Hpresent. unfold processModifiedFile.
    destruct (getFileMetadata o filePath); [|done].
    pose proof (persist_kept o'
                  (scanModifiedFiles o (delete filePath (World.processedFiles w))) w)
      as Hkept.
    by destruct (save_if_any _ w) as [[] w1|].
  - intros filePath other Hgone Hother. unfold processModifiedFile. rewrite Hgone.
    destruct (deleteEntriesFromFile filePath (World.repository w)) as [[message|] db];
      cbn [final_world World.processedFiles]; [reflexivity|].
    by rewrite lookup_delete_ne.
Qed.

(** X15: a file that is gone is forgotten.  When [stat] fails for the
    file of a watch event and the two deletions succeed, no stored entry
    and no watermark of that file is left, in the table or in memory; the
    entries and the watermarks of every other file are what they were;
    and nothing is scanned or saved.  When a deletion fails, the call
    throws with every watermark as it was. *)
Theorem a_file_that_is_gone_is_forgotten (o o' : Outside.t) (filePath : string)
    (w : World.t) :
  getFileMetadata o filePath = None →
  match processModifiedFile o o' filePath w with
  | Returned _ w' =>
      let db := World.repository w in
      let db' := World.repository w' in
      entries_of_file filePath (Repository.claude_log_entries db') = []
      ∧ Repository.claude_processed_files db' !! filePath = None
      ∧ World.processedFiles w' !! filePath = None
      ∧ (∀ other,
           other ≠ filePath →
           entries_of_file other (Repository.claude_log_entries db')
           = entries_of_file other (Repository.claude_log_entries db)
           ∧ Repository.claude_processed_files db' !! other
             = Repository.claude_processed_files db !! other
           ∧ World.processedFiles w' !! other = World.processedFiles w !! other)
      ∧ Repository.journal db' = Repository.journal db ++ [DeleteEntriesFromFile filePath]
  | Thrown _ w' =>
      World.processedFiles w' = World.processedFiles w
      ∧ Repository.claude_processed_files (World.repository w')
        = Repository.claude_processed_files (World.repository w)
      ∧ Repository.journal (World.repository w') = Repository.journal (World.repository w)
  end.
Proof.
  intros Hgone. unfold processModifiedFile. rewrite Hgone.
  destruct (deleteEntriesFromFile filePath (World.repository w))
    as [[message|] db] eqn:Hdelete.
  - apply deleteEntriesFromFile_fails in Hdelete as (Htable & Hjournal & _).
    by split_and!.
  - apply deleteEntriesFromFile_ok in Hdelete as (Hrows & Htable & Hjournal).
    cbv zeta. cbn [World.repository World.processedFiles].
    rewrite Hrows, Htable. split_and!.
    + unfold entries_of_file. rewrite list_filter_filter. apply filter_none.
      apply Forall_forall. intros e _ [He Hne]. by apply Hne.
    + apply lookup_delete_eq.
    + apply lookup_delete_eq.
    + intros other Hother. split_and!.
      * unfold entries_of_file. rewrite list_filter_filter.
        apply list_filter_iff. intros e. split; [tauto|].
        intros He. split; [exact He|]. rewrite He. exact Hother.
      * by rewrite lookup_delete_ne.
      * by rewrite lookup_delete_ne.
    + exact Hjournal.
Qed.

Lemma insert_or_replace_keeps entry rows e :
  e ∈ rows →
  ∃ e', e' ∈ insert_or_replace entry rows ∧ Entry.uuid e' = Entry.uuid e.
Proof.
  intros He. unfold insert_or_replace.
  destruct (decide (Entry.uuid e = Entry.uuid entry)) as [Heq|Hne].
  - exists entry. split; [|done]. apply elem_of_app. right. left.
  - exists e. split; [|done]. apply elem_of_app. left.
    by apply list_elem_of_filter.
Qed.

Lemma insert_batch_keeps batch rows e :
  e ∈ rows →
  ∃ e', e' ∈ foldl (fun rows e => insert_or_replace e rows) rows batch
        ∧ Entry.uuid e' = Entry.uuid e.
Proof.
  revert rows e. induction batch as [|x batch IH]; intros rows e He; cbn [foldl].
  - by exists e.
  - destruct (insert_or_replace_keeps x rows e He) as (e1 & He1 & Hu1).
    destruct (IH _ e1 He1) as (e2 & He2 & Hu2).
    exists e2. split; [exact He2 | congruence].
Qed.

Lemma persist_uuids_kept o' result w :
  uuids_kept w
    match save_if_any result w with
    | Thrown _ w1 => w1
    | Returned _ w1 => final_world (updateProcessedFilesFromScan o' result w1)
    end.
Proof.
  intros e He. unfold save_if_any.
  destruct (0 <? length (ScanResult.entries result))%nat eqn:Hany.
  - destruct (saveEntries _ _) as [db|message] eqn:Hsave.
    + destruct (update_tracking_journal o' (group_by_file (ScanResult.entries result))
                  (World.mk (World.processedFiles w) db)) as [Hrows _].
      unfold updateProcessedFilesFromScan. rewrite Hrows.
      cbn [World.repository].
      apply saveEntries_ok in Hsave as (Hsaved & _).
      * rewrite Hsaved. by apply insert_batch_keeps.
      * intros Hnil. by rewrite Hnil in Hany.
    + by exists e.
  - destruct (update_tracking_journal o' (group_by_file (ScanResult.entries result)) w)
      as [Hrows _].
    unfold updateProcessedFilesFromScan. rewrite Hrows. by exists e.
Qed.

(** X16: a scan loses no stored record.  However [scanAndImport],
    [incrementalScan] or [processModifiedFile] for a file that is there
    ends, every [uuid] that was stored is still stored: a row leaves the
    table only for a row of the same [uuid]. *)
Theorem a_scan_keeps_every_stored_uuid (o o' : Outside.t) (w : World.t) :
  uuids_kept w (final_world (scanAndImport o o' w))
  ∧ uuids_kept w (final_world (incrementalScan o o' w))
  ∧ (∀ filePath,
       getFileMetadata o filePath ≠ None →
       uuids_kept w (final_world (processModifiedFile o o' filePath w))).
Proof.
  split_and!.
  - unfold scanAndImport.
    pose proof (persist_uuids_kept o' (scanAllJSONLFiles o) w) as Hkept.
    destruct (save_if_any _ w) as [[] w1|]; [|exact Hkept].
    by destruct (updateProcessedFilesFromScan _ _ w1).
  - unfold incrementalScan.
    pose proof (persist_uuids_kept o' (scanModifiedFiles o (World.processedFiles w)) w)
      as Hkept.
    destruct (save_if_any _ w) as [[] w1|]; [|exact Hkept].
    by destruct (updateProcessedFilesFromScan _ _ w1).
  - intros filePath Hpresent. unfold processModifiedFile.
    destruct (getFileMetadata o filePath); [|done].
    pose proof (persist_uuids_kept o'
                  (scanModifiedFiles o (delete filePath (World.processedFiles w))) w)
      as Hkept.
    by destruct (save_if_any _ w) as [[] w1|].
Qed.

End ServiceMore.

Lemma scan_of_a_still_disk_finds_nothing_witness :
  let line := Reference.record_line "a" "s1" "2024-01-01T00:00:00.000Z" "10" "5" "0.01" in
  let o := Reference.disk 1000 (Js.records_text [line]) 3000 in
  let w := World.mk ∅ Repository.empty in
  ∃ result w1 result',
    @incrementalScan Reference.platform Reference.storage o o w = Returned result w1
    ∧ length (ScanResult.entries result) = 1%nat
    ∧ @incrementalScan Reference.platform Reference.storage o o w1 = Returned result' w1
    ∧ ScanResult.entries result' = [].
Proof.
  intros line o w.
  destruct (@incrementalScan Reference.platform Reference.storage o o w)
    as [result w1|message w1] eqn:E.
  - destruct (proj2 (@scan_of_a_still_disk_finds_nothing
                       Reference.platform Reference.storage o w) result w1 E)
      as (result' & Hagain & Hnil).
    exists result, w1, result'. split_and!; [reflexivity | | exact Hagain | exact Hnil].
    vm_compute in E. injection E as <- _. reflexivity.
  - exfalso. vm_compute in E. discriminate E.
Defined.

Lemma watermark_map_mirrors_the_table_witness :
  let line := Reference.record_line "a" "s1" "2024-01-01T00:00:00.000Z" "10" "5" "0.01" in
  let o := Reference.disk 1000 (Js.records_text [line]) 3000 in
  let w := World.mk ∅ Repository.empty in
  mirrored w
  ∧ ∃ result w',
      @scanAndImport Reference.platform Reference.storage o o w = Returned result w'
      ∧ mirrored w'.
Proof.
  intros line o w.
  assert (Hw : mirrored w).
  { split; [reflexivity|]. intros f file Hf.
    unfold w in Hf. cbn [World.processedFiles] in Hf.
    by rewrite lookup_empty in Hf. }
  split; [exact Hw|].
  destruct (@scanAndImport Reference.platform Reference.storage o o w)
    as [result w'|message w'] eqn:E.
  - exists result, w'. split; [reflexivity|].
    exact (proj1 (@watermark_map_mirrors_the_table
                    Reference.platform Reference.storage o o w Hw) result w' E).
  - exfalso. vm_compute in E. discriminate E.
Defined.

Lemma a_scan_never_lowers_a_watermark_witness :
  let line := Reference.record_line "a" "s1" "2024-01-01T00:00:00.000Z" "10" "5" "0.01" in
  let o := Reference.disk 2000 (Js.records_text [line]) 3000 in
  let stored := ProcessedFile.mk Reference.log_path 1000 10 1 1500 in
  let w := World.mk {[Reference.log_path := stored]} Repository.empty in
  getFileMetadata o Reference.log_path ≠ None
  ∧ watermarks_kept w
      (final_world
         (@processModifiedFile Reference.platform Reference.storage o o
            Reference.log_path w)).
Proof.
  intros line o stored w.
  assert (Hpresent : getFileMetadata o Reference.log_path ≠ None).
  { vm_compute. discriminate. }
  split; [exact Hpresent|].
  exact (proj1 (proj2 (proj2 (@a_scan_never_lowers_a_watermark
                                Reference.platform Reference.storage o o w)))
           Reference.log_path Hpresent).
Defined.

Lemma a_file_that_is_gone_is_forgotten_witness :
  let line := Reference.record_line "a" "s1" "2024-01-01T00:00:00.000Z" "10" "5" "0.01" in
  let o := Reference.disk 2000 (Js.records_text [line]) 3000 in
  let gone := "/home/u/.claude/projects/app/old.jsonl" in
  let e := Entry.mk "z" "s0" "app" 1704067200000 "assistant" None
             10%Q 5%Q 0%Q 0%Q 15%Q 0.01%Q None None gone 1000 in
  let stored := ProcessedFile.mk gone 1000 10 1 1500 in
  let w := World.mk {[gone := stored]} (Repository.mk [e] {[gone := stored]} []) in
  getFileMetadata o gone = None
  ∧ ∃ w',
      @processModifiedFile Reference.platform Reference.storage o o gone w
      = Returned () w'
      ∧ entries_of_file gone (Repository.claude_log_entries (World.repository w')) = []
      ∧ World.processedFiles w' !! gone = None.
Proof.
  intros line o gone e stored w.
  assert (Hgone : getFileMetadata o gone = None).
  { vm_compute. reflexivity. }
  split; [exact Hgone|].
  pose proof (@a_file_that_is_gone_is_forgotten
                Reference.platform Reference.storage o o gone w Hgone) as Hforgotten.
  destruct (@processModifiedFile Reference.platform Reference.storage o o gone w)
    as [[] w'|message w'] eqn:E.
  - exists w'. destruct Hforgotten as (Hrows & _ & Hmem & _).
    split_and!; [reflexivity | exact Hrows | exact Hmem].
  - exfalso. vm_compute in E. discriminate E.
Defined.

Lemma a_scan_keeps_every_stored_uuid_witness :
  let line := Reference.record_line "a" "s1" "2024-01-01T00:00:00.000Z" "10" "5" "0.01" in
  let o := Reference.disk 2000 (Js.records_text [line]) 3000 in
  let e := Entry.mk "z" "s0" "app" 1704067200000 "assistant" None
             10%Q 5%Q 0%Q 0%Q 15%Q 0.01%Q None None "/old.jsonl" 1000 in
  let w := World.mk ∅ (Repository.mk [e] ∅ []) in
  getFileMetadata o Reference.log_path ≠ None
  ∧ uuids_kept w
      (final_world
         (@processModifiedFile Reference.platform Reference.storage o o
            Reference.log_path w)).
Proof.
  intros line o e w.
  assert (Hpresent : getFileMetadata o Reference.log_path ≠ None).
  { vm_compute. discriminate. }
  split; [exact Hpresent|].
  exact (proj2 (proj2 (@a_scan_keeps_every_stored_uuid
                         Reference.platform Reference.storage o o w))
           Reference.log_path Hpresent).
Defined.

(** ** The table of entries *)

Lemma map_uuid_insert_or_replace entry rows :
  map Entry.uuid (insert_or_replace entry rows)
  = filter (fun u => u ≠ Entry.uuid entry) (map Entry.uuid rows) ++ [Entry.uuid entry].
Proof.
  unfold insert_or_replace. rewrite map_app. cbn [map]. f_equal.
  induction rows as [|row rows IH]; [reflexivity|].
  cbn [map]. destruct (decide (Entry.uuid row = Entry.uuid entry)) as [Heq|Hne].
  - rewrite (filter_cons_False _ row rows) by (intros Hn; by apply Hn).
    by rewrite (filter_cons_False _ (Entry.uuid row)) by (intros Hn; by apply Hn).
  - rewrite (filter_cons_True _ row rows) by done.
    rewrite (filter_cons_True _ (Entry.uuid row)) by done.
    cbn [map]. by rewrite IH.
Qed.

Lemma insert_or_replace_unique entry rows :
  unique_uuids rows → unique_uuids (insert_or_replace entry rows).
Proof.
  unfold unique_uuids. intros Hrows. rewrite map_uuid_insert_or_replace.
  apply NoDup_app. split_and!.
  - by apply NoDup_filter.
  - intros u Hu Hu'. apply list_elem_of_singleton in Hu'. subst u.
    apply list_elem_of_filter in Hu as [Hne _]. by apply Hne.
  - apply NoDup_singleton.
Qed.

Lemma insert_batch_unique batch rows :
  unique_uuids rows →
  unique_uuids (foldl (fun rows e => insert_or_replace e rows) rows batch).
Proof.
  revert rows. induction batch as [|e batch IH]; intros rows Hrows; [exact Hrows|].
  cbn [foldl]. by apply IH, insert_or_replace_unique.
Qed.

Lemma length_without_uuid u rows :
  unique_uuids rows →
  (length (filter (fun row => Entry.uuid row ≠ u) rows)
   + (if bool_decide (u ∈ map Entry.uuid rows) then 1 else 0))%nat
  = length rows.
Proof.
  unfold unique_uuids. induction rows as [|row rows IH]; intros Hrows; [reflexivity|].
  cbn [map] in Hrows. apply NoDup_cons in Hrows as [Hrow Hrows].
  specialize (IH Hrows). cbn [map].
  destruct (decide (Entry.uuid row = u)) as [<-|Hne].
  - rewrite (filter_cons_False _ row rows) by (intros Hn; by apply Hn).
    rewrite bool_decide_eq_true_2 by left.
    rewrite bool_decide_eq_false_2 in IH by exact Hrow.
    cbn [length]. lia.
  - rewrite (filter_cons_True _ row rows) by done.
    cbn [length].
    destruct (bool_decide_reflect (u ∈ map Entry.uuid rows)) as [Hin|Hin].
    + rewrite bool_decide_eq_true_2 by (by right). lia.
    + rewrite bool_decide_eq_false_2; [lia|].
      intros Hu. apply elem_of_cons in Hu as [Hu|Hu]; [by apply Hne | by apply Hin].
Qed.

(** The rows after a batch: the rows whose [uuid] the batch does not
    hold, as they were, then what the batch leaves in an empty table. *)
Lemma insert_batch_shape batch rows :
  foldl (fun rows e => insert_or_replace e rows) rows batch
  = filter (fun row => Entry.uuid row ∉ map Entry.uuid batch) rows
    ++ foldl (fun rows e => insert_or_replace e rows) [] batch.
Proof.
  induction batch as [|e batch IH] using rev_ind.
  - cbn [foldl map]. rewrite app_nil_r. symmetry. apply filter_all.
    apply Forall_forall. intros row _. apply not_elem_of_nil.
  - rewrite !foldl_app. cbn [foldl]. rewrite IH.
    unfold insert_or_replace at 1 3. rewrite filter_app, <- !app_assoc.
    f_equal. rewrite list_filter_filter. apply list_filter_iff.
    intros row. rewrite map_app, not_elem_of_app. cbn [map].
    rewrite list_elem_of_singleton. tauto.
Qed.

Lemma insert_batch_uuids batch e :
  e ∈ foldl (fun rows e => insert_or_replace e rows) [] batch →
  Entry.uuid e ∈ map Entry.uuid batch.
Proof.
  induction batch as [|x batch IH] using rev_ind; [by intros Hin%elem_of_nil|].
  rewrite foldl_app. cbn [foldl]. unfold insert_or_replace.
  rewrite elem_of_app, list_elem_of_singleton, map_app, elem_of_app.
  intros [Hin | ->].
  - left. apply IH. by apply list_elem_of_filter in Hin as [_ Hin].
  - right. left.
Qed.

(** A batch run a second time leaves the rows of the first run. *)
Lemma insert_batch_twice batch rows :
  foldl (fun rows e => insert_or_replace e rows)
    (foldl (fun rows e => insert_or_replace e rows) rows batch) batch
  = foldl (fun rows e => insert_or_replace e rows) rows batch.
Proof.
  rewrite insert_batch_shape. rewrite (insert_batch_shape batch rows) at 1 2.
  rewrite filter_app, list_filter_filter_l by tauto.
  rewrite (filter_none _ (foldl _ [] batch)); [by rewrite app_nil_r|].
  apply Forall_forall. intros row Hrow Hnot.
  by apply Hnot, insert_batch_uuids.
Qed.

Section RepositoryMore.
Context `{Storage}.

(** X17: the [uuid] stays a key.  When no two rows of the table have the
    same [uuid], none do after a [saveEntry] or a [saveEntries] that
    succeeds; and [saveEntry] leaves [getTotalEntryCount] as it is when
    the [uuid] of the entry is stored already, and raises it by one
    otherwise. *)
Theorem saving_keeps_the_uuids_unique (db : Repository.t) :
  unique_uuids (Repository.claude_log_entries db) →
  (∀ entry db',
     saveEntry entry db = IoOk db' →
     unique_uuids (Repository.claude_log_entries db')
     ∧ getTotalEntryCount db' =
         if bool_decide (Entry.uuid entry
                         ∈ map Entry.uuid (Repository.claude_log_entries db))
         then getTotalEntryCount db
         else S (getTotalEntryCount db))
  ∧ (∀ batch db',
       saveEntries batch db = IoOk db' →
       unique_uuids (Repository.claude_log_entries db')).
Proof.
  intros Hdb. split.
  - intros entry db' Hsave. unfold saveEntry in Hsave.
    apply run_insert_ok in Hsave as (Hrows & _).
    unfold getTotalEntryCount. rewrite Hrows. split.
    + by apply insert_or_replace_unique.
    + unfold insert_or_replace. rewrite length_app. cbn [length].
      pose proof (length_without_uuid (Entry.uuid entry) _ Hdb) as Hlen.
      destruct (bool_decide _); lia.
  - intros batch db' Hsave. destruct batch as [|e batch].
    + cbn [saveEntries] in Hsave. by injection Hsave as <-.
    + apply saveEntries_ok in Hsave as (Hrows & _); [|done].
      rewrite Hrows. by apply insert_batch_unique.
Qed.

(** X18: saving a batch again changes nothing.  When [saveEntries] has
    stored a batch, storing the same batch once more leaves the table of
    entries, rows and order, and the table of watermarks as they are,
    also when the batch holds a [uuid] more than once. *)
Theorem saving_a_batch_again_changes_nothing (batch : list ParsedLogEntry)
    (db db1 db2 : Repository.t) :
  saveEntries batch db = IoOk db1 →
  saveEntries batch db1 = IoOk db2 →
  Repository.claude_log_entries db2 = Repository.claude_log_entries db1
  ∧ Repository.claude_processed_files db2 = Repository.claude_processed_files db1.
Proof.
  intros Hfirst Hsecond. destruct batch as [|e batch].
  - cbn [saveEntries] in Hsecond. by injection Hsecond as <-.
  - apply saveEntries_ok in Hfirst as (Hrows1 & _); [|done].
    apply saveEntries_ok in Hsecond as (Hrows2 & Htable2 & _); [|done].
    split; [|exact Htable2].
    by rewrite Hrows2, Hrows1, insert_batch_twice.
Qed.

End RepositoryMore.

Lemma saving_keeps_the_uuids_unique_witness :
  let e1 := Entry.mk "a" "s1" "app" 1704067200000 "assistant" None
              10%Q 5%Q 0%Q 0%Q 15%Q 0.01%Q None None "/f.jsonl" 1000 in
  let e2 := Entry.mk "a" "s1" "app" 1704067200000 "assistant" None
              10%Q 5%Q 0%Q 0%Q 15%Q 0.02%Q None None "/f.jsonl" 2000 in
  let db := Repository.mk [e1] ∅ [] in
  unique_uuids (Repository.claude_log_entries db)
  ∧ ∃ db',
      @saveEntry Reference.storage e2 db = IoOk db'
      ∧ unique_uuids (Repository.claude_log_entries db')
      ∧ getTotalEntryCount db' = 1%nat.
Proof.
  intros e1 e2 db.
  assert (Hdb : unique_uuids (Repository.claude_log_entries db)).
  { apply NoDup_singleton. }
  split; [exact Hdb|].
  eexists. split; [reflexivity|].
  exact (proj1 (@saving_keeps_the_uuids_unique Reference.storage db Hdb) e2 _ eq_refl).
Defined.

Lemma saving_a_batch_again_changes_nothing_witness :
  let e1 := Entry.mk "a" "s1" "app" 1704067200000 "assistant" None
              10%Q 5%Q 0%Q 0%Q 15%Q 0.01%Q None None "/f.jsonl" 1000 in
  let e2 := Entry.mk "b" "s1" "app" 1704067200000 "assistant" None
              10%Q 5%Q 0%Q 0%Q 15%Q 0.02%Q None None "/f.jsonl" 1000 in
  let e3 := Entry.mk "a" "s1" "app" 1704067200000 "assistant" None
              10%Q 5%Q 0%Q 0%Q 15%Q 0.03%Q None None "/f.jsonl" 1000 in
  ∃ db1 db2,
    @saveEntries Reference.storage [e1; e2; e3] Repository.empty = IoOk db1
    ∧ @saveEntries Reference.storage [e1; e2; e3] db1 = IoOk db2
    ∧ Repository.claude_log_entries db2 = Repository.claude_log_entries db1.
Proof.
  intros e1 e2 e3.
  eexists _, _. split; [reflexivity|]. split; [reflexivity|].
  exact (proj1 (@saving_a_batch_again_changes_nothing Reference.storage
                  [e1; e2; e3] Repository.empty _ _ eq_refl eq_refl)).
Defined.

(** ** Billing blocks, counted *)

Lemma StronglySorted_gt_NoDup (keys : list Z) :
  StronglySorted Z.gt keys → NoDup keys.
Proof.
  induction 1 as [|k keys _ IH Hk]; [constructor|].
  constructor; [|exact IH].
  intros Hin. rewrite List.Forall_forall in Hk.
  apply list_elem_of_In in Hin. specialize (Hk k Hin). lia.
Qed.

Lemma sum_list_cons (x : nat) (l : list nat) :
  sum_list (x :: l) = (x + sum_list l)%nat.
Proof. reflexivity. Qed.

Lemma sum_list_no_key (keys : list Z) (x : Z) :
  x ∉ keys →
  sum_list (map (fun k => if decide (x = k) then 1%nat else 0%nat) keys) = 0%nat.
Proof.
  induction keys as [|k keys IH]; intros Hx; [reflexivity|].
  apply not_elem_of_cons in Hx as [Hne Hx].
  cbn [map]. rewrite sum_list_cons, IH by exact Hx.
  by destruct (decide (x = k)).
Qed.

Lemma sum_list_one_key (keys : list Z) (x : Z) :
  NoDup keys → x ∈ keys →
  sum_list (map (fun k => if decide (x = k) then 1%nat else 0%nat) keys) = 1%nat.
Proof.
  induction 1 as [|k keys Hk _ IH]; intros Hx; [by apply elem_of_nil in Hx|].
  cbn [map]. rewrite sum_list_cons.
  destruct (decide (x = k)) as [->|Hne].
  - by rewrite sum_list_no_key.
  - apply elem_of_cons in Hx as [Hx|Hx]; [done|]. by rewrite IH.
Qed.

Lemma sum_list_plus {A} (f g : A → nat) (l : list A) :
  sum_list (map (fun x => (f x + g x)%nat) l)
  = (sum_list (map f l) + sum_list (map g l))%nat.
Proof.
  induction l as [|x l IH]; [reflexivity|].
  cbn [map]. rewrite !sum_list_cons, IH. lia.
Qed.

Lemma sum_list_zero {A} (l : list A) :
  sum_list (map (fun _ => 0%nat) l) = 0%nat.
Proof.
  induction l as [|x l IH]; [reflexivity|].
  cbn [map]. by rewrite sum_list_cons, IH.
Qed.

(** Rows grouped under keys that are all different and hold the key of
    every row: the groups are together as many as the rows. *)
Lemma groups_partition (keys : list Z) (rows : list ParsedLogEntry) :
  NoDup keys →
  (∀ row, row ∈ rows → blockStart_of (Entry.timestamp row) ∈ keys) →
  sum_list (map (fun key => length (group_of key rows)) keys) = length rows.
Proof.
  intros Hkeys. induction rows as [|row rows IH]; intros Hall.
  - apply sum_list_zero.
  - transitivity
      (sum_list (map (fun key =>
                        ((if decide (blockStart_of (Entry.timestamp row) = key)
                          then 1 else 0)
                         + length (group_of key rows))%nat) keys)).
    + f_equal. apply map_ext. intros key. unfold group_of.
      destruct (decide (blockStart_of (Entry.timestamp row) = key)) as [Heq|Hne].
      * by rewrite (filter_cons_True _ row rows) by done.
      * by rewrite (filter_cons_False _ row rows) by done.
    + rewrite sum_list_plus, IH by (intros r Hr; apply Hall; by right).
      rewrite sum_list_one_key; [reflexivity | exact Hkeys |].
      apply Hall. left.
Qed.

(** X19: every selected entry is counted once.  The request counts of
    the billing blocks add up to the number of stored entries within the
    bounds; every block returned counts one entry at least; and no two
    blocks start at the same time. *)
Theorem every_selected_entry_is_counted_once (db : Repository.t)
    (startTime endTime : option Z) :
  let selected :=
    filter (fun row => in_range startTime endTime row = true)
      (Repository.claude_log_entries db) in
  let blocks := billing_query db startTime endTime in
  sum_list (map BlockRow.requestCount blocks) = length selected
  ∧ Forall (fun block => (1 ≤ BlockRow.requestCount block)%nat) blocks
  ∧ NoDup (map BlockRow.blockStart blocks).
Proof.
  cbv zeta. unfold billing_query.
  set (selected := filter _ (Repository.claude_log_entries db)).
  pose proof (StronglySorted_gt_NoDup _ (group_keys_sorted selected)) as Hkeys.
  rewrite !map_map. cbn [aggregate BlockRow.requestCount BlockRow.blockStart].
  split_and!.
  - apply groups_partition; [exact Hkeys|].
    intros row Hrow. apply elem_of_group_keys. by exists row.
  - apply Forall_forall. intros block Hblock.
    apply list_elem_of_fmap in Hblock as (key & -> & Hkey).
    apply elem_of_group_keys in Hkey as (row & Hrow & Hstart).
    cbn [aggregate BlockRow.requestCount].
    assert (Hin : row ∈ group_of key selected).
    { by apply list_elem_of_filter. }
    destruct (group_of key selected); [by apply elem_of_nil in Hin | cbn; lia].
  - by rewrite map_id.
Qed.

(** ** The watcher *)

Lemma on_raw_event_jsonl projectsDir eventType name now w :
  projectsDir ∈ Watcher.watchers w →
  Js.endsWith name ".jsonl" = true →
  Watcher.on_raw_event projectsDir eventType (Some name) now w
  = Watcher.handleFileEvent eventType (projectsDir +:+ "/" +:+ name) now w.
Proof.
  intros Hdir Hname. unfold Watcher.on_raw_event.
  rewrite bool_decide_eq_true_2 by exact Hdir. rewrite Hname.
  destruct name; [discriminate Hname | reflexivity].
Qed.

(** The raw events of one file, one after the other: the state is the
    one before the first with the timer of the last. *)
Lemma burst_leaves_one_timer projectsDir name (events : list (RawEventType * Z)) w :
  projectsDir ∈ Watcher.watchers w →
  Js.endsWith name ".jsonl" = true →
  notify_all
    (map (fun event => Raw_event projectsDir event.1 (Some name) event.2) events) w
  = Watcher.mk (Watcher.watchers w) (Watcher.callbacks w)
      match last events with
      | Some event =>
          <[projectsDir +:+ "/" +:+ name := (event.2 + DEBOUNCE_MS, event.1)]>
            (Watcher.debounceTimers w)
      | None => Watcher.debounceTimers w
      end
      (Watcher.isWatching w) (Watcher.delivered w).
Proof.
  intros Hdir Hname. unfold notify_all.
  induction events as [|event events IH] using rev_ind; [by destruct w|].
  rewrite map_app, foldl_app, IH, last_snoc. cbn [map foldl notify].
  rewrite on_raw_event_jsonl by done.
  unfold Watcher.handleFileEvent. cbn [Watcher.watchers Watcher.callbacks
    Watcher.debounceTimers Watcher.isWatching Watcher.delivered].
  f_equal. destruct (last events); [apply insert_insert_eq | reflexivity].
Qed.

(** X20: a burst of events is emitted once.  Raw events for one log file
    below a watched directory, with no timer running in between, leave
    one pending timer for the file, due [DEBOUNCE_MS] after the last of
    them, and call no callback.  When the timer runs, every callback is
    called once with a ["modified"] event for the file, whatever the
    event types were, and the timer is gone, so that nothing more is
    emitted for the burst. *)
Theorem a_burst_of_events_is_emitted_once (w : Watcher.t) (projectsDir name : string)
    (burst : list (RawEventType * Z)) (eventType : RawEventType) (last now : Z) :
  projectsDir ∈ Watcher.watchers w →
  Js.endsWith name ".jsonl" = true →
  last + DEBOUNCE_MS ≤ now →
  let filePath := projectsDir +:+ "/" +:+ name in
  let w1 :=
    notify_all
      (map (fun event => Raw_event projectsDir event.1 (Some name) event.2)
         (burst ++ [(eventType, last)])) w in
  let w2 := notify w1 (Timer_runs filePath now) in
  Watcher.debounceTimers w1
  = <[filePath := (last + DEBOUNCE_MS, eventType)]> (Watcher.debounceTimers w)
  ∧ Watcher.delivered w1 = Watcher.delivered w
  ∧ Watcher.delivered w2
    = Watcher.delivered w
      ++ map (fun i => (i, FileWatchEventData.mk Modified filePath now))
           (seq 0 (Watcher.callbacks w))
  ∧ Watcher.debounceTimers w2 = delete filePath (Watcher.debounceTimers w)
  ∧ (∀ later, notify w2 (Timer_runs filePath later) = w2).
Proof.
  intros Hdir Hname Hdue. cbv zeta.
  rewrite burst_leaves_one_timer, last_snoc by done. cbn [fst snd].
  set (filePath := projectsDir +:+ "/" +:+ name).
  set (w1 := Watcher.mk _ _ _ _ _).
  assert (Hw2 :
    notify w1 (Timer_runs filePath now)
    = Watcher.mk (Watcher.watchers w) (Watcher.callbacks w)
        (delete filePath (Watcher.debounceTimers w)) (Watcher.isWatching w)
        (Watcher.delivered w
         ++ map (fun i => (i, FileWatchEventData.mk Modified filePath now))
              (seq 0 (Watcher.callbacks w)))).
  { cbn [notify]. unfold Watcher.on_timer, w1. cbn [Watcher.debounceTimers].
    rewrite lookup_insert_eq.
    replace (last + DEBOUNCE_MS <=? now) with true by (symmetry; by apply Z.leb_le).
    unfold Watcher.emitEvent.
    cbn [Watcher.watchers Watcher.callbacks Watcher.debounceTimers Watcher.isWatching
         Watcher.delivered].
    rewrite delete_insert_eq. by destruct eventType. }
  rewrite Hw2. split_and!; try reflexivity.
  intros later. cbn [notify]. unfold Watcher.on_timer. cbn [Watcher.debounceTimers].
  by rewrite lookup_delete_eq.
Qed.

(** X21: a watcher that is stopped emits nothing.  After [stop],
    whatever notifications of the file system and whatever timers follow,
    no callback is called and no timer is pending.  And at any time, an
    event without file name, or with a name that does not end in
    [.jsonl], sets no timer and changes nothing. *)
Theorem a_stopped_watcher_emits_nothing (w : Watcher.t) (ns : list Notification)
    (projectsDir : string) (eventType : RawEventType) (now : Z) :
  notify_all ns (Watcher.stop w) = Watcher.stop w
  ∧ Watcher.delivered (Watcher.stop w) = Watcher.delivered w
  ∧ Watcher.debounceTimers (Watcher.stop w) = ∅
  ∧ notify w (Raw_event projectsDir eventType None now) = w
  ∧ (∀ name,
       Js.endsWith name ".jsonl" = false →
       notify w (Raw_event projectsDir eventType (Some name) now) = w).
Proof.
  split_and!; try reflexivity.
  - unfold notify_all. induction ns as [|n ns IH]; [reflexivity|].
    cbn [foldl]. replace (notify (Watcher.stop w) n) with (Watcher.stop w); [exact IH|].
    destruct n as [dir ty filename time|filePath time]; cbn [notify].
    + unfold Watcher.on_raw_event. cbn [Watcher.stop Watcher.watchers].
      by rewrite bool_decide_eq_false_2 by apply not_elem_of_nil.
    + unfold Watcher.on_timer. cbn [Watcher.stop Watcher.debounceTimers].
      by rewrite lookup_empty.
  - cbn [notify]. unfold Watcher.on_raw_event. by destruct (bool_decide _).
  - intros name Hname. cbn [notify]. unfold Watcher.on_raw_event.
    rewrite Hname, andb_false_r. by destruct (bool_decide _).
Qed.

Lemma a_burst_of_events_is_emitted_once_witness :
  let w :=
    Watcher.mk ["/home/u/.claude/projects"] 1 ∅ true [] in
  let burst := [(Change, 1000); (Rename, 1100); (Change, 1250)] in
  let filePath := "/home/u/.claude/projects" +:+ "/" +:+ "app/s.jsonl" in
  let w1 :=
    notify_all
      (map (fun event => Raw_event "/home/u/.claude/projects" event.1
                           (Some "app/s.jsonl") event.2)
         (burst ++ [(Change, 1400)])) w in
  "/home/u/.claude/projects" ∈ Watcher.watchers w
  ∧ Js.endsWith "app/s.jsonl" ".jsonl" = true
  ∧ 1400 + DEBOUNCE_MS ≤ 1900
  ∧ Watcher.delivered (notify w1 (Timer_runs filePath 1900))
    = [(0%nat, FileWatchEventData.mk Modified filePath 1900)].
Proof.
  intros w burst filePath w1.
  assert (Hdir : "/home/u/.claude/projects" ∈ Watcher.watchers w) by left.
  assert (Hname : Js.endsWith "app/s.jsonl" ".jsonl" = true) by reflexivity.
  assert (Hdue : 1400 + DEBOUNCE_MS ≤ 1900) by (vm_compute; discriminate).
  split_and!; [exact Hdir | exact Hname | exact Hdue |].
  exact (proj1 (proj2 (proj2
           (a_burst_of_events_is_emitted_once w "/home/u/.claude/projects"
              "app/s.jsonl" burst Change 1400 1900 Hdir Hname Hdue)))).
Defined.

Lemma a_stopped_watcher_emits_nothing_witness :
  let w := Watcher.mk ["/home/u/.claude/projects"] 1 ∅ true [] in
  Js.endsWith "notes.txt" ".jsonl" = false
  ∧ notify w (Raw_event "/home/u/.claude/projects" Change (Some "notes.txt") 1000) = w.
Proof.
  intros w.
  assert (Hname : Js.endsWith "notes.txt" ".jsonl" = false) by reflexivity.
  split; [exact Hname|].
  exact (proj2 (proj2 (proj2 (proj2
           (a_stopped_watcher_emits_nothing w [] "/home/u/.claude/projects"
              Change 1000)))) "notes.txt" Hname).
Defined.

(** ** The service after [dispose] *)

Section Disposed.
Context `{Platform} `{Storage}.

Lemma resume_disposed index o s :
  no_initialize_in_flight s →
  let s' := resume index o s in
  no_initialize_in_flight s'
  ∧ Service.initialized s' = Service.initialized s
  ∧ Service.scanIntervalTimer s' = Service.scanIntervalTimer s
  ∧ Service.watching s' = Service.watching s
  ∧ (length (Service.tasks s') ≤ length (Service.tasks s))%nat.
Proof.
  intros Hnone. cbv zeta. unfold resume.
  destruct (Service.tasks s !! index) as [[method point]|] eqn:Htask;
    [|by split_and!].
  assert (Hmethod : method ≠ M_initialize).
  { unfold no_initialize_in_flight in Hnone. rewrite Forall_forall in Hnone.
    apply (Hnone (Task.mk method point)). by eapply list_elem_of_lookup_2. }
  assert (Hsuspend : ∀ point' w',
    let s' := with_tasks (<[index := Task.mk method point']>
                            (Service.tasks (with_world w' s))) (with_world w' s) in
    no_initialize_in_flight s'
    ∧ Service.initialized s' = Service.initialized s
    ∧ Service.scanIntervalTimer s' = Service.scanIntervalTimer s
    ∧ Service.watching s' = Service.watching s
    ∧ (length (Service.tasks s') ≤ length (Service.tasks s))%nat).
  { intros point' w'. cbv zeta. unfold no_initialize_in_flight. cbn.
    split_and!; try reflexivity.
    - by apply Forall_insert.
    - by rewrite length_insert. }
  assert (Hleave : ∀ w',
    let s' := with_tasks (delete index (Service.tasks (with_world w' s)))
                (with_world w' s) in
    no_initialize_in_flight s'
    ∧ Service.initialized s' = Service.initialized s
    ∧ Service.scanIntervalTimer s' = Service.scanIntervalTimer s
    ∧ Service.watching s' = Service.watching s
    ∧ (length (Service.tasks s') ≤ length (Service.tasks s))%nat).
  { intros w'. cbv zeta. unfold no_initialize_in_flight. cbn.
    split_and!; try reflexivity.
    - by apply Forall_delete.
    - rewrite length_delete by (by eexists). lia. }
  assert (Hworld : with_world (Service.world s) s = s) by (by destruct s).
  cbn [Task.method Task.point].
  destruct point as [| | |tempProcessed|result|result].
  - destruct (Options.scanOnStartup (Service.options s)); [apply Hsuspend|].
    destruct method; [done | | |]; apply Hleave.
  - destruct method as [| | |filePath];
      [done | rewrite <- Hworld at 1 2; apply Hleave
       | rewrite <- Hworld at 1 2; apply Hleave |].
    destruct (getFileMetadata o filePath).
    + rewrite <- Hworld at 1 2. apply Hsuspend.
    + destruct (deleteEntriesFromFile filePath _) as [[message|] db]; apply Hleave.
  - destruct method; [done | | |]; rewrite <- Hworld at 1 2; apply Hsuspend.
  - rewrite <- Hworld at 1 2. apply Hsuspend.
  - destruct (save_if_any result _) as [[] w'|message w']; [apply Hsuspend | apply Hleave].
  - destruct (updateProcessedFilesFromScan o result _) as [[] w'|message w'];
      [|apply Hleave].
    destruct method; [done | | |]; apply Hleave.
Qed.

(** X22: a disposed service starts nothing.  After [dispose], when no
    call of [initialize] is in flight, the interval timer and the watcher
    are off and stay off: a timer tick or a watch event that still
    arrives starts no call, the calls in flight run to their end without
    restarting either, and the service stays uninitialized. *)
Theorem a_disposed_service_starts_nothing (s : Service.t) (events : list Event) :
  no_initialize_in_flight s →
  Forall (fun e => spontaneous e = true) events →
  let s' := run events (step s Call_dispose) in
  Service.initialized s' = false
  ∧ Service.scanIntervalTimer s' = false
  ∧ Service.watching s' = false
  ∧ no_initialize_in_flight s'
  ∧ (length (Service.tasks s') ≤ length (Service.tasks s))%nat.
Proof.
  intros Hnone Hevents. cbv zeta.
  assert (Hstart :
    let s0 := step s Call_dispose in
    Service.initialized s0 = false
    ∧ Service.scanIntervalTimer s0 = false
    ∧ Service.watching s0 = false
    ∧ no_initialize_in_flight s0
    ∧ (length (Service.tasks s0) ≤ length (Service.tasks s))%nat).
  { cbv zeta. cbn. by split_and!. }
  cbv zeta in Hstart. revert Hstart. generalize (step s Call_dispose). clear Hnone.
  unfold run. induction Hevents as [|e events He _ IH]; intros s0 Hs0; [exact Hs0|].
  cbn [foldl]. apply IH. destruct Hs0 as (Hinit & Htimer & Hwatch & Hnone & Hlen).
  destruct e as [given| | |o'| | | |filePath|index o]; try discriminate He;
    cbn [step].
  - rewrite Htimer. by split_and!.
  - rewrite Hwatch. by split_and!.
  - destruct (resume_disposed index o s0 Hnone) as (Hnone' & Hinit' & Htimer' & Hwatch' & Hlen').
    split_and!; [congruence | congruence | congruence | exact Hnone' | lia].
Qed.

End Disposed.

Lemma a_disposed_service_starts_nothing_witness :
  let line := Reference.record_line "a" "s1" "2024-01-01T00:00:00.000Z" "10" "5" "0.01" in
  let o := Reference.disk 1000 (Js.records_text [line]) 3000 in
  let s :=
    Service.mk (World.mk ∅ Repository.empty)
      (Options.mk true true DEFAULT_SCAN_INTERVAL_MS) true true true
      [Task.mk M_incrementalScan AtScan] in
  let events := [Timer_fires; File_changed Reference.log_path; Resume 0 o; Timer_fires] in
  no_initialize_in_flight s
  ∧ Forall (fun e => spontaneous e = true) events
  ∧ Service.scanIntervalTimer
      (@run Reference.platform Reference.storage events
         (@step Reference.platform Reference.storage s Call_dispose)) = false.
Proof.
  intros line o s events.
  assert (Hnone : no_initialize_in_flight s).
  { constructor; [discriminate | constructor]. }
  assert (Hevents : Forall (fun e => spontaneous e = true) events).
  { repeat constructor. }
  split_and!; [exact Hnone | exact Hevents |].
  exact (proj1 (proj2 (@a_disposed_service_starts_nothing
                         Reference.platform Reference.storage s events Hnone Hevents))).
Defined.

(** ** The directory walk *)

Section Walk.
Context `{Platform}.

(** Induction on a directory entry, with the entries of a listing. *)
Lemma Dirent_listing_ind (P : Dirent → Prop)
    (Hfile : ∀ name, P (DirentFile name))
    (Hlisted : ∀ name entries, Forall P entries → P (DirentDirectory name (Some entries)))
    (Hunread : ∀ name, P (DirentDirectory name None))
    (Hother : ∀ name, P (DirentOther name)) :
  ∀ entry, P entry.
Proof.
  fix go 1. intros [name|name [entries|]|name].
  - apply Hfile.
  - apply Hlisted. induction entries as [|e rest IH]; constructor; [apply go | exact IH].
  - apply Hunread.
  - apply Hother.
Qed.

Lemma find_in_entry_directory dir name listing :
  find_in_entry dir (DirentDirectory name (Some listing))
  = find_in_entries (path_join dir name) listing.
Proof.
  unfold find_in_entries. cbn [find_in_entry].
  induction listing as [|e rest IH]; [reflexivity|].
  cbn [flat_map]. by rewrite IH.
Qed.

Lemma elem_of_find_in_entries dir entries f :
  f ∈ find_in_entries dir entries ↔
  ∃ entry, entry ∈ entries ∧ f ∈ find_in_entry dir entry.
Proof.
  unfold find_in_entries. rewrite list_elem_of_In, in_flat_map.
  split; intros (entry & Hentry & Hf); exists entry;
    by rewrite ?list_elem_of_In in *.
Qed.

(** What the walk finds is a log file below the directory. *)
Lemma find_in_entry_sound (entry : Dirent) :
  ∀ dir entries f,
    entry ∈ entries → f ∈ find_in_entry dir entry → log_file_below dir entries f.
Proof.
  induction entry as [name|name listing IH|name|name] using Dirent_listing_ind;
    intros dir entries f Hentry.
  - cbn [find_in_entry].
    destruct (Js.endsWith name ".jsonl") eqn:E; [|by intros Hin%elem_of_nil].
    intros ->%list_elem_of_singleton. by apply log_file_here.
  - rewrite find_in_entry_directory, elem_of_find_in_entries.
    intros (e & He & Hf). apply (log_file_deeper dir entries name listing); [exact Hentry|].
    rewrite Forall_forall in IH. by apply (IH e He).
  - cbn [find_in_entry]. by intros Hin%elem_of_nil.
  - cbn [find_in_entry]. by intros Hin%elem_of_nil.
Qed.

(** The walk finds every log file below the directory. *)
Lemma find_in_entries_complete dir entries f :
  log_file_below dir entries f → f ∈ find_in_entries dir entries.
Proof.
  induction 1 as [dir entries name Hentry Hname
                 |dir entries name listing f Hentry _ IH];
    apply elem_of_find_in_entries.
  - exists (DirentFile name). split; [exact Hentry|].
    cbn [find_in_entry]. rewrite Hname. left.
  - exists (DirentDirectory name (Some listing)). split; [exact Hentry|].
    by rewrite find_in_entry_directory.
Qed.

Lemma log_file_below_name dir entries f :
  log_file_below dir entries f →
  ∃ d name, f = path_join d name ∧ Js.endsWith name ".jsonl" = true.
Proof.
  induction 1 as [dir entries name _ Hname|dir entries name listing f _ _ IH];
    [by exists dir, name | exact IH].
Qed.

(** X23: the walk finds the log files, and nothing else.  A path is
    visited by a scan exactly when it is a log file below the projects
    directory of a config directory whose listing can be read: the name of
    a regular file that ends in [.jsonl], joined to the directories that
    lead to it from the projects directory, each of them listed as a
    directory and readable.  So a path visited is the join of a directory
    and a name that ends in [.jsonl]; and a directory, whatever its name,
    what lies below a directory that cannot be read, and an entry that is
    neither a file nor a directory are visited by no scan. *)
Theorem the_walk_finds_the_log_files (o : Outside.t) (f : string) :
  (f ∈ discovered o ↔
   ∃ configDir entries,
     configDir ∈ getClaudeConfigDirs o
     ∧ Outside.readdir o (getProjectsDir configDir) = Some entries
     ∧ log_file_below (getProjectsDir configDir) entries f)
  ∧ (f ∈ discovered o →
     ∃ d name, f = path_join d name ∧ Js.endsWith name ".jsonl" = true).
Proof.
  assert (Hiff :
    f ∈ discovered o ↔
    ∃ configDir entries,
      configDir ∈ getClaudeConfigDirs o
      ∧ Outside.readdir o (getProjectsDir configDir) = Some entries
      ∧ log_file_below (getProjectsDir configDir) entries f).
  { unfold discovered. rewrite list_elem_of_In, in_flat_map. split.
    - intros (configDir & Hdir & Hf). apply list_elem_of_In in Hdir, Hf.
      unfold findJSONLFiles in Hf.
      destruct (Outside.readdir o (getProjectsDir configDir)) as [entries|] eqn:E;
        [|by apply elem_of_nil in Hf].
      exists configDir, entries. split_and!; [exact Hdir | exact E |].
      apply elem_of_find_in_entries in Hf as (entry & Hentry & Hf).
      by apply (find_in_entry_sound entry).
    - intros (configDir & entries & Hdir & Hread & Hf).
      exists configDir. split; [by apply list_elem_of_In|].
      apply list_elem_of_In. unfold findJSONLFiles. rewrite Hread.
      by apply find_in_entries_complete. }
  split; [exact Hiff|].
  intros Hf. apply Hiff in Hf as (configDir & entries & _ & _ & Hf).
  by eapply log_file_below_name.
Qed.

End Walk.

Lemma the_walk_finds_the_log_files_witness :
  let line := Reference.record_line "a" "s1" "2024-01-01T00:00:00.000Z" "10" "5" "0.01" in
  let o := Reference.disk 1000 (Js.records_text [line]) 3000 in
  Reference.log_path ∈ @discovered Reference.platform o
  ∧ (∃ d name,
       Reference.log_path = Reference.join d name ∧ Js.endsWith name ".jsonl" = true)
  ∧ Reference.join (Reference.join "/home/u/.claude/projects" "app") "notes.txt"
    ∉ @discovered Reference.platform o.
Proof.
  intros line o.
  assert (Hin : Reference.log_path ∈ @discovered Reference.platform o).
  { vm_compute. left. }
  split_and!; [exact Hin | |].
  - exact (proj2 (@the_walk_finds_the_log_files Reference.platform o Reference.log_path)
             Hin).
  - apply (bool_decide_unpack _). vm_compute. reflexivity.
Defined.

(** ** Full scans, one after the other *)

Section FullScans.
Context `{Platform} `{Storage}.

Lemma scanAndImport_returned o o' w result w' :
  scanAndImport o o' w = Returned result w' →
  result = scanAllJSONLFiles o
  ∧ Repository.claude_log_entries (World.repository w') =
      foldl (fun rows e => insert_or_replace e rows)
        (Repository.claude_log_entries (World.repository w))
        (ScanResult.entries result).
Proof.
  unfold scanAndImport.
  destruct (save_if_any _ w) as [[] w1|] eqn:Hsave; [|discriminate].
  destruct (updateProcessedFilesFromScan _ _ w1) as [[] w2|] eqn:Hupdate; [|discriminate].
  intros [= <- <-]. split; [reflexivity|].
  pose proof (update_tracking_journal o'
                (group_by_file (ScanResult.entries (scanAllJSONLFiles o))) w1)
    as [Hrows _].
  unfold updateProcessedFilesFromScan in Hupdate. rewrite Hupdate in Hrows.
  cbn [final_world] in Hrows. rewrite Hrows.
  unfold save_if_any in Hsave.
  destruct (ScanResult.entries (scanAllJSONLFiles o)) as [|e es] eqn:Hentries.
  - cbn in Hsave. by injection Hsave as <-.
  - cbn [length Nat.ltb Nat.leb] in Hsave.
    destruct (saveEntries (e :: es) (World.repository w)) as [db|] eqn:Hsaved;
      [|discriminate].
    injection Hsave as <-. cbn [World.repository].
    by apply saveEntries_ok in Hsaved as (Hsaved & _).
Qed.

(** X24: a full scan counts the entries again.  [scanAndImport] does
    not look at the watermarks: run a second time on a disk that stands
    still, it returns the same result, leaves the table of entries as the
    first run left it, and raises the watermark of every file with
    entries by the number of its entries once more. *)
Theorem a_full_scan_counts_the_entries_again (o : Outside.t) (w w1 w2 : World.t)
    (result1 result2 : ScanResult) (f : string) (modifiedAt size : Z) :
  scanAndImport o o w = Returned result1 w1 →
  scanAndImport o o w1 = Returned result2 w2 →
  getFileMetadata o f = Some (modifiedAt, size) →
  entries_of_file f (ScanResult.entries result1) ≠ [] →
  let found := length (entries_of_file f (ScanResult.entries result1)) in
  let before :=
    from_option ProcessedFile.lastLineCount 0%nat (World.processedFiles w !! f) in
  result2 = result1
  ∧ Repository.claude_log_entries (World.repository w2)
    = Repository.claude_log_entries (World.repository w1)
  ∧ World.processedFiles w1 !! f
    = Some (ProcessedFile.mk f modifiedAt size (before + found) (Outside.Date_now o))
  ∧ World.processedFiles w2 !! f
    = Some (ProcessedFile.mk f modifiedAt size (before + found + found)
              (Outside.Date_now o)).
Proof.
  intros Hfirst Hsecond Hmeta Hfound. cbv zeta.
  destruct (watermarks_after_scan_lemma o o w) as (Hfollow1 & _).
  destruct (watermarks_after_scan_lemma o o w1) as (Hfollow2 & _).
  specialize (Hfollow1 result1 w1 Hfirst f). specialize (Hfollow2 result2 w2 Hsecond f).
  apply scanAndImport_returned in Hfirst as (Hresult1 & Hrows1).
  apply scanAndImport_returned in Hsecond as (Hresult2 & Hrows2).
  subst result1 result2.
  destruct Hfollow1 as [Hfollow1 _]. destruct Hfollow2 as [Hfollow2 _].
  destruct (Hfollow1 Hfound modifiedAt size Hmeta) as (Hmem1 & _).
  destruct (Hfollow2 Hfound modifiedAt size Hmeta) as (Hmem2 & _).
  split_and!.
  - reflexivity.
  - by rewrite Hrows2, Hrows1, insert_batch_twice.
  - exact Hmem1.
  - rewrite Hmem2, Hmem1. reflexivity.
Qed.

End FullScans.

Lemma a_full_scan_counts_the_entries_again_witness :
  let line1 := Reference.record_line "a" "s1" "2024-01-01T00:00:00.000Z" "10" "5" "0.01" in
  let line2 := Reference.record_line "b" "s1" "2024-01-01T05:00:00.000Z" "7" "0" "0.02" in
  let o := Reference.disk 1000 (Js.records_text [line1; line2]) 3000 in
  let w := World.mk ∅ Repository.empty in
  ∃ result w1 w2 stored,
    @scanAndImport Reference.platform Reference.storage o o w = Returned result w1
    ∧ @scanAndImport Reference.platform Reference.storage o o w1 = Returned result w2
    ∧ World.processedFiles w2 !! Reference.log_path = Some stored
    ∧ ProcessedFile.lastLineCount stored = 4%nat.
Proof.
  intros line1 line2 o w.
  destruct (@scanAndImport Reference.platform Reference.storage o o w)
    as [result1 w1|message w1] eqn:E1; [|exfalso; vm_compute in E1; discriminate E1].
  destruct (@scanAndImport Reference.platform Reference.storage o o w1)
    as [result2 w2|message w2] eqn:E2.
  - assert (Hmeta : getFileMetadata o Reference.log_path
                    = Some (1000, Z.of_nat (String.length (Js.records_text [line1; line2])))).
    { reflexivity. }
    assert (Hfound : entries_of_file Reference.log_path (ScanResult.entries result1) ≠ []).
    { vm_compute in E1. injection E1 as <- _. vm_compute. discriminate. }
    destruct (@a_full_scan_counts_the_entries_again Reference.platform Reference.storage
                o w w1 w2 result1 result2 Reference.log_path _ _ E1 E2 Hmeta Hfound)
      as (Hsame & _ & _ & Hmem2).
    subst result2. eexists result1, w1, w2, _.
    split_and!; [reflexivity | exact E2 | exact Hmem2 |].
    cbn [ProcessedFile.lastLineCount].
    vm_compute in E1. injection E1 as <- _. vm_compute. reflexivity.
  - exfalso. vm_compute in E1. injection E1 as _ <-.
    vm_compute in E2. discriminate E2.
Defined.

(** ** [dispose] while [initialize] is in flight *)

(** X25: [dispose] does not cancel a call of [initialize].  When
    [initialize] is waiting for the watermarks of the database and
    [dispose] is called, the call goes on afterwards: with no startup scan
    and a positive interval, the service ends initialized, with the
    interval timer set. *)
Theorem dispose_does_not_cancel_initialize `{Platform} `{Storage}
    (s : Service.t) (index : nat) (o : Outside.t) :
  Service.tasks s !! index = Some (Task.mk M_initialize AtLoad) →
  Options.scanOnStartup (Service.options s) = false →
  0 < Options.scanIntervalMs (Service.options s) →
  let disposed := step s Call_dispose in
  let s' := run [Call_dispose; Resume index o] s in
  Service.initialized disposed = false
  ∧ Service.scanIntervalTimer disposed = false
  ∧ Service.initialized s' = true
  ∧ Service.scanIntervalTimer s' = true
  ∧ Service.tasks s' = delete index (Service.tasks s).
Proof.
  intros Htask Hstartup Hinterval. cbv zeta.
  unfold run. cbn [foldl step]. unfold resume.
  cbn [Service.tasks Service.options Service.world Service.initialized
       Service.scanIntervalTimer].
  rewrite Htask. cbn [Task.method Task.point]. rewrite Hstartup.
  cbn [on_return]. unfold finish_initialize, with_tasks, with_world.
  cbn [Service.tasks Service.options Service.world Service.initialized
       Service.scanIntervalTimer Service.watching].
  split_and!; try reflexivity.
  by apply Z.ltb_lt in Hinterval as ->.
Qed.

Lemma dispose_does_not_cancel_initialize_witness :
  let o := Reference.disk 1000 EmptyString 3000 in
  let s :=
    @step Reference.platform Reference.storage
      (Service.create Repository.empty)
      (Call_initialize (OptionsArg.mk None (Some false) None)) in
  Service.tasks s !! 0%nat = Some (Task.mk M_initialize AtLoad)
  ∧ Service.scanIntervalTimer
      (@run Reference.platform Reference.storage [Call_dispose; Resume 0 o] s) = true.
Proof.
  intros o s.
  assert (Htask : Service.tasks s !! 0%nat = Some (Task.mk M_initialize AtLoad)).
  { reflexivity. }
  split; [exact Htask|].
  refine (proj1 (proj2 (proj2 (proj2
            (@dispose_does_not_cancel_initialize Reference.platform Reference.storage
               s 0 o Htask _ _))))).
  - reflexivity.
  - vm_compute. reflexivity.
Defined.

(** ** The scan after a watch event *)

Section WatchScan.
Context `{Platform} `{Storage}.

(** X26: a watch event reads the whole file again.  For a file that is
    there, found once by the directory walk and readable,
    [processModifiedFile] scans with the watermark of the file taken out:
    whatever that watermark was, the entries found for the file are those
    of the parse of its whole text; and when there are any and the call
    returns, the watermark of the file stands at its earlier line count
    plus the number of all these entries. *)
Theorem a_watch_event_reads_the_whole_file (o o' : Outside.t) (f : string)
    (w w' : World.t) (fileStat : Stats.t) (content : string) :
  NoDup (discovered o) →
  f ∈ discovered o →
  Outside.stat o f = IoOk fileStat →
  Outside.readFile o f = IoOk content →
  processModifiedFile o o' f w = Returned () w' →
  let parsed :=
    parseJSONLContent content f (extractProjectPath f (getClaudeConfigDirs o))
      (Stats.mtimeMs fileStat) in
  let result := scanModifiedFiles o (delete f (World.processedFiles w)) in
  let before :=
    from_option ProcessedFile.lastLineCount 0%nat (World.processedFiles w !! f) in
  entries_of_file f (ScanResult.entries result) = Parsed.entries parsed
  ∧ (Parsed.entries parsed ≠ [] →
     ∀ modifiedAt size,
       getFileMetadata o' f = Some (modifiedAt, size) →
       World.processedFiles w' !! f
       = Some (ProcessedFile.mk f modifiedAt size
                 (before + length (Parsed.entries parsed)) (Outside.Date_now o'))).
Proof.
  intros Hnodup Hf Hstat Hread Hcall. cbv zeta.
  assert (Hfound :
    entries_of_file f
      (ScanResult.entries (scanModifiedFiles o (delete f (World.processedFiles w))))
    = Parsed.entries
        (parseJSONLContent content f (extractProjectPath f (getClaudeConfigDirs o))
           (Stats.mtimeMs fileStat))).
  { apply scanModifiedFiles_entries_of_file; [exact Hnodup | exact Hf | |].
    - intros a. rewrite scan_modified_file_no_watermark by apply lookup_delete_eq.
      unfold scan_file. by rewrite Hstat, Hread.
    - apply parse_entries_filePath. }
  split; [exact Hfound|].
  intros Hsome modifiedAt size Hmeta.
  destruct (watermarks_after_scan_lemma o o' w) as (_ & _ & Hfollow).
  assert (Hpresent : getFileMetadata o f ≠ None).
  { unfold getFileMetadata. by rewrite Hstat. }
  destruct (Hfollow f w' Hpresent Hcall f) as [Hadvanced _].
  rewrite Hfound in Hadvanced.
  by destruct (Hadvanced Hsome modifiedAt size Hmeta) as (Hmem & _).
Qed.

End WatchScan.

Lemma a_watch_event_reads_the_whole_file_witness :
  let line1 := Reference.record_line "a" "s1" "2024-01-01T00:00:00.000Z" "10" "5" "0.01" in
  let line2 := Reference.record_line "b" "s1" "2024-01-01T05:00:00.000Z" "7" "0" "0.02" in
  let content := Js.records_text [line1; line2] in
  let o := Reference.disk 2000 content 3000 in
  let stored :=
    ProcessedFile.mk Reference.log_path 1000 (Z.of_nat (String.length content)) 2 1500 in
  let w :=
    World.mk {[Reference.log_path := stored]}
      (Repository.mk [] {[Reference.log_path := stored]} []) in
  ∃ w' file,
    @processModifiedFile Reference.platform Reference.storage o o Reference.log_path w
    = Returned () w'
    ∧ World.processedFiles w' !! Reference.log_path = Some file
    ∧ ProcessedFile.lastLineCount file = 4%nat.
Proof.
  intros line1 line2 content o stored w.
  assert (Hfiles : @discovered Reference.platform o = [Reference.log_path]).
  { vm_compute. reflexivity. }
  assert (Hnodup : NoDup (@discovered Reference.platform o)).
  { rewrite Hfiles. apply NoDup_singleton. }
  assert (Hin : Reference.log_path ∈ @discovered Reference.platform o).
  { rewrite Hfiles. left. }
  destruct (@processModifiedFile Reference.platform Reference.storage o o
              Reference.log_path w) as [[] w'|message w'] eqn:E;
    [|exfalso; vm_compute in E; discriminate E].
  destruct (@a_watch_event_reads_the_whole_file Reference.platform Reference.storage
              o o Reference.log_path w w'
              (Stats.mk 2000 (Z.of_nat (String.length content))) content
              Hnodup Hin eq_refl eq_refl E) as [_ Hmem].
  eexists w', _. split; [reflexivity|]. split.
  - apply (Hmem ltac:(vm_compute; discriminate) 2000 (Z.of_nat (String.length content))).
    reflexivity.
  - vm_compute. reflexivity.
Defined.
